(** * matrixlib: dense matrix and vector kernels

    A shallow embedding of the two C++ translation units of the repository,

      - [src/matrixlib/src/matrix.cpp]  (free functions over
        [std::vector<std::vector<double>>], Python module [matrix]), and
      - [src/matrix_ops.cpp]            (class [Matrix] and two vector
        functions, Python module [matrix_ops]),

    together with the properties of the design document that concern them
    and further properties of the code.

    Numbers are IEEE 754 binary64 values ([double]), embedded as Rocq's
    primitive floats: every operation of the source is rounded to binary64
    on its own, to nearest with ties to even (no extended precision, and no
    product fused with a sum), so every rounding of the source is a rounding
    of the model.  [size_t] indices are embedded as [nat]: every index of
    the source is bounded by the size of an allocated vector, so no index
    wraps around.  [operator[]] of [std::vector] is unchecked; an access out
    of range is undefined behaviour and is a separate outcome of the model.
    The Python bindings only register the functions and are not modelled. *)

From Stdlib Require Import Floats String.
From stdpp Require Import base list.

Set Default Proof Using "Type".
#[local] Set Warnings "-inexact-float".

(** ** Outcomes of a C++ statement *)

(** The two standard exception classes the sources throw, with the argument
    of their constructor. *)
Inductive exception : Type :=
| invalid_argument (what : string)
| runtime_error (what : string).

(** A statement executed in a state [S] of local variables, inside a function
    that returns an [R], completes normally with a value [X], or abruptly by
    [return] or [throw]; or its behaviour is undefined. *)
Inductive outcome (S R X : Type) : Type :=
| Normal (x : X) (s : S)
| Returned (v : R) (s : S)
| Thrown (e : exception) (s : S)
| Undefined.
Arguments Normal {S R X} x s.
Arguments Returned {S R X} v s.
Arguments Thrown {S R X} e s.
Arguments Undefined {S R X}.

(** What the caller of a function observes. *)
Inductive result (R : Type) : Type :=
| Ok (v : R)
| Throw (e : exception)
| UB.
Arguments Ok {R} v.
Arguments Throw {R} e.
Arguments UB {R}.

Definition M (S R X : Type) : Type := S -> outcome S R X.

Section Statements.
Context {S R : Type}.

Definition ret {X} (x : X) : M S R X := fun s => Normal x s.

Definition bind {X Y} (m : M S R X) (k : X -> M S R Y) : M S R Y :=
  fun s =>
    match m s with
    | Normal x s' => k x s'
    | Returned v s' => Returned v s'
    | Thrown e s' => Thrown e s'
    | Undefined => Undefined
    end.

(** [return v;] *)
Definition return_ {X} (v : R) : M S R X := fun s => Returned v s.
(** [throw e;] *)
Definition throw {X} (e : exception) : M S R X := fun s => Thrown e s.
Definition undefined {X} : M S R X := fun _ => Undefined.

Definition get : M S R S := fun s => Normal s s.
Definition gets {X} (f : S -> X) : M S R X := fun s => Normal (f s) s.
Definition put (s : S) : M S R unit := fun _ => Normal tt s.
Definition modify (f : S -> S) : M S R unit := fun s => Normal tt (f s).

(** The value of a call expression [f(args)] inside a statement. *)
Definition eval {X} (r : result X) : M S R X :=
  match r with
  | Ok v => ret v
  | Throw e => throw e
  | UB => undefined
  end.

(** [for (size_t i = lo; i < lo + count; ++i) body] *)
Fixpoint for_from (lo count : nat) (body : nat -> M S R unit) : M S R unit :=
  match count with
  | O => ret tt
  | Datatypes.S c => bind (body lo) (fun _ => for_from (Datatypes.S lo) c body)
  end.

(** [for (size_t i = lo; i < hi; ++i) body]; the bound [hi] of every loop
    of the sources is not changed by the body. *)
Definition for_ (lo hi : nat) (body : nat -> M S R unit) : M S R unit :=
  for_from lo (hi - lo) body.

(** A function body run from the initial values of its locals.  Flowing off
    the end of a function that returns a value is undefined. *)
Definition call (body : M S R unit) (locals : S) : result R :=
  match body locals with
  | Returned v _ => Ok v
  | Thrown e _ => Throw e
  | Normal _ _ | Undefined => UB
  end.
End Statements.

(** Statements on one variable, run inside a state that holds it. *)
Definition zoom {S T R X} (proj : S -> T) (inj : T -> S -> S)
    (m : M T R X) : M S R X :=
  fun s =>
    match m (proj s) with
    | Normal x t => Normal x (inj t s)
    | Returned v t => Returned v (inj t s)
    | Thrown e t => Thrown e (inj t s)
    | Undefined => Undefined
    end.

Declare Scope cpp_scope.
Delimit Scope cpp_scope with cpp.
Notation "x <- m ;; k" := (bind m (fun x => k))
  (at level 100, m at next level, k at level 200, right associativity) : cpp_scope.
Notation "m ;; k" := (bind m (fun _ => k))
  (at level 100, k at level 200, right associativity) : cpp_scope.
Open Scope cpp_scope.

(** ** [std::vector] *)

Abbreviation Vector := (list float).
Abbreviation Grid := (list (list float)).

Section Vectors.
Context {R X : Type}.

(** [v[i]] read *)
Definition load (i : nat) : M (list X) R X :=
  fun v => match v !! i with
           | Some x => Normal x v
           | None => Undefined
           end.

(** [v[i] = x] *)
Definition store (i : nat) (x : X) : M (list X) R unit :=
  fun v => if decide (i < length v) then Normal tt (<[i := x]> v) else Undefined.

(** [m[i][j]] read *)
Definition load2 (i j : nat) : M (list (list X)) R X :=
  fun m => match m !! i with
           | Some row => match row !! j with
                         | Some x => Normal x m
                         | None => Undefined
                         end
           | None => Undefined
           end.

(** [m[i][j] = x] *)
Definition store2 (i j : nat) (x : X) : M (list (list X)) R unit :=
  fun m => match m !! i with
           | Some row =>
               if decide (j < length row)
               then Normal tt (<[i := <[j := x]> row]> m)
               else Undefined
           | None => Undefined
           end.

(** [v[i] op= y], as [v[i] = f(v[i])] *)
Definition update (i : nat) (f : X -> X) : M (list X) R unit :=
  x <- load i ;; store i (f x).

(** [m[i][j] op= y] *)
Definition update2 (i j : nat) (f : X -> X) : M (list (list X)) R unit :=
  x <- load2 i j ;; store2 i j (f x).
End Vectors.

(** [a[i]] and [a[i][j]] of a vector bound to a [const] reference: a read
    that leaves every local variable as it is. *)
Definition at_ {S R X} (v : list X) (i : nat) : M S R X :=
  match v !! i with
  | Some x => ret x
  | None => undefined
  end.

Definition at2 {S R X} (m : list (list X)) (i j : nat) : M S R X :=
  row <- at_ m i ;; at_ row j.

(** [a.empty()] *)
Definition empty {X} (v : list X) : bool :=
  match v with [] => true | _ => false end.

(** [x || y], whose right operand is evaluated only when the left is false. *)
Definition orelse {S R} (x : bool) (y : M S R bool) : M S R bool :=
  if x then ret true else y.

Definition nat_neq (x y : nat) : bool := negb (Nat.eqb x y).

(** The tolerance [1e-10] of every pivot test, as the compiler rounds it. *)
Definition tolerance : float := 1e-10%float.

(** [std::abs(pivot) < 1e-10] *)
Definition below_tolerance (pivot : float) : bool :=
  PrimFloat.ltb (PrimFloat.abs pivot) tolerance.

(** ** [matrix.cpp]: free functions over nested vectors *)

Module matrix.

(** [using Matrix = std::vector<std::vector<double>>;] *)
Abbreviation Matrix := (list (list float)).

(** The variables of an elimination routine: what its [const] reference
    parameters are bound to (objects of the caller), the working copy
    [temp], and the value being built ([result], or [det]). *)
Record frame (A L : Type) : Type :=
  Frame { args : A; temp : Matrix; out : L }.
Arguments Frame {A L} args temp out.
Arguments args {A L} f.
Arguments temp {A L} f.
Arguments out {A L} f.

Definition on_temp {A L R X} : M Matrix R X -> M (frame A L) R X :=
  zoom temp (fun t s => Frame (args s) t (out s)).

Definition on_out {A L R X} : M L R X -> M (frame A L) R X :=
  zoom out (fun o s => Frame (args s) (temp s) o).

(** *** [matrix_multiply] *)

Definition matrix_multiply_body (a b : Matrix) : M Matrix Matrix unit :=
  bad <- orelse (empty a || empty b)
           (a0 <- at_ a 0 ;; ret (nat_neq (length a0) (length b))) ;;
  if bad : bool
  then throw (invalid_argument "Invalid dimensions for matrix multiplication")
  else
    b0 <- at_ b 0 ;;
    (* Matrix result(a.size(), Vector(b[0].size(), 0.0)); *)
    put (replicate (length a) (replicate (length b0) 0%float)) ;;
    for_ 0 (length a) (fun i =>
      for_ 0 (length b0) (fun j =>
        for_ 0 (length b) (fun k =>
          aik <- at2 a i k ;;
          bkj <- at2 b k j ;;
          update2 i j (fun r => (r + aik * bkj)%float)))) ;;
    result <- get ;;
    return_ result.

Definition matrix_multiply (a b : Matrix) : result Matrix :=
  call (matrix_multiply_body a b) [].

(** *** [inverse] *)

(** The argument test and the declarations of [result] and [temp]; its value
    is [n]. *)
Definition inverse_setup : M (frame Matrix Matrix) Matrix nat :=
  a <- gets args ;;
  bad <- orelse (empty a)
           (a0 <- at_ a 0 ;; ret (nat_neq (length a) (length a0))) ;;
  if bad : bool
  then throw (invalid_argument "Matrix must be square and non-empty")
  else
    let n := length a in
    (* Matrix result(n, Vector(n, 0.0)); *)
    on_out (put (replicate n (replicate n 0%float))) ;;
    (* Matrix temp = a; *)
    on_temp (put a) ;;
    for_ 0 n (fun i => on_out (store2 i i 1%float)) ;;
    ret n.

(** Iteration [i] of the elimination loop of [inverse]. *)
Definition inverse_step (n i : nat) : M (frame Matrix Matrix) Matrix unit :=
  pivot <- on_temp (load2 i i) ;;
  if below_tolerance pivot
  then throw (runtime_error "Matrix is singular")
  else
    for_ 0 n (fun j =>
      on_temp (update2 i j (fun t => (t / pivot)%float)) ;;
      on_out (update2 i j (fun r => (r / pivot)%float))) ;;
    for_ 0 n (fun k =>
      if nat_neq k i
      then
        factor <- on_temp (load2 k i) ;;
        for_ 0 n (fun j =>
          tij <- on_temp (load2 i j) ;;
          on_temp (update2 k j (fun t => (t - factor * tij)%float)) ;;
          rij <- on_out (load2 i j) ;;
          on_out (update2 k j (fun r => (r - factor * rij)%float)))
      else ret tt).

Definition inverse_body : M (frame Matrix Matrix) Matrix unit :=
  n <- inverse_setup ;;
  for_ 0 n (inverse_step n) ;;
  result <- gets out ;;
  return_ result.

(** The variables of [inverse] when it is entered with [a] bound to the
    caller's [a0]; [temp] and [result] are not yet declared. *)
Definition inverse_entry (a0 : Matrix) : frame Matrix Matrix := Frame a0 [] [].

Definition inverse (a : Matrix) : result Matrix :=
  call inverse_body (inverse_entry a).

(** *** [determinant] *)

Definition determinant_setup : M (frame Matrix float) float nat :=
  a <- gets args ;;
  bad <- orelse (empty a)
           (a0 <- at_ a 0 ;; ret (nat_neq (length a) (length a0))) ;;
  if bad : bool
  then throw (invalid_argument "Matrix must be square and non-empty")
  else
    (* Matrix temp = a; double det = 1.0; *)
    on_temp (put a) ;;
    on_out (put 1%float) ;;
    ret (length a).

(** Iteration [i] of the elimination loop of [determinant]. *)
Definition determinant_step (n i : nat) : M (frame Matrix float) float unit :=
  pivot <- on_temp (load2 i i) ;;
  if below_tolerance pivot
  then return_ 0%float
  else
    for_ (i + 1) n (fun k =>
      tki <- on_temp (load2 k i) ;;
      let factor := (tki / pivot)%float in
      for_ i n (fun j =>
        tij <- on_temp (load2 i j) ;;
        on_temp (update2 k j (fun t => (t - factor * tij)%float)))) ;;
    on_out (modify (fun det => (det * pivot)%float)).

Definition determinant_body : M (frame Matrix float) float unit :=
  n <- determinant_setup ;;
  for_ 0 n (determinant_step n) ;;
  det <- gets out ;;
  return_ det.

Definition determinant_entry (a0 : Matrix) : frame Matrix float :=
  Frame a0 [] 0%float.

Definition determinant (a : Matrix) : result float :=
  call determinant_body (determinant_entry a).

(** *** [dot_product] *)

Definition dot_product_body (a b : Vector) : M float float unit :=
  if nat_neq (length a) (length b)
  then throw (invalid_argument "Vectors must have the same length")
  else
    (* double result = 0.0; *)
    put 0%float ;;
    for_ 0 (length a) (fun i =>
      ai <- at_ a i ;;
      bi <- at_ b i ;;
      modify (fun r => (r + ai * bi)%float)) ;;
    result <- get ;;
    return_ result.

Definition dot_product (a b : Vector) : result float :=
  call (dot_product_body a b) 0%float.

(** *** [add] and [subtract] *)

(** The argument test of [add] and [subtract]. *)
Definition shapes_differ {S R} (a b : Matrix) : M S R bool :=
  orelse (nat_neq (length a) (length b))
    (orelse (empty a || empty b)
       (a0 <- at_ a 0 ;; b0 <- at_ b 0 ;;
        ret (nat_neq (length a0) (length b0)))).

Definition add_body (a b : Matrix) : M Matrix Matrix unit :=
  bad <- shapes_differ a b ;;
  if bad : bool
  then throw (invalid_argument "Invalid dimensions for addition")
  else
    a0 <- at_ a 0 ;;
    (* Matrix result = a; *)
    put a ;;
    for_ 0 (length a) (fun i =>
      for_ 0 (length a0) (fun j =>
        bij <- at2 b i j ;;
        update2 i j (fun r => (r + bij)%float))) ;;
    result <- get ;;
    return_ result.

Definition add (a b : Matrix) : result Matrix := call (add_body a b) [].

Definition subtract_body (a b : Matrix) : M Matrix Matrix unit :=
  bad <- shapes_differ a b ;;
  if bad : bool
  then throw (invalid_argument "Invalid dimensions for subtraction")
  else
    a0 <- at_ a 0 ;;
    put a ;;
    for_ 0 (length a) (fun i =>
      for_ 0 (length a0) (fun j =>
        bij <- at2 b i j ;;
        update2 i j (fun r => (r - bij)%float))) ;;
    result <- get ;;
    return_ result.

Definition subtract (a b : Matrix) : result Matrix :=
  call (subtract_body a b) [].

(** *** [solve] *)

Definition solve_setup : M (frame (Matrix * Vector) Vector) Vector nat :=
  ab <- gets args ;;
  let a := fst ab in
  let b := snd ab in
  bad <- orelse (empty a)
           (a0 <- at_ a 0 ;;
            orelse (nat_neq (length a) (length a0))
              (ret (nat_neq (length a) (length b)))) ;;
  if bad : bool
  then throw (invalid_argument "Invalid dimensions for equation solving")
  else
    (* Matrix temp = a; Vector result = b; *)
    on_temp (put a) ;;
    on_out (put b) ;;
    ret (length a).

(** Iteration [i] of the elimination loop of [solve]. *)
Definition solve_step (n i : nat) : M (frame (Matrix * Vector) Vector) Vector unit :=
  pivot <- on_temp (load2 i i) ;;
  if below_tolerance pivot
  then throw (runtime_error "Matrix is singular")
  else
    for_ i n (fun j => on_temp (update2 i j (fun t => (t / pivot)%float))) ;;
    on_out (update i (fun r => (r / pivot)%float)) ;;
    for_ 0 n (fun k =>
      if nat_neq k i
      then
        factor <- on_temp (load2 k i) ;;
        for_ i n (fun j =>
          tij <- on_temp (load2 i j) ;;
          on_temp (update2 k j (fun t => (t - factor * tij)%float))) ;;
        ri <- on_out (load i) ;;
        on_out (update k (fun r => (r - factor * ri)%float))
      else ret tt).

Definition solve_body : M (frame (Matrix * Vector) Vector) Vector unit :=
  n <- solve_setup ;;
  for_ 0 n (solve_step n) ;;
  result <- gets out ;;
  return_ result.

Definition solve_entry (a0 : Matrix) (b0 : Vector) : frame (Matrix * Vector) Vector :=
  Frame (a0, b0) [] [].

Definition solve (a : Matrix) (b : Vector) : result Vector :=
  call solve_body (solve_entry a b).

(** *** [transpose] *)

Definition transpose_body (a : Matrix) : M Matrix Matrix unit :=
  if empty a
  then throw (invalid_argument "Matrix cannot be empty")
  else
    a0 <- at_ a 0 ;;
    (* Matrix result(a[0].size(), Vector(a.size(), 0.0)); *)
    put (replicate (length a0) (replicate (length a) 0%float)) ;;
    for_ 0 (length a) (fun i =>
      for_ 0 (length a0) (fun j =>
        aij <- at2 a i j ;;
        store2 j i aij)) ;;
    result <- get ;;
    return_ result.

Definition transpose (a : Matrix) : result Matrix :=
  call (transpose_body a) [].

(** *** [cross_product] *)

Definition cross_product_body (a b : Vector) : M unit Vector unit :=
  if nat_neq (length a) 3 || nat_neq (length b) 3
  then throw (invalid_argument "Cross product requires 3D vectors")
  else
    a0 <- at_ a 0 ;; a1 <- at_ a 1 ;; a2 <- at_ a 2 ;;
    b0 <- at_ b 0 ;; b1 <- at_ b 1 ;; b2 <- at_ b 2 ;;
    return_ [(a1 * b2 - a2 * b1)%float;
             (a2 * b0 - a0 * b2)%float;
             (a0 * b1 - a1 * b0)%float].

Definition cross_product (a b : Vector) : result Vector :=
  call (cross_product_body a b) tt.

(** *** [scalar_multiply] *)

(** There is no argument test; [a[0].size()] is the bound of the inner
    loop, read only when the outer loop has an iteration to run. *)
Definition scalar_multiply_body (a : Matrix) (scalar : float) : M Matrix Matrix unit :=
  (* Matrix result = a; *)
  put a ;;
  for_ 0 (length a) (fun i =>
    a0 <- at_ a 0 ;;
    for_ 0 (length a0) (fun j =>
      update2 i j (fun r => (r * scalar)%float))) ;;
  result <- get ;;
  return_ result.

Definition scalar_multiply (a : Matrix) (scalar : float) : result Matrix :=
  call (scalar_multiply_body a scalar) [].

(** *** The pivots an elimination meets

    The value [temp[i][i]] that iteration [i] of the elimination loop reads,
    when the loop gets as far as that iteration; [None] when it stops
    before, and for an [i] that is no row of the matrix. *)

Definition inverse_pivot (a : Matrix) (i : nat) : option float :=
  if decide (i < length a)
  then
    match (n <- inverse_setup ;;
           for_ 0 i (inverse_step n) ;;
           on_temp (load2 i i)) (inverse_entry a) with
    | Normal pivot _ => Some pivot
    | _ => None
    end
  else None.

Definition determinant_pivot (a : Matrix) (i : nat) : option float :=
  if decide (i < length a)
  then
    match (n <- determinant_setup ;;
           for_ 0 i (determinant_step n) ;;
           on_temp (load2 i i)) (determinant_entry a) with
    | Normal pivot _ => Some pivot
    | _ => None
    end
  else None.

Definition solve_pivot (a : Matrix) (b : Vector) (i : nat) : option float :=
  if decide (i < length a)
  then
    match (n <- solve_setup ;;
           for_ 0 i (solve_step n) ;;
           on_temp (load2 i i)) (solve_entry a b) with
    | Normal pivot _ => Some pivot
    | _ => None
    end
  else None.

End matrix.

(** ** [matrix_ops.cpp]: the class [Matrix] and the vector functions *)

Module matrix_ops.

(** The data members of [class Matrix]. *)
Record Matrix : Type :=
  mkMatrix { data : list (list float); rows : nat; cols : nat }.

(** [Matrix(size_t r, size_t c)]: [r] rows of [c] zeros. *)
Definition Matrix_zero (r c : nat) : Matrix :=
  mkMatrix (replicate r (replicate c 0%float)) r c.

(** [Matrix(const std::vector<std::vector<double>>& input)]: the members are
    taken from [input] as it is; [input[0]] is read without a test. *)
Definition Matrix_from (input : list (list float)) : result Matrix :=
  match input !! 0 with
  | Some row0 => Ok (mkMatrix input (length input) (length row0))
  | None => UB
  end.

(** [getRows], [getCols], [getData] *)
Definition getRows (this : Matrix) : nat := rows this.
Definition getCols (this : Matrix) : nat := cols this.
Definition getData (this : Matrix) : list (list float) := data this.

(** A statement on the member [data] of a local [Matrix]. *)
Definition on_data {R X} : M (list (list float)) R X -> M Matrix R X :=
  zoom data (fun d s => mkMatrix d (rows s) (cols s)).

(** [m(i, j)] of a [const Matrix& m] *)
Definition elem {S R} (m : Matrix) (i j : nat) : M S R float :=
  at2 (data m) i j.

(** *** [Matrix::multiply] *)

Definition multiply_body (this other : Matrix) : M Matrix Matrix unit :=
  if nat_neq (cols this) (rows other)
  then throw (invalid_argument "Matrix dimensions don't match for multiplication")
  else
    (* Matrix result(rows, other.cols); *)
    put (Matrix_zero (rows this) (cols other)) ;;
    for_ 0 (rows this) (fun i =>
      for_ 0 (cols other) (fun j =>
        for_ 0 (cols this) (fun k =>
          aik <- elem this i k ;;
          bkj <- elem other k j ;;
          on_data (update2 i j (fun r => (r + aik * bkj)%float))))) ;;
    result <- get ;;
    return_ result.

Definition multiply (this other : Matrix) : result Matrix :=
  call (multiply_body this other) (Matrix_zero 0 0).

(** *** [Matrix::getMinor] *)

(** The locals of [getMinor]. *)
Record minor_vars : Type :=
  MinorVars { minor : Matrix; mi : nat; mj : nat }.

Definition on_minor {R X} : M Matrix R X -> M minor_vars R X :=
  zoom minor (fun m s => MinorVars m (mi s) (mj s)).

Definition set_mi (v : nat) (s : minor_vars) : minor_vars :=
  MinorVars (minor s) v (mj s).

Definition set_mj (v : nat) (s : minor_vars) : minor_vars :=
  MinorVars (minor s) (mi s) v.

(** [rows - 1] and [cols - 1] are taken in [size_t]; [getMinor] is private
    and [determinant] calls it only when [rows] is at least 3. *)
Definition getMinor_body (this : Matrix) (row col : nat) : M minor_vars Matrix unit :=
  (* Matrix minor(rows - 1, cols - 1); size_t mi = 0, mj = 0; *)
  put (MinorVars (Matrix_zero (rows this - 1) (cols this - 1)) 0 0) ;;
  for_ 0 (rows this) (fun i =>
    if Nat.eqb i row
    then ret tt (* continue *)
    else
      modify (set_mj 0) ;;
      for_ 0 (cols this) (fun j =>
        if Nat.eqb j col
        then ret tt (* continue *)
        else
          x <- elem this i j ;;
          r <- gets mi ;;
          c <- gets mj ;;
          on_minor (on_data (store2 r c x)) ;;
          modify (fun s => set_mj (mj s + 1) s)) ;;
      modify (fun s => set_mi (mi s + 1) s)) ;;
  m <- gets minor ;;
  return_ m.

Definition getMinor (this : Matrix) (row col : nat) : result Matrix :=
  call (getMinor_body this row col) (MinorVars (Matrix_zero 0 0) 0 0).

(** *** [Matrix::determinant] *)

(** [(j % 2 == 0 ? 1 : -1)], converted to [double] by the product. *)
Definition sign (j : nat) : float :=
  if Nat.eqb (j mod 2) 0 then 1%float else (-1)%float.

(** The body of [determinant], given the value of the recursive call
    [minor.determinant()]. *)
Definition determinant_body (recurse : Matrix -> result float) (this : Matrix)
    : M float float unit :=
  if nat_neq (rows this) (cols this)
  then throw (invalid_argument "Matrix must be square for determinant")
  else if Nat.eqb (rows this) 1
  then x <- elem this 0 0 ;; return_ x
  else if Nat.eqb (rows this) 2
  then
    a <- elem this 0 0 ;;
    d <- elem this 1 1 ;;
    b <- elem this 0 1 ;;
    c <- elem this 1 0 ;;
    return_ (a * d - b * c)%float
  else
    (* double det = 0.0; *)
    put 0%float ;;
    for_ 0 (cols this) (fun j =>
      m <- eval (getMinor this 0 j) ;;
      x <- elem this 0 j ;;
      d <- eval (recurse m) ;;
      modify (fun det => (det + sign j * x * d)%float)) ;;
    det <- get ;;
    return_ det.

(** The recursion of [determinant] is on [rows]: a minor has one row less.
    [depth] bounds the nesting of calls; with no call left the function has
    no value. *)
Fixpoint determinant_rec (depth : nat) (this : Matrix) : result float :=
  call
    (determinant_body
       (fun m => match depth with
                 | O => UB
                 | S d => determinant_rec d m
                 end)
       this)
    0%float.

Definition determinant (this : Matrix) : result float :=
  determinant_rec (rows this) this.

(** *** [Matrix::inverse] *)

(** The locals [augmented] and [inv] of [inverse]. *)
Record inverse_vars : Type :=
  InverseVars { augmented : Matrix; inv : Matrix }.

Definition on_augmented {R X} : M (list (list float)) R X -> M inverse_vars R X :=
  zoom augmented (fun m s => InverseVars m (inv s)) ∘ on_data.

Definition on_inv {R X} : M (list (list float)) R X -> M inverse_vars R X :=
  zoom inv (fun m s => InverseVars (augmented s) m) ∘ on_data.

(** [Matrix augmented(rows, 2 * cols);] filled with [A | I]. *)
Definition augment (this : Matrix) : M inverse_vars Matrix unit :=
  modify (fun s => InverseVars (Matrix_zero (rows this) (2 * cols this)) (inv s)) ;;
  for_ 0 (rows this) (fun i =>
    for_ 0 (cols this) (fun j =>
      x <- elem this i j ;;
      on_augmented (store2 i j x) ;;
      on_augmented (store2 i (j + cols this)
                      (if Nat.eqb i j then 1%float else 0%float)))).

(** Iteration [i] of the Gauss-Jordan loop of [inverse]. *)
Definition gauss_jordan_step (this : Matrix) (i : nat) : M inverse_vars Matrix unit :=
  pivot <- on_augmented (load2 i i) ;;
  if below_tolerance pivot
  then throw (invalid_argument "Matrix is singular")
  else
    for_ 0 (2 * cols this) (fun j =>
      on_augmented (update2 i j (fun x => (x / pivot)%float))) ;;
    for_ 0 (rows this) (fun k =>
      if nat_neq k i
      then
        factor <- on_augmented (load2 k i) ;;
        for_ 0 (2 * cols this) (fun j =>
          aij <- on_augmented (load2 i j) ;;
          on_augmented (update2 k j (fun x => (x - factor * aij)%float)))
      else ret tt).

(** [Matrix inv(rows, cols);] filled with the right half of [augmented]. *)
Definition extract (this : Matrix) : M inverse_vars Matrix unit :=
  modify (fun s => InverseVars (augmented s) (Matrix_zero (rows this) (cols this))) ;;
  for_ 0 (rows this) (fun i =>
    for_ 0 (cols this) (fun j =>
      x <- on_augmented (load2 i (j + cols this)) ;;
      on_inv (store2 i j x))).

(** [inverse] from the declaration of [augmented] on. *)
Definition gauss_jordan (this : Matrix) : M inverse_vars Matrix unit :=
  augment this ;;
  for_ 0 (rows this) (gauss_jordan_step this) ;;
  extract this ;;
  r <- gets inv ;;
  return_ r.

Definition inverse_body (this : Matrix) : M inverse_vars Matrix unit :=
  if nat_neq (rows this) (cols this)
  then throw (invalid_argument "Matrix must be square for inverse")
  else
    det <- eval (determinant this) ;;
    if below_tolerance det
    then throw (invalid_argument "Matrix is singular (determinant = 0)")
    else gauss_jordan this.

Definition inverse_entry : inverse_vars :=
  InverseVars (Matrix_zero 0 0) (Matrix_zero 0 0).

Definition inverse (this : Matrix) : result Matrix :=
  call (inverse_body this) inverse_entry.

(** *** [dotProduct] *)

(** The function is declared to return a [std::vector<double>] and returns
    [{result}]. *)
Definition dotProduct_body (a b : Vector) : M float Vector unit :=
  if nat_neq (length a) (length b)
  then throw (invalid_argument "Vectors must have same size for dot product")
  else
    put 0%float ;;
    for_ 0 (length a) (fun i =>
      ai <- at_ a i ;;
      bi <- at_ b i ;;
      modify (fun r => (r + ai * bi)%float)) ;;
    result <- get ;;
    return_ [result].

Definition dotProduct (a b : Vector) : result Vector :=
  call (dotProduct_body a b) 0%float.

(** *** [crossProduct] *)

Definition crossProduct_body (a b : Vector) : M unit Vector unit :=
  if nat_neq (length a) 3 || nat_neq (length b) 3
  then throw (invalid_argument "Cross product only defined for 3D vectors")
  else
    a0 <- at_ a 0 ;; a1 <- at_ a 1 ;; a2 <- at_ a 2 ;;
    b0 <- at_ b 0 ;; b1 <- at_ b 1 ;; b2 <- at_ b 2 ;;
    return_ [(a1 * b2 - a2 * b1)%float;
             (a2 * b0 - a0 * b2)%float;
             (a0 * b1 - a1 * b0)%float].

Definition crossProduct (a b : Vector) : result Vector :=
  call (crossProduct_body a b) tt.

(** The pivot that iteration [i] of the Gauss-Jordan loop reads, when the
    loop gets as far as that iteration. *)
Definition gauss_jordan_pivot (this : Matrix) (i : nat) : option float :=
  if decide (i < rows this)
  then
    match (augment this ;;
           for_ 0 i (gauss_jordan_step this) ;;
           on_augmented (load2 i i)) inverse_entry with
    | Normal pivot _ => Some pivot
    | _ => None
    end
  else None.

(** The invariant the design document asks of a [Matrix]. *)
Definition rectangular (m : Matrix) : Prop :=
  1 <= rows m /\ 1 <= cols m /\
  length (data m) = rows m /\
  Forall (fun row => length row = cols m) (data m).

End matrix_ops.

(** ** Vocabulary of the properties *)

(** Some pivot of an elimination is below the tolerance. *)
Definition meets_small_pivot (pivot : nat -> option float) : Prop :=
  exists i p, pivot i = Some p /\ below_tolerance p = true.

(** [a] has [r] rows of [c] elements each. *)
Definition shape (a : Grid) (r c : nat) : Prop :=
  length a = r /\ Forall (fun row => length row = c) a.

(** The element in row [i] and column [j]; [0.0] where there is none. *)
Definition entry (a : Grid) (i j : nat) : float :=
  default 0%float (a !! i ≫= (.!! j)).

(** The [r] by [c] matrix whose element in row [i] and column [j] is
    [f i j]. *)
Definition table (r c : nat) (f : nat -> nat -> float) : Grid :=
  (fun i => f i <$> seq 0 c) <$> seq 0 r.

(** The sum of [f 0], ..., [f (n - 1)], added from the left to [0.0] in
    double arithmetic. *)
Fixpoint sum_upto (f : nat -> float) (n : nat) : float :=
  match n with
  | O => 0%float
  | S k => (sum_upto f k + f k)%float
  end.

(** [Σ a[i]·b[i]] over the indices of [a]. *)
Definition sum_of_products (a b : Vector) : float :=
  sum_upto (fun i => (default 0 (a !! i) * default 0 (b !! i))%float) (length a).

(** The element of the product in row [i] and column [j], after its first
    [k] terms. *)
Definition product_entry (a b : Grid) (k i j : nat) : float :=
  sum_upto (fun x => (entry a i x * entry b x j)%float) k.

(** [g(f(x))]: a call on the value of a call that returned. *)
Definition and_then {A B} (r : result A) (f : A -> result B) : result B :=
  match r with
  | Ok v => f v
  | Throw e => Throw e
  | UB => UB
  end.

(** Position [(i', j')] comes before [(i, j)] in the order in which a pair
    of nested loops visits the positions of a matrix. *)
Definition visited (i j i' j' : nat) : bool :=
  (i' <? i) || ((i' =? i) && (j' <? j)).

(** The elements of a matrix while such loops are at [(i, j)]: those visited
    are [after], the others still [before]. *)
Definition stage (i j : nat) (after before : nat -> nat -> float)
    : nat -> nat -> float :=
  fun i' j' => if visited i j i' j' then after i' j' else before i' j'.

(** A statement run in a state that satisfies [P] ends normally in a state
    that satisfies [Q], by [return v] in one that satisfies [E v], or by
    [throw] in one that satisfies [T]; [U] is what is asked of undefined
    behaviour ([False]: there is none, [True]: nothing is asked). *)
Definition hoare {S R X} (U : Prop) (P : S -> Prop) (m : M S R X)
    (Q : X -> S -> Prop) (E : R -> S -> Prop) (T : S -> Prop) : Prop :=
  forall s, P s ->
    match m s with
    | Normal x s' => Q x s'
    | Returned v s' => E v s'
    | Thrown _ s' => T s'
    | Undefined => U
    end.

(** What the reference parameters of a routine are bound to when it has
    completed; [None] when its behaviour was undefined. *)
Definition final_args {A L R X} (o : outcome (matrix.frame A L) R X) : option A :=
  match o with
  | Normal _ s | Returned _ s | Thrown _ s => Some (matrix.args s)
  | Undefined => None
  end.

(** The invariant of an elimination: the arguments are still [a0], and the
    working copy and the value being built satisfy [JT] and [JL]. *)
Definition kept {A L} (a0 : A) (JT : Grid -> Prop) (JL : L -> Prop)
    (s : matrix.frame A L) : Prop :=
  matrix.args s = a0 /\ JT (matrix.temp s) /\ JL (matrix.out s).

(** [t] has [n] rows and [n] columns, where undefined behaviour is ruled
    out. *)
Definition square (U : Prop) (n : nat) (t : Grid) : Prop := U \/ shape t n n.

(** [v] has [n] elements, where undefined behaviour is ruled out. *)
Definition sized (U : Prop) (n : nat) (v : Vector) : Prop := U \/ length v = n.

(** ** Gauss-Jordan elimination on the elements

    The elements of [temp | result] (in [matrix.cpp]) and of [augmented] (in
    [matrix_ops.cpp]) as one function of a row and a column below [2 * n]. *)

(** [A | I]: the matrix [a] beside the identity. *)
Definition beside_identity (n : nat) (a : Grid) : nat -> nat -> float :=
  fun k c => if decide (c < n) then entry a k c
             else if decide (c - n = k) then 1%float else 0%float.

(** The element at [(k, c)] replaced by [v]. *)
Definition upd (A : nat -> nat -> float) (k c : nat) (v : float)
    : nat -> nat -> float :=
  fun k' c' => if decide (k' = k /\ c' = c) then v else A k' c'.

(** Row [i] divided by [p]. *)
Definition scale_row (i : nat) (p : float) (A : nat -> nat -> float)
    : nat -> nat -> float :=
  fun k c => if decide (k = i) then (A k c / p)%float else A k c.

(** From every other row [k], [A k i] times row [i] subtracted. *)
Definition eliminate_column (i : nat) (A : nat -> nat -> float)
    : nat -> nat -> float :=
  fun k c => if decide (k = i) then A k c else (A k c - A k i * A i c)%float.

(** Iteration [i] of the elimination, when its pivot [A i i] passes the
    test. *)
Definition gauss_jordan_pass (i : nat) (A : nat -> nat -> float)
    : nat -> nat -> float :=
  eliminate_column i (scale_row i (A i i) A).

(** The first [i] iterations of an elimination whose iteration [i] is [pass i]
    when its pivot passes the test; [None] when one of their pivots is below
    the tolerance. *)
Fixpoint passes (pass : nat -> (nat -> nat -> float) -> nat -> nat -> float)
    (i : nat) (A : nat -> nat -> float) : option (nat -> nat -> float) :=
  match i with
  | O => Some A
  | S i' =>
      match passes pass i' A with
      | Some A' =>
          if below_tolerance (A' i' i') then None else Some (pass i' A')
      | None => None
      end
  end.

(** Column [c] of [temp | result] is among those that [j] iterations of a
    loop over the columns of both halves have written. *)
Definition both_halves (n j c : nat) : Prop := c < j \/ (n <= c /\ c - n < j).

(** The variables of [inverse] in [matrix.cpp] that hold the elements [A]. *)
Definition inverse_vars_of (a0 : Grid) (n : nat) (A : nat -> nat -> float)
    : matrix.frame Grid Grid :=
  matrix.Frame a0 (table n n A) (table n n (fun k j => A k (j + n))).

(** The variables of [Matrix::inverse] that hold the elements [A] in
    [augmented]. *)
Definition augmented_of (n : nat) (inv0 : matrix_ops.Matrix) (A : nat -> nat -> float)
    : matrix_ops.inverse_vars :=
  matrix_ops.InverseVars (matrix_ops.mkMatrix (table n (2 * n) A) n (2 * n)) inv0.

(** The right half of the elements. *)
Definition right_half (n : nat) (A : nat -> nat -> float) : Grid :=
  table n n (fun k j => A k (j + n)).

(** ** Minors and the cofactor expansion on the elements *)

(** The index in the matrix of index [i] of a minor without [x]. *)
Definition skip (x i : nat) : nat := if decide (i < x) then i else i + 1.

(** The elements left when row [row] and column [col] are removed. *)
Definition minor_of (a : nat -> nat -> float) (row col : nat)
    : nat -> nat -> float :=
  fun i j => a (skip row i) (skip col j).

(** [f 0], ..., [f (n - 1)] added from the left to [x]. *)
Fixpoint add_upto (x : float) (n : nat) (f : nat -> float) : float :=
  match n with
  | O => x
  | S n' => (add_upto x n' f + f n')%float
  end.

(** The expansion along the first row of an [n] by [n] matrix, as
    [determinant] of [matrix_ops.cpp] evaluates it. *)
Fixpoint cofactor_expansion (n : nat) (a : nat -> nat -> float) : float :=
  match n return float with
  | O => 0%float
  | S O => a 0 0
  | S (S O) => (a 0%nat 0%nat * a 1%nat 1%nat - a 0%nat 1%nat * a 1%nat 0%nat)%float
  | S n' =>
      add_upto 0%float n (fun j =>
        (matrix_ops.sign j * a 0%nat j * cofactor_expansion n' (minor_of a 0%nat j))%float)
  end.

(** The locals of [getMinor] when [minor] holds the elements [f]. *)
Definition minor_vars_of (r c : nat) (f : nat -> nat -> float) (mi mj : nat)
    : matrix_ops.minor_vars :=
  matrix_ops.MinorVars (matrix_ops.mkMatrix (table (r - 1) (c - 1) f) (r - 1) (c - 1))
    mi mj.

(** The number of indices below [i] other than [x]. *)
Definition others_below (x i : nat) : nat := if decide (i <= x) then i else i - 1.

(** A [Matrix] whose [data] has [rows] rows of [cols] elements. *)
Definition well_formed (m : matrix_ops.Matrix) : Prop :=
  shape (matrix_ops.data m) (matrix_ops.rows m) (matrix_ops.cols m).

(** ** The eliminations of [solve] and [determinant] on the elements *)

(** The vector whose element [k] is [g k]. *)
Definition row_of (n : nat) (g : nat -> float) : Vector := g <$> seq 0 n.

(** Element [k] of a vector; [0.0] where there is none. *)
Definition element (b : Vector) (k : nat) : float := default 0%float (b !! k).

(** [A | b]: the matrix [a] beside the right-hand side [b], in column [n]. *)
Definition beside_vector (n : nat) (a : Grid) (b : Vector) : nat -> nat -> float :=
  fun k c => if decide (c < n) then entry a k c else element b k.

(** Row [i] divided by [p] from column [i] on. *)
Definition scale_row_from (i : nat) (p : float) (A : nat -> nat -> float)
    : nat -> nat -> float :=
  fun k c => if decide (k = i /\ i <= c) then (A k c / p)%float else A k c.

(** From every other row [k], [A k i] times row [i] subtracted from column
    [i] on. *)
Definition eliminate_column_from (i : nat) (A : nat -> nat -> float)
    : nat -> nat -> float :=
  fun k c => if decide (k <> i /\ i <= c) then (A k c - A k i * A i c)%float
             else A k c.

(** Iteration [i] of the elimination of [solve], when its pivot passes the
    test. *)
Definition solve_pass (i : nat) (A : nat -> nat -> float) : nat -> nat -> float :=
  eliminate_column_from i (scale_row_from i (A i i) A).

(** Iteration [i] of the forward elimination of [determinant]: from every
    row [k] below row [i], [A k i / A i i] times row [i] subtracted from
    column [i] on. *)
Definition determinant_pass (i : nat) (A : nat -> nat -> float)
    : nat -> nat -> float :=
  fun k c => if decide (i < k /\ i <= c)
             then (A k c - A k i / A i i * A i c)%float
             else A k c.

(** [f 0], ..., [f (n - 1)] multiplied from the left to [x]. *)
Fixpoint mul_upto (x : float) (n : nat) (f : nat -> float) : float :=
  match n with
  | O => x
  | S n' => (mul_upto x n' f * f n')%float
  end.

(** The pivot of iteration [i] of an elimination that gets as far. *)
Definition pivot_of (pass : nat -> (nat -> nat -> float) -> nat -> nat -> float)
    (A : nat -> nat -> float) (i : nat) : float :=
  match passes pass i A with
  | Some A' => A' i i
  | None => 0%float
  end.

(** The variables of [solve] that hold the elements [A]: [result] is
    column [n]. *)
Definition solve_vars_of (a0 : Grid) (b0 : Vector) (n : nat) (A : nat -> nat -> float)
    : matrix.frame (Grid * Vector) Vector :=
  matrix.Frame (a0, b0) (table n n A) (row_of n (fun k => A k n)).

(** The variables of [determinant] that hold the elements [A] and the
    product [det]. *)
Definition determinant_vars_of (a0 : Grid) (n : nat) (A : nat -> nat -> float)
    (det : float) : matrix.frame Grid float :=
  matrix.Frame a0 (table n n A) det.

(** Column [j] of the identity matrix of size [n]. *)
Definition unit_vector (n j : nat) : Vector :=
  row_of n (fun k => if decide (k = j) then 1%float else 0%float).

(** Column [j] of a matrix of [n] rows. *)
Definition column (n : nat) (a : Grid) (j : nat) : Vector :=
  row_of n (fun k => entry a k j).

(** The elements of [solve] and of [inverse] in iteration [i]: equal from
    column [i] on, and [result] of [solve] equal to column [j] of [result] of
    [inverse]. *)
Definition solve_follows (n : nat) (i : nat) (A B : nat -> nat -> float) : Prop :=
  forall k c, k < n -> i <= c < n -> A k c = B k c.

Definition solve_follows_column (n j : nat) (i : nat) (A B : nat -> nat -> float)
    : Prop :=
  solve_follows n i A B /\ forall k, k < n -> A k (j + n) = B k n.

(** The cross product of two vectors of three elements. *)
Definition cross_of (a b : Vector) : Vector :=
  [(element a 1 * element b 2 - element a 2 * element b 1)%float;
   (element a 2 * element b 0 - element a 0 * element b 2)%float;
   (element a 0 * element b 1 - element a 1 * element b 0)%float].

(** * Properties *)

(** ** Statements *)

Section StatementFacts.
Context {S R : Type}.

Lemma bind_normal {X Y} (m : M S R X) (k : X -> M S R Y) s x s' :
  m s = Normal x s' -> bind m k s = k x s'.
Proof. unfold bind. now intros ->. Qed.

Lemma bind_Normal_inv {X Y} (m : M S R X) (k : X -> M S R Y) s y s'' :
  bind m k s = Normal y s'' ->
  exists x s', m s = Normal x s' /\ k x s' = Normal y s''.
Proof. unfold bind. destruct (m s); try discriminate. eauto. Qed.

Lemma bind_assoc {X Y Z} (m : M S R X) (f : X -> M S R Y) (g : Y -> M S R Z) s :
  bind (bind m f) g s = bind m (fun x => bind (f x) g) s.
Proof. unfold bind. now destruct (m s). Qed.

Lemma bind_ret {X Y} (x : X) (k : X -> M S R Y) s : bind (ret x) k s = k x s.
Proof. reflexivity. Qed.

Lemma bind_put {Y} (x : S) (k : unit -> M S R Y) s : bind (put x) k s = k tt x.
Proof. reflexivity. Qed.

Lemma bind_gets {X Y} (f : S -> X) (k : X -> M S R Y) s :
  bind (gets f) k s = k (f s) s.
Proof. reflexivity. Qed.

Lemma for_from_app lo c1 c2 (body : nat -> M S R unit) s :
  for_from lo (c1 + c2) body s
  = bind (for_from lo c1 body) (fun _ => for_from (lo + c1) c2 body) s.
Proof.
  revert lo s. induction c1 as [|c1 IH]; intros lo s; simpl.
  - unfold bind, ret. now rewrite Nat.add_0_r.
  - unfold bind. destruct (body lo s) as [[] s'| | |]; try reflexivity.
    rewrite IH. unfold bind.
    now replace (lo + Datatypes.S c1) with (Datatypes.S lo + c1) by lia.
Qed.

Lemma for_split lo i hi (body : nat -> M S R unit) s :
  lo <= i <= hi ->
  for_ lo hi body s = bind (for_ lo i body) (fun _ => for_ i hi body) s.
Proof.
  intros Hi. unfold for_.
  replace (hi - lo) with ((i - lo) + (hi - i)) by lia.
  rewrite for_from_app. now replace (lo + (i - lo)) with i by lia.
Qed.

Lemma for_first lo hi (body : nat -> M S R unit) s :
  lo < hi ->
  for_ lo hi body s = bind (body lo) (fun _ => for_ (Datatypes.S lo) hi body) s.
Proof.
  intros Hlt. unfold for_.
  replace (hi - lo) with (Datatypes.S (hi - Datatypes.S lo)) by lia. reflexivity.
Qed.

(** A loop that has completed [i] iterations goes on with iteration [i]. *)
Lemma for_resume i n (body : nat -> M S R unit) s s' :
  i < n ->
  for_ 0 i body s = Normal tt s' ->
  for_ 0 n body s = bind (body i) (fun _ => for_ (Datatypes.S i) n body) s'.
Proof.
  intros Hlt Hrun. rewrite (for_split 0 i n) by lia.
  rewrite (bind_normal _ _ _ _ _ Hrun). now apply for_first.
Qed.

(** A loop whose iteration [i] takes the state [F i] to [F (i + 1)]. *)
Lemma for_run (F : nat -> S) lo hi (body : nat -> M S R unit) :
  lo <= hi ->
  (forall i, lo <= i < hi -> body i (F i) = Normal tt (F (Datatypes.S i))) ->
  for_ lo hi body (F lo) = Normal tt (F hi).
Proof.
  intros Hle Hbody. unfold for_.
  remember (hi - lo) as c eqn:Hc. revert lo Hle Hbody Hc.
  induction c as [|c IH]; intros lo Hle Hbody Hc; simpl.
  - unfold ret. now replace hi with lo by lia.
  - rewrite (bind_normal _ _ _ _ _ (Hbody lo ltac:(lia))).
    apply IH; [lia| |lia]. intros i Hi. apply Hbody. lia.
Qed.

Lemma for_ext lo hi (body body' : nat -> M S R unit) s :
  (forall i s', lo <= i < hi -> body i s' = body' i s') ->
  for_ lo hi body s = for_ lo hi body' s.
Proof.
  intros Hbody. unfold for_.
  remember (hi - lo) as c eqn:Hc. revert lo s Hbody Hc.
  induction c as [|c IH]; intros lo s Hbody Hc; simpl; [done|].
  unfold bind. rewrite Hbody by lia.
  destruct (body' lo s); try done. apply IH; [|lia].
  intros i s' Hi. apply Hbody. lia.
Qed.

End StatementFacts.

Lemma at_lookup {S R X} (v : list X) i x (s : S) :
  v !! i = Some x -> at_ (R:=R) v i s = Normal x s.
Proof. unfold at_. now intros ->. Qed.

Lemma nat_neq_false x y : x = y -> nat_neq x y = false.
Proof. intros ->. unfold nat_neq. now rewrite Nat.eqb_refl. Qed.

Lemma nat_neq_true x y : x <> y -> nat_neq x y = true.
Proof. intros Hne. unfold nat_neq. now apply negb_true_iff, Nat.eqb_neq. Qed.

(** ** Invariants of statements *)

Section Hoare.
Context {S R : Type} (U : Prop).
Implicit Types (P T : S -> Prop) (E : R -> S -> Prop).

Lemma hoare_ret {X} P (x : X) (Q : X -> S -> Prop) E T :
  (forall s, P s -> Q x s) -> hoare U P (ret x) Q E T.
Proof. intros HQ s Hs. now apply HQ. Qed.

Lemma hoare_gets {X} P (f : S -> X) (Q : X -> S -> Prop) E T :
  (forall s, P s -> Q (f s) s) -> hoare U P (gets f) Q E T.
Proof. intros HQ s Hs. now apply HQ. Qed.

Lemma hoare_modify P (f : S -> S) (Q : unit -> S -> Prop) E T :
  (forall s, P s -> Q tt (f s)) -> hoare U P (modify f) Q E T.
Proof. intros HQ s Hs. now apply HQ. Qed.

Lemma hoare_throw {X} P e (Q : X -> S -> Prop) E T :
  (forall s, P s -> T s) -> hoare U P (throw e) Q E T.
Proof. intros HT s Hs. now apply HT. Qed.

Lemma hoare_return {X} P (v : R) (Q : X -> S -> Prop) E T :
  (forall s, P s -> E v s) -> hoare U P (return_ v) Q E T.
Proof. intros HE s Hs. now apply HE. Qed.

Lemma hoare_bind {X Y} P (m : M S R X) (k : X -> M S R Y)
    (Q : X -> S -> Prop) (Q' : Y -> S -> Prop) E T :
  hoare U P m Q E T -> (forall x, hoare U (Q x) (k x) Q' E T) ->
  hoare U P (bind m k) Q' E T.
Proof.
  intros Hm Hk s Hs. specialize (Hm s Hs). unfold bind.
  destruct (m s) as [x s'| | |]; try done. now apply Hk.
Qed.

Lemma hoare_for (I : S -> Prop) lo hi (body : nat -> M S R unit) E T :
  (forall i, lo <= i < hi -> hoare U I (body i) (fun _ => I) E T) ->
  hoare U I (for_ lo hi body) (fun _ => I) E T.
Proof.
  intros Hbody. unfold for_.
  remember (hi - lo) as c eqn:Hc. revert lo Hbody Hc.
  induction c as [|c IH]; intros lo Hbody Hc; simpl.
  - now apply hoare_ret.
  - eapply hoare_bind; [apply Hbody; lia|]. intros u. cbv beta.
    apply IH; [|lia]. intros i Hi. apply Hbody. lia.
Qed.

End Hoare.

(** ** Tables *)

Lemma length_table r c f : length (table r c f) = r.
Proof. unfold table. now rewrite length_fmap, length_seq. Qed.

Lemma lookup_table r c f i :
  i < r -> table r c f !! i = Some (f i <$> seq 0 c).
Proof.
  intros Hi. unfold table. rewrite list_lookup_fmap, lookup_seq_lt by done. done.
Qed.

Lemma lookup_table_ge r c f i : r <= i -> table r c f !! i = None.
Proof. intros Hi. apply lookup_ge_None. now rewrite length_table. Qed.

Lemma lookup_row c (g : nat -> float) j : j < c -> (g <$> seq 0 c) !! j = Some (g j).
Proof. intros Hj. rewrite list_lookup_fmap, lookup_seq_lt by done. done. Qed.

Lemma table_ext r c f g :
  (forall i j, i < r -> j < c -> f i j = g i j) -> table r c f = table r c g.
Proof.
  intros Hfg. unfold table. apply list_eq. intros i.
  rewrite !list_lookup_fmap. destruct (seq 0 r !! i) as [i'|] eqn:Hi; [|done]. simpl.
  apply lookup_seq in Hi as [-> Hi]. f_equal.
  apply list_eq. intros j. rewrite !list_lookup_fmap.
  destruct (seq 0 c !! j) as [j'|] eqn:Hj; [|done]. simpl.
  apply lookup_seq in Hj as [-> Hj]. f_equal. auto.
Qed.

Lemma shape_table r c f : shape (table r c f) r c.
Proof.
  split; [apply length_table|]. unfold table. apply Forall_fmap, Forall_forall.
  intros i _. simpl. now rewrite length_fmap, length_seq.
Qed.

Lemma entry_table r c f i j : i < r -> j < c -> entry (table r c f) i j = f i j.
Proof.
  intros Hi Hj. unfold entry. rewrite lookup_table by done. simpl.
  now rewrite lookup_row.
Qed.

Lemma shape_lookup a r c i :
  shape a r c -> i < r -> exists row, a !! i = Some row /\ length row = c.
Proof.
  intros [Hlen Hrows] Hi. destruct (lookup_lt_is_Some_2 a i) as [row Hrow]; [lia|].
  exists row. split; [done|]. eapply Forall_lookup_1 in Hrows; eauto.
Qed.

Lemma shape_entry a r c i j :
  shape a r c -> i < r -> j < c ->
  exists row, a !! i = Some row /\ row !! j = Some (entry a i j).
Proof.
  intros Ha Hi Hj. destruct (shape_lookup a r c i Ha Hi) as (row & Hrow & Hlen).
  exists row. split; [done|]. unfold entry. rewrite Hrow. simpl.
  destruct (lookup_lt_is_Some_2 row j) as [x Hx]; [lia|]. now rewrite Hx.
Qed.

(** A rectangular matrix is the table of its entries. *)
Lemma table_entry a r c : shape a r c -> a = table r c (entry a).
Proof.
  intros Ha. apply list_eq. intros i. destruct (decide (i < r)) as [Hi|Hi].
  - rewrite lookup_table by done.
    destruct (shape_lookup a r c i Ha Hi) as (row & Hrow & Hlen). rewrite Hrow. f_equal.
    apply list_eq. intros j. destruct (decide (j < c)) as [Hj|Hj].
    + rewrite lookup_row by done.
      destruct (shape_entry a r c i j Ha Hi Hj) as (row' & Hrow' & Hx). congruence.
    + rewrite !lookup_ge_None_2; [done| |]; rewrite ?length_fmap, ?length_seq; lia.
  - destruct Ha as [Hlen _]. rewrite lookup_table_ge by lia. apply lookup_ge_None. lia.
Qed.

Lemma replicate_table r c x : replicate r (replicate c x) = table r c (fun _ _ => x).
Proof.
  apply list_eq. intros i. destruct (decide (i < r)) as [Hi|Hi].
  - rewrite lookup_table, lookup_replicate_2 by done. f_equal.
    apply list_eq. intros j. destruct (decide (j < c)) as [Hj|Hj].
    + now rewrite lookup_row, lookup_replicate_2.
    + rewrite !lookup_ge_None_2; [done| |]; rewrite ?length_fmap, ?length_seq, ?length_replicate; lia.
  - rewrite lookup_table_ge by lia. apply lookup_ge_None. rewrite length_replicate. lia.
Qed.

(** *** Reads and writes of a table *)

Section TableAccess.
Context {S R : Type}.

Lemma at2_entry (a : Grid) r c i j (s : S) :
  shape a r c -> i < r -> j < c -> at2 (R:=R) a i j s = Normal (entry a i j) s.
Proof.
  intros Ha Hi Hj. destruct (shape_entry a r c i j Ha Hi Hj) as (row & Hrow & Hx).
  unfold at2, at_, bind. rewrite Hrow. unfold ret. now rewrite Hx.
Qed.

Lemma load2_table r c f i j :
  i < r -> j < c -> load2 (R:=R) i j (table r c f) = Normal (f i j) (table r c f).
Proof.
  intros Hi Hj. unfold load2. rewrite lookup_table by done. now rewrite lookup_row.
Qed.

Lemma store2_table r c f i j x :
  i < r -> j < c ->
  store2 (R:=R) i j x (table r c f)
  = Normal tt (table r c (fun i' j' =>
                 if decide (i' = i /\ j' = j) then x else f i' j')).
Proof.
  intros Hi Hj. unfold store2. rewrite lookup_table by done.
  rewrite decide_True by (now rewrite length_fmap, length_seq). f_equal.
  apply list_eq. intros i'. destruct (decide (i' < r)) as [Hi'|Hi'].
  - rewrite lookup_table by done. destruct (decide (i' = i)) as [->|Hne].
    + rewrite list_lookup_insert_eq by (now rewrite length_table). f_equal.
      apply list_eq. intros j'. destruct (decide (j' < c)) as [Hj'|Hj'].
      * rewrite lookup_row by done. destruct (decide (j' = j)) as [->|Hne].
        -- rewrite list_lookup_insert_eq by (now rewrite length_fmap, length_seq).
           now rewrite decide_True.
        -- rewrite list_lookup_insert_ne, lookup_row by done.
           rewrite decide_False; [done|]. intros [_ ?]. done.
      * rewrite !lookup_ge_None_2; [done| |];
          rewrite ?length_insert, ?length_fmap, ?length_seq; lia.
    + rewrite list_lookup_insert_ne, lookup_table by done. f_equal.
      apply list_eq. intros j'. rewrite !list_lookup_fmap.
      destruct (seq 0 c !! j') as [j''|]; [|done]. simpl.
      rewrite decide_False; [done|]. intros [? _]. done.
  - rewrite lookup_table_ge by lia. apply lookup_ge_None.
    rewrite length_insert, length_table. lia.
Qed.

Lemma update2_table r c f i j g :
  i < r -> j < c ->
  update2 (R:=R) i j g (table r c f)
  = Normal tt (table r c (fun i' j' =>
                 if decide (i' = i /\ j' = j) then g (f i j) else f i' j')).
Proof.
  intros Hi Hj. unfold update2.
  rewrite (bind_normal _ _ _ _ _ (load2_table r c f i j Hi Hj)).
  now apply store2_table.
Qed.
End TableAccess.

Lemma sum_upto_ext f g n :
  (forall k, k < n -> f k = g k) -> sum_upto f n = sum_upto g n.
Proof.
  induction n as [|n IH]; intros Hfg; simpl; [done|].
  rewrite IH, Hfg by (intros; auto with lia). done.
Qed.

(** ** Loops over the positions of a matrix *)

Lemma visited_origin i' j' : visited 0 0 i' j' = false.
Proof. unfold visited. destruct i'; simpl; [|done]. done. Qed.

Lemma visited_self i j : visited i j i j = false.
Proof. unfold visited. now rewrite Nat.ltb_irrefl, Nat.eqb_refl, Nat.ltb_irrefl. Qed.

Lemma visited_row_end i c i' j' :
  j' < c -> visited i c i' j' = visited (S i) 0 i' j'.
Proof.
  intros Hj. unfold visited.
  destruct (Nat.ltb_spec i' i), (Nat.eqb_spec i' i), (Nat.ltb_spec j' c),
    (Nat.ltb_spec i' (S i)), (Nat.eqb_spec i' (S i)), (Nat.ltb_spec j' 0);
    simpl; try done; lia.
Qed.

Lemma visited_all r i' j' : i' < r -> visited r 0 i' j' = true.
Proof.
  intros Hi. unfold visited. destruct (Nat.ltb_spec i' r); [done|lia].
Qed.

Lemma visited_next i j i' j' :
  visited i (S j) i' j' = if decide (i' = i /\ j' = j) then true else visited i j i' j'.
Proof.
  unfold visited. case_decide as H.
  - destruct H as [-> ->]. rewrite Nat.eqb_refl.
    destruct (Nat.ltb_spec j (S j)); [|lia]. now rewrite orb_true_r.
  - destruct (Nat.ltb_spec i' i), (Nat.eqb_spec i' i), (Nat.ltb_spec j' j),
      (Nat.ltb_spec j' (S j)); simpl; try done; lia.
Qed.

Section Positions.
Context {S R : Type}.
Context (layout : (nat -> nat -> float) -> S) (r c : nat).
Context (layout_ext : forall f g,
            (forall i j, i < r -> j < c -> f i j = g i j) -> layout f = layout g).

(** Two nested loops whose body turns the element at its position from
    [before] into [after] turn the whole matrix. *)
Lemma positions_loop after before (body : nat -> nat -> M S R unit) :
  (forall i j, i < r -> j < c ->
     body i j (layout (stage i j after before))
     = Normal tt (layout (stage i (Datatypes.S j) after before))) ->
  for_ 0 r (fun i => for_ 0 c (body i)) (layout before)
  = Normal tt (layout after).
Proof using layout_ext.
  intros Hbody.
  replace (layout before) with (layout (stage 0 0 after before)).
  2:{ apply layout_ext. intros i j _ _. unfold stage. now rewrite visited_origin. }
  replace (layout after) with (layout (stage r 0 after before)).
  2:{ apply layout_ext. intros i j Hi _. unfold stage. now rewrite visited_all. }
  apply (for_run (fun i => layout (stage i 0 after before))); [lia|].
  intros i Hi.
  replace (layout (stage (Datatypes.S i) 0 after before))
    with (layout (stage i c after before)).
  2:{ apply layout_ext. intros i' j' _ Hj. unfold stage. now rewrite visited_row_end. }
  apply (for_run (fun j => layout (stage i j after before))); [lia|].
  intros j Hj. apply Hbody; lia.
Qed.
End Positions.

(** ** Pivots below the tolerance *)

Ltac setup_value :=
  repeat match goal with
         | |- context [match ?m ?s with _ => _ end] =>
             lazymatch m with
             | matrix.on_out _ => destruct (m s); try discriminate
             | matrix.on_temp _ => destruct (m s); try discriminate
             | for_ _ _ _ => destruct (m s); try discriminate
             | at_ _ _ => destruct (m s); try discriminate
             end
         | |- context [if ?b then _ else _] => destruct b; try discriminate
         end.

(** A setup that completes gives [n] the number of rows. *)
Lemma inverse_setup_value s n s' :
  matrix.inverse_setup s = Normal n s' -> n = length (matrix.args s).
Proof.
  unfold matrix.inverse_setup, bind, gets, orelse, ret, throw.
  setup_value. now intros [= <- _].
Qed.

Lemma determinant_setup_value s n s' :
  matrix.determinant_setup s = Normal n s' -> n = length (matrix.args s).
Proof.
  unfold matrix.determinant_setup, bind, gets, orelse, ret, throw.
  setup_value. now intros [= <- _].
Qed.

Lemma solve_setup_value s n s' :
  matrix.solve_setup s = Normal n s' -> n = length (fst (matrix.args s)).
Proof.
  unfold matrix.solve_setup, bind, gets, orelse, ret, throw.
  setup_value. now intros [= <- _].
Qed.

(** From a pivot met in iteration [i]: the setup and the first [i]
    iterations completed, and iteration [i] read that pivot. *)
Ltac pivot_met Hp setup_value :=
  let Hi := fresh "Hi" in
  let E := fresh "E" in
  let Hsetup := fresh "Hsetup" in
  let Hloop := fresh "Hloop" in
  let Hload := fresh "Hload" in
  let Hn := fresh "Hn" in
  match type of Hp with
  | (if decide (?i < _) then _ else _) = _ =>
      destruct (decide (i < _)) as [Hi|]; [|discriminate];
      match type of Hp with
      | match ?r with _ => _ end = _ =>
          destruct r as [? ?| | |] eqn:E; try discriminate
      end;
      injection Hp as ->;
      apply bind_Normal_inv in E as (? & ? & Hsetup & E);
      apply bind_Normal_inv in E as ([] & ? & Hloop & Hload);
      pose proof (setup_value _ _ _ Hsetup) as Hn; simpl in Hn; subst;
      unfold call; rewrite (bind_normal _ _ _ _ _ Hsetup);
      unfold bind at 1; rewrite (for_resume i _ _ _ _ Hi Hloop);
      unfold bind at 1
  end.

Lemma inverse_small_pivot a :
  meets_small_pivot (matrix.inverse_pivot a) ->
  matrix.inverse a = Throw (runtime_error "Matrix is singular").
Proof.
  intros (i & p & Hp & Hsmall).
  unfold matrix.inverse_pivot in Hp. unfold matrix.inverse, matrix.inverse_body.
  pivot_met Hp inverse_setup_value.
  unfold matrix.inverse_step at 1. unfold bind at 1. now rewrite Hload, Hsmall.
Qed.

Lemma determinant_small_pivot a :
  meets_small_pivot (matrix.determinant_pivot a) ->
  matrix.determinant a = Ok 0%float.
Proof.
  intros (i & p & Hp & Hsmall).
  unfold matrix.determinant_pivot in Hp.
  unfold matrix.determinant, matrix.determinant_body.
  pivot_met Hp determinant_setup_value.
  unfold matrix.determinant_step at 1. unfold bind at 1. now rewrite Hload, Hsmall.
Qed.

Lemma solve_small_pivot a b :
  meets_small_pivot (matrix.solve_pivot a b) ->
  matrix.solve a b = Throw (runtime_error "Matrix is singular").
Proof.
  intros (i & p & Hp & Hsmall).
  unfold matrix.solve_pivot in Hp. unfold matrix.solve, matrix.solve_body.
  pivot_met Hp solve_setup_value.
  unfold matrix.solve_step at 1. unfold bind at 1. now rewrite Hload, Hsmall.
Qed.

Section DoubleArithmetic.
#[local] Open Scope float_scope.

(** C1, as the code has it.  Each routine tests the pivots of its own working
    copy: when the forward elimination of [determinant] meets a pivot of
    magnitude below [1e-10] the function returns [0.0] and does not fail;
    when the elimination of [inverse], or of [solve], meets one, that
    function throws [runtime_error("Matrix is singular")].  On the singular
    matrix [[1,2],[2,4]] each of the three meets the pivot [0.0] in
    iteration 1: [determinant] returns [0.0], [inverse] throws, and [solve]
    throws for every right-hand side of two elements. *)
Theorem own_pivot_tests (a : Grid) (b : Vector) :
  (meets_small_pivot (matrix.determinant_pivot a) -> matrix.determinant a = Ok 0)
  /\ (meets_small_pivot (matrix.inverse_pivot a) ->
      matrix.inverse a = Throw (runtime_error "Matrix is singular"))
  /\ (meets_small_pivot (matrix.solve_pivot a b) ->
      matrix.solve a b = Throw (runtime_error "Matrix is singular"))
  /\ (matrix.determinant_pivot [[1; 2]; [2; 4]] 1 = Some 0
      /\ matrix.inverse_pivot [[1; 2]; [2; 4]] 1 = Some 0
      /\ matrix.determinant [[1; 2]; [2; 4]] = Ok 0
      /\ matrix.inverse [[1; 2]; [2; 4]] = Throw (runtime_error "Matrix is singular")
      /\ forall x y,
           matrix.solve_pivot [[1; 2]; [2; 4]] [x; y] 1 = Some 0
           /\ matrix.solve [[1; 2]; [2; 4]] [x; y]
              = Throw (runtime_error "Matrix is singular")).
Proof.
  split; [apply determinant_small_pivot|].
  split; [apply inverse_small_pivot|].
  split; [apply solve_small_pivot|].
  repeat split; intros; vm_compute; reflexivity.
Qed.

(** The three parts at [[1,2],[2,4]], each from the pivot its routine
    meets. *)
Lemma own_pivot_tests_witness :
  matrix.determinant [[1; 2]; [2; 4]] = Ok 0
  /\ matrix.inverse [[1; 2]; [2; 4]] = Throw (runtime_error "Matrix is singular")
  /\ matrix.solve [[1; 2]; [2; 4]] [1; 1] = Throw (runtime_error "Matrix is singular").
Proof.
  destruct (own_pivot_tests [[1; 2]; [2; 4]] [1; 1]) as (Hdet & Hinv & Hsolve & _).
  split; [apply Hdet|split; [apply Hinv|apply Hsolve]];
    eexists 1%nat, _; split; vm_compute; reflexivity.
Defined.

(** The three eliminations round differently, so a pivot below the tolerance
    in one need not be below it in another.  [determinant] subtracts
    [(temp[k][i] / pivot) * temp[i][j]]; [inverse] and [solve] first divide
    row [i] by the pivot and subtract [temp[k][i] * (temp[i][j] / pivot)].

    On [[3,1],[50,d]] with [d = 16.666666666766666], [determinant] reads the
    second pivot [d - (50/3)*1 = d - 16.666666666666668], below [1e-10], and
    returns [0.0]; [inverse] and [solve] read
    [d - 50*(1/3) = d - 16.666666666666664], not below [1e-10], and return.
    On [[3,1],[5,1.6666666665666667]] it is [inverse] and [solve] that read
    a second pivot below [1e-10] and throw, while [determinant] returns a
    nonzero value. *)
Lemma pivot_tests_disagree :
  (16.666666666766666 - 50 / 3 * 1 = 9.99982319171977e-11
   /\ 16.666666666766666 - 50 * (1 / 3) = 1.000017846308765e-10
   /\ matrix.determinant_pivot [[3; 1]; [50; 16.666666666766666]] 1
      = Some 9.99982319171977e-11
   /\ below_tolerance 9.99982319171977e-11 = true
   /\ matrix.inverse_pivot [[3; 1]; [50; 16.666666666766666]] 1
      = Some 1.000017846308765e-10
   /\ below_tolerance 1.000017846308765e-10 = false
   /\ matrix.determinant [[3; 1]; [50; 16.666666666766666]] = Ok 0
   /\ matrix.inverse [[3; 1]; [50; 16.666666666766666]]
      = Ok [[55554564111.984436; -3333273846.6990666];
            [-166663692334.95331; 9999821540.0972004]]
   /\ matrix.solve [[3; 1]; [50; 16.666666666766666]] [1; 1]
      = Ok [52221290265.28537; -156663870794.85611])
  /\ (matrix.inverse_pivot [[3; 1]; [5; 1.6666666665666667]] 1
      = Some (-9.999978622943217e-11)
      /\ below_tolerance (-9.999978622943217e-11) = true
      /\ matrix.determinant_pivot [[3; 1]; [5; 1.6666666665666667]] 1
         = Some (-1.000000082740371e-10)
      /\ below_tolerance (-1.000000082740371e-10) = false
      /\ matrix.inverse [[3; 1]; [5; 1.6666666665666667]]
         = Throw (runtime_error "Matrix is singular")
      /\ matrix.solve [[3; 1]; [5; 1.6666666665666667]] [1; 1]
         = Throw (runtime_error "Matrix is singular")
      /\ matrix.determinant [[3; 1]; [5; 1.6666666665666667]]
         = Ok (-3.000000248221113e-10)).
Proof. repeat split; vm_compute; reflexivity. Qed.

(** ** Fixed pivots *)

(** C4.  No row is interchanged: on [[0,1],[1,0]] the first pivot read is
    [a[0][0] = 0.0], so [inverse] and [solve] (for every right-hand side of
    two elements) throw the singular-matrix error and [determinant] returns
    [0.0], although [a[1][0] = 1] lies below the pivot and the matrix is not
    singular (its cofactor determinant is [-1]). *)
Theorem no_row_interchange :
  matrix.inverse [[0; 1]; [1; 0]] = Throw (runtime_error "Matrix is singular")
  /\ (forall x y,
        matrix.solve [[0; 1]; [1; 0]] [x; y]
        = Throw (runtime_error "Matrix is singular"))
  /\ matrix.determinant [[0; 1]; [1; 0]] = Ok 0
  /\ matrix.inverse_pivot [[0; 1]; [1; 0]] 0 = Some 0
  /\ matrix.determinant_pivot [[0; 1]; [1; 0]] 0 = Some 0
  /\ (forall x y, matrix.solve_pivot [[0; 1]; [1; 0]] [x; y] 0 = Some 0)
  /\ entry [[0; 1]; [1; 0]] 1 0 = 1
  /\ matrix_ops.determinant (matrix_ops.mkMatrix [[0; 1]; [1; 0]] 2 2) = Ok (-1).
Proof. repeat split; intros; vm_compute; reflexivity. Qed.

(** ** The worked example of the design document *)

(** C3.  For [A = [[1,2],[3,4]]] and [B = [[5,6],[7,8]]], [matrix_multiply]
    returns [[19,22],[43,50]], the elimination determinant of [A] is [-2] and
    the inverse of [A] is [[-2,1],[1.5,-0.5]], bit for bit; the class of
    [matrix_ops.cpp] gives the same three values. *)
Theorem worked_example :
  matrix.matrix_multiply [[1; 2]; [3; 4]] [[5; 6]; [7; 8]]
    = Ok [[19; 22]; [43; 50]]
  /\ matrix.determinant [[1; 2]; [3; 4]] = Ok (-2)
  /\ matrix.inverse [[1; 2]; [3; 4]] = Ok [[-2; 1]; [1.5; -0.5]]
  /\ matrix_ops.multiply (matrix_ops.mkMatrix [[1; 2]; [3; 4]] 2 2)
                         (matrix_ops.mkMatrix [[5; 6]; [7; 8]] 2 2)
     = Ok (matrix_ops.mkMatrix [[19; 22]; [43; 50]] 2 2)
  /\ matrix_ops.determinant (matrix_ops.mkMatrix [[1; 2]; [3; 4]] 2 2) = Ok (-2)
  /\ matrix_ops.inverse (matrix_ops.mkMatrix [[1; 2]; [3; 4]] 2 2)
     = Ok (matrix_ops.mkMatrix [[-2; 1]; [1.5; -0.5]] 2 2).
Proof. repeat split; vm_compute; reflexivity. Qed.

(** ** The two determinants *)

(** The elimination determinant and the cofactor determinant differ: on a
    matrix that needs a row interchange, and, by rounding, on one whose
    second pivot is near the tolerance. *)
Lemma determinants_differ :
  matrix.determinant [[0; 1]; [1; 0]] = Ok 0
  /\ matrix_ops.determinant (matrix_ops.mkMatrix [[0; 1]; [1; 0]] 2 2) = Ok (-1)
  /\ matrix.determinant [[3; 1]; [50; 16.666666666766666]] = Ok 0
  /\ matrix_ops.determinant
       (matrix_ops.mkMatrix [[3; 1]; [50; 16.666666666766666]] 2 2)
     = Ok 2.999982484652719e-10.
Proof. repeat split; vm_compute; reflexivity. Qed.

(** C2, as the code has it.  The two determinants are different algorithms.
    On a 1 by 1 matrix [[a]] the cofactor determinant is [a] and the
    elimination determinant is [0.0] when [|a| < 1e-10] and [1.0 * a]
    otherwise.  On a 2 by 2 matrix [[a,b],[c,d]] the cofactor determinant is
    [a*d - b*c], with no tolerance test; the elimination determinant is
    [0.0] when [|a| < 1e-10], else [0.0] when the second pivot
    [d - (c/a)*b] is below the tolerance, else [(1.0 * a) * (d - (c/a)*b)].
    On [[1,2],[3,4]] both are [-2]. *)
Theorem determinants_of_small_matrices (a b c d : float) :
  matrix_ops.determinant (matrix_ops.mkMatrix [[a]] 1 1) = Ok a
  /\ matrix.determinant [[a]] = Ok (if below_tolerance a then 0 else 1 * a)
  /\ matrix_ops.determinant (matrix_ops.mkMatrix [[a; b]; [c; d]] 2 2)
     = Ok (a * d - b * c)
  /\ matrix.determinant [[a; b]; [c; d]]
     = Ok (if below_tolerance a then 0
           else if below_tolerance (d - c / a * b) then 0
                else 1 * a * (d - c / a * b))
  /\ matrix_ops.determinant (matrix_ops.mkMatrix [[1; 2]; [3; 4]] 2 2) = Ok (-2)
  /\ matrix.determinant [[1; 2]; [3; 4]] = Ok (-2).
Proof.
  repeat split.
  - destruct (below_tolerance a) eqn:Ha; vm_compute in *; now rewrite Ha.
  - destruct (below_tolerance a) eqn:Ha;
      [|destruct (below_tolerance (d - c / a * b)) eqn:Hp];
      vm_compute in *; rewrite ?Ha, ?Hp; reflexivity.
Qed.

(** ** The determinant test of [Matrix::inverse] *)

(** C10.  [Matrix::inverse] throws
    [invalid_argument("Matrix is singular (determinant = 0)")] whenever the
    cofactor determinant has magnitude below [1e-10], before [augmented] is
    declared.  The diagonal matrix [[1e-6,0],[0,1e-6]] has determinant
    [1e-12]; both pivots its Gauss-Jordan elimination would read are
    [1e-6], not below the tolerance, and the elimination alone returns the
    inverse; [Matrix::inverse] fails on it all the same. *)
Theorem determinant_gate :
  (forall this d,
     matrix_ops.rows this = matrix_ops.cols this ->
     matrix_ops.determinant this = Ok d ->
     below_tolerance d = true ->
     matrix_ops.inverse this
     = Throw (invalid_argument "Matrix is singular (determinant = 0)"))
  /\ matrix_ops.Matrix_from [[1e-6; 0]; [0; 1e-6]]
     = Ok (matrix_ops.mkMatrix [[1e-6; 0]; [0; 1e-6]] 2 2)
  /\ matrix_ops.determinant (matrix_ops.mkMatrix [[1e-6; 0]; [0; 1e-6]] 2 2)
     = Ok 1e-12
  /\ matrix_ops.gauss_jordan_pivot
       (matrix_ops.mkMatrix [[1e-6; 0]; [0; 1e-6]] 2 2) 0 = Some 1e-6
  /\ matrix_ops.gauss_jordan_pivot
       (matrix_ops.mkMatrix [[1e-6; 0]; [0; 1e-6]] 2 2) 1 = Some 1e-6
  /\ below_tolerance 1e-6 = false
  /\ call (matrix_ops.gauss_jordan (matrix_ops.mkMatrix [[1e-6; 0]; [0; 1e-6]] 2 2))
          matrix_ops.inverse_entry
     = Ok (matrix_ops.mkMatrix [[1000000; 0]; [0; 1000000]] 2 2)
  /\ matrix_ops.inverse (matrix_ops.mkMatrix [[1e-6; 0]; [0; 1e-6]] 2 2)
     = Throw (invalid_argument "Matrix is singular (determinant = 0)").
Proof.
  split.
  - intros this d Hsquare Hdet Hsmall.
    unfold matrix_ops.inverse, call, matrix_ops.inverse_body.
    rewrite nat_neq_false by done. unfold bind. rewrite Hdet. simpl.
    now rewrite Hsmall.
  - repeat split; vm_compute; reflexivity.
Qed.

Lemma determinant_gate_witness :
  matrix_ops.inverse (matrix_ops.mkMatrix [[1e-6; 0]; [0; 1e-6]] 2 2)
  = Throw (invalid_argument "Matrix is singular (determinant = 0)").
Proof.
  apply (proj1 determinant_gate _ 1e-12); vm_compute; reflexivity.
Defined.

End DoubleArithmetic.

(** ** Construction of a [Matrix] *)

(** The constructor accepts rows of different lengths, and an empty first
    row, and makes a [Matrix] that breaks the invariant. *)
Lemma jagged_rows_accepted :
  matrix_ops.Matrix_from [[1; 2]; [3]]%float
  = Ok (matrix_ops.mkMatrix [[1; 2]; [3]]%float 2 2)
  /\ ~ matrix_ops.rectangular (matrix_ops.mkMatrix [[1; 2]; [3]]%float 2 2)
  /\ matrix_ops.Matrix_from [[]] = Ok (matrix_ops.mkMatrix [[]] 1 0)
  /\ ~ matrix_ops.rectangular (matrix_ops.mkMatrix [[]] 1 0).
Proof.
  repeat split; try reflexivity.
  - intros (_ & _ & _ & Hrows). simpl in Hrows.
    apply Forall_cons in Hrows as [_ Hrows]. apply Forall_cons in Hrows as [H _].
    discriminate H.
  - intros (_ & Hcols & _). simpl in Hcols. lia.
Qed.

(** C5, as the code has it.  [Matrix(input)] tests nothing: for an [input]
    with a first row it stores [input] as it is, with [rows] the number of
    rows and [cols] the length of the first row, so the [Matrix] is
    rectangular exactly when every row of [input] has the length of the
    first one and that length is not zero; [input[0]] of an empty [input] is
    undefined behaviour.  [Matrix(r, c)] always holds [r] rows of [c]
    elements, and is rectangular exactly when [r] and [c] are at least 1. *)
Theorem construction_is_unchecked (input : Grid) :
  (forall row0, input !! 0 = Some row0 ->
     matrix_ops.Matrix_from input
     = Ok (matrix_ops.mkMatrix input (length input) (length row0))
     /\ (matrix_ops.rectangular
           (matrix_ops.mkMatrix input (length input) (length row0))
         <-> 1 <= length row0
             /\ Forall (fun row => length row = length row0) input))
  /\ (input = [] -> matrix_ops.Matrix_from input = UB)
  /\ (forall r c,
        length (matrix_ops.data (matrix_ops.Matrix_zero r c)) = r
        /\ Forall (fun row => length row = c)
             (matrix_ops.data (matrix_ops.Matrix_zero r c))
        /\ (matrix_ops.rectangular (matrix_ops.Matrix_zero r c)
            <-> 1 <= r /\ 1 <= c)).
Proof.
  split; [|split].
  - intros row0 Hrow0. unfold matrix_ops.Matrix_from. rewrite Hrow0.
    split; [done|]. unfold matrix_ops.rectangular. simpl.
    apply lookup_lt_Some in Hrow0. intuition lia.
  - now intros ->.
  - intros r c. unfold matrix_ops.rectangular. simpl.
    rewrite length_replicate.
    assert (Forall (fun row : Vector => length row = c)
              (replicate r (replicate c 0%float))) as Hrows.
    { apply Forall_replicate. now rewrite length_replicate. }
    intuition.
Qed.

(** A jagged input that [Matrix(input)] accepts. *)
Lemma construction_is_unchecked_witness :
  matrix_ops.Matrix_from [[1; 2]; [3]]%float
  = Ok (matrix_ops.mkMatrix [[1; 2]; [3]]%float 2 2).
Proof.
  apply (proj1 (construction_is_unchecked [[1; 2]; [3]]%float) [1; 2]%float).
  reflexivity.
Defined.

(** ** Dot products *)

(** The accumulation loop shared by [dot_product] and [dotProduct]. *)
Lemma products_loop {R} (a b : Vector) :
  length a = length b ->
  for_ (R:=R) 0 (length a) (fun i =>
    ai <- at_ a i ;; bi <- at_ b i ;; modify (fun r => (r + ai * bi)%float)) 0%float
  = Normal tt (sum_of_products a b).
Proof.
  intros Hlen. unfold sum_of_products.
  apply (for_run (sum_upto (fun i => (default 0 (a !! i) * default 0 (b !! i))%float)));
    [lia|].
  intros i Hi.
  destruct (lookup_lt_is_Some_2 a i) as [x Hx]; [lia|].
  destruct (lookup_lt_is_Some_2 b i) as [y Hy]; [lia|].
  rewrite (bind_normal _ _ _ _ _ (at_lookup a i x _ Hx)).
  rewrite (bind_normal _ _ _ _ _ (at_lookup b i y _ Hy)).
  simpl. now rewrite Hx, Hy.
Qed.

(** C6.  For vectors of equal length [dot_product] of [matrix.cpp] returns
    the number [Σ a[i]·b[i]], the products added from the left to [0.0];
    [dotProduct] of [matrix_ops.cpp] computes the same sum and returns it
    inside a vector of one element, not as a number.  For vectors of unequal
    length both throw [invalid_argument]. *)
Theorem dot_products (a b : Vector) :
  (length a = length b ->
     matrix.dot_product a b = Ok (sum_of_products a b)
     /\ matrix_ops.dotProduct a b = Ok [sum_of_products a b])
  /\ (length a <> length b ->
        matrix.dot_product a b
        = Throw (invalid_argument "Vectors must have the same length")
        /\ matrix_ops.dotProduct a b
           = Throw (invalid_argument "Vectors must have same size for dot product")).
Proof.
  split; intros Hlen.
  - unfold matrix.dot_product, matrix_ops.dotProduct, call,
      matrix.dot_product_body, matrix_ops.dotProduct_body.
    rewrite nat_neq_false by done.
    split; rewrite bind_put; now rewrite (bind_normal _ _ _ _ _ (products_loop a b Hlen)).
  - unfold matrix.dot_product, matrix_ops.dotProduct, call,
      matrix.dot_product_body, matrix_ops.dotProduct_body.
    now rewrite nat_neq_true.
Qed.

(** On [[1,2,3]] and [[4,5,6]] the value of [dotProduct] is the vector
    [[32]]; that of [dot_product] is the number [32]. *)
Lemma dotProduct_returns_vector :
  matrix_ops.dotProduct [1; 2; 3]%float [4; 5; 6]%float = Ok [32%float]
  /\ matrix.dot_product [1; 2; 3]%float [4; 5; 6]%float = Ok 32%float.
Proof. split; vm_compute; reflexivity. Qed.

Lemma dot_products_witness :
  (matrix.dot_product [1; 2; 3]%float [4; 5; 6]%float = Ok 32%float
   /\ matrix_ops.dotProduct [1; 2; 3]%float [4; 5; 6]%float = Ok [32%float])
  /\ (matrix.dot_product [1; 2; 3]%float [4; 5]%float
      = Throw (invalid_argument "Vectors must have the same length")
      /\ matrix_ops.dotProduct [1; 2; 3]%float [4; 5]%float
         = Throw (invalid_argument "Vectors must have same size for dot product")).
Proof.
  split.
  - apply (proj1 (dot_products [1; 2; 3]%float [4; 5; 6]%float)). reflexivity.
  - apply (proj2 (dot_products [1; 2; 3]%float [4; 5]%float)). simpl. lia.
Defined.

Lemma shape_nonempty a r c : shape a r c -> 1 <= r -> empty a = false.
Proof. intros [Hlen _] Hr. destruct a; simpl in *; [lia|done]. Qed.

Lemma shape_first a r c :
  shape a r c -> 1 <= r -> exists row, a !! 0 = Some row /\ length row = c.
Proof. intros Ha Hr. apply (shape_lookup a r c 0 Ha). lia. Qed.

(** ** [add] and [subtract] *)

Lemma shapes_differ_same {S R} a b r c (s : S) :
  shape a r c -> shape b r c -> 1 <= r ->
  matrix.shapes_differ (R:=R) a b s = Normal false s.
Proof.
  intros Ha Hb Hr. unfold matrix.shapes_differ, orelse.
  rewrite nat_neq_false by (destruct Ha, Hb; congruence).
  rewrite (shape_nonempty a r c), (shape_nonempty b r c) by done. simpl.
  destruct (shape_first a r c Ha Hr) as (a0 & Ha0 & Hla).
  destruct (shape_first b r c Hb Hr) as (b0 & Hb0 & Hlb).
  rewrite (bind_normal _ _ _ _ _ (at_lookup a 0 a0 s Ha0)).
  rewrite (bind_normal _ _ _ _ _ (at_lookup b 0 b0 s Hb0)).
  unfold ret. rewrite nat_neq_false by congruence. done.
Qed.

(** The loops of [add] and [subtract], for any operation [op] on two
    elements. *)
Lemma elementwise_loop {R} (op : float -> float -> float) a b r c :
  shape a r c -> shape b r c ->
  for_ (R:=R) 0 r (fun i =>
    for_ 0 c (fun j =>
      bij <- at2 b i j ;;
      update2 i j (fun x => op x bij))) a
  = Normal tt (table r c (fun i j => op (entry a i j) (entry b i j))).
Proof.
  intros Ha Hb.
  pose (after := fun i j => op (entry a i j) (entry b i j)).
  assert (Hloop := positions_loop (R:=R) (table r c) r c (table_ext r c) after (entry a)
                     (fun i j => bij <- at2 b i j ;; update2 i j (fun x => op x bij))).
  rewrite <- (table_entry a r c Ha) in Hloop. apply Hloop.
  intros i j Hi Hj.
  rewrite (bind_normal _ _ _ _ _ (at2_entry b r c i j _ Hb Hi Hj)).
  rewrite update2_table by done. f_equal. apply table_ext.
  intros i' j' _ _. unfold stage. rewrite visited_next.
  case_decide as H; [|done]. destruct H as [-> ->].
  replace (visited i j i j) with false; [done|].
  unfold visited. rewrite Nat.ltb_irrefl, Nat.eqb_refl, Nat.ltb_irrefl. done.
Qed.

Lemma add_table a b r c :
  shape a r c -> shape b r c -> 1 <= r ->
  matrix.add a b = Ok (table r c (fun i j => (entry a i j + entry b i j)%float)).
Proof.
  intros Ha Hb Hr. unfold matrix.add, call, matrix.add_body.
  rewrite (bind_normal _ _ _ _ _ (shapes_differ_same a b r c _ Ha Hb Hr)).
  destruct (shape_first a r c Ha Hr) as (a0 & Ha0 & Hla).
  rewrite (bind_normal _ _ _ _ _ (at_lookup a 0 a0 _ Ha0)).
  unfold bind at 1, put at 1. rewrite Hla. destruct Ha as [Hlen Hrows]. rewrite Hlen.
  rewrite (bind_normal _ _ _ _ _
             (elementwise_loop (fun x y => (x + y)%float) a b r c (conj Hlen Hrows) Hb)).
  done.
Qed.

Lemma subtract_table a b r c :
  shape a r c -> shape b r c -> 1 <= r ->
  matrix.subtract a b = Ok (table r c (fun i j => (entry a i j - entry b i j)%float)).
Proof.
  intros Ha Hb Hr. unfold matrix.subtract, call, matrix.subtract_body.
  rewrite (bind_normal _ _ _ _ _ (shapes_differ_same a b r c _ Ha Hb Hr)).
  destruct (shape_first a r c Ha Hr) as (a0 & Ha0 & Hla).
  rewrite (bind_normal _ _ _ _ _ (at_lookup a 0 a0 _ Ha0)).
  unfold bind at 1, put at 1. rewrite Hla. destruct Ha as [Hlen Hrows]. rewrite Hlen.
  rewrite (bind_normal _ _ _ _ _
             (elementwise_loop (fun x y => (x - y)%float) a b r c (conj Hlen Hrows) Hb)).
  done.
Qed.

(** ** [transpose] *)

Lemma transpose_table a r c :
  shape a r c -> 1 <= r ->
  matrix.transpose a = Ok (table c r (fun j i => entry a i j)).
Proof.
  intros Ha Hr. unfold matrix.transpose, call, matrix.transpose_body.
  rewrite (shape_nonempty a r c) by done.
  destruct (shape_first a r c Ha Hr) as (a0 & Ha0 & Hla).
  rewrite (bind_normal _ _ _ _ _ (at_lookup a 0 a0 _ Ha0)).
  unfold bind at 1, put at 1. rewrite Hla, (proj1 Ha), replicate_table.
  pose (layout := fun f : nat -> nat -> float => table c r (fun j i => f i j)).
  assert (Hloop := positions_loop (R:=matrix.Matrix) layout r c
            ltac:(intros f g Hfg; apply table_ext; auto)
            (entry a) (fun _ _ => 0%float)
            (fun i j => aij <- at2 a i j ;; store2 j i aij)).
  unfold layout in Hloop. clear layout.
  lapply Hloop; [intros Hrun; now rewrite (bind_normal _ _ _ _ _ Hrun)|].
  intros i j Hi Hj.
  rewrite (bind_normal _ _ _ _ _ (at2_entry a r c i j _ Ha Hi Hj)).
  rewrite store2_table by done. f_equal. apply table_ext.
  intros j' i' _ _. unfold stage. rewrite visited_next.
  case_decide as H; case_decide as H'; try done; try (exfalso; tauto).
  now destruct H' as [-> ->].
Qed.

(** ** [matrix_multiply] *)

Lemma matrix_multiply_table a b m n p :
  shape a m n -> shape b n p -> 1 <= m -> 1 <= n ->
  matrix.matrix_multiply a b = Ok (table m p (product_entry a b n)).
Proof.
  intros Ha Hb Hm Hn. unfold matrix.matrix_multiply, call, matrix.matrix_multiply_body.
  rewrite (shape_nonempty a m n), (shape_nonempty b n p) by done. simpl orelse.
  destruct (shape_first a m n Ha Hm) as (a0 & Ha0 & Hla).
  destruct (shape_first b n p Hb Hn) as (b0 & Hb0 & Hlb).
  rewrite bind_assoc, (bind_normal _ _ _ _ _ (at_lookup a 0 a0 _ Ha0)), bind_ret.
  rewrite nat_neq_false by (destruct Hb; congruence).
  rewrite (bind_normal _ _ _ _ _ (at_lookup b 0 b0 _ Hb0)).
  unfold bind at 1, put at 1.
  rewrite Hlb, (proj1 Ha), (proj1 Hb), replicate_table.
  assert (Hloop := positions_loop (R:=matrix.Matrix) (table m p) m p (table_ext m p)
            (product_entry a b n) (fun _ _ => 0%float)
            (fun i j => for_ 0 n (fun k =>
               aik <- at2 a i k ;; bkj <- at2 b k j ;;
               update2 i j (fun r => (r + aik * bkj)%float)))).
  lapply Hloop; [intros Hrun; now rewrite (bind_normal _ _ _ _ _ Hrun)|].
  intros i j Hi Hj.
  pose (F := fun k => table m p (fun i' j' =>
                if decide (i' = i /\ j' = j) then product_entry a b k i j
                else stage i j (product_entry a b n) (fun _ _ => 0%float) i' j')).
  replace (table m p (stage i j _ _)) with (F 0).
  2:{ apply table_ext. intros i' j' _ _. case_decide as H; [|done].
      destruct H as [-> ->]. unfold stage. now rewrite visited_self. }
  replace (table m p (stage i (S j) _ _)) with (F n).
  2:{ apply table_ext. intros i' j' _ _. unfold stage. rewrite visited_next.
      case_decide as H; [destruct H as [-> ->]|]; done. }
  apply (for_run F); [lia|]. intros k Hk. unfold F.
  rewrite (bind_normal _ _ _ _ _ (at2_entry a m n i k _ Ha Hi ltac:(lia))).
  rewrite (bind_normal _ _ _ _ _ (at2_entry b n p k j _ Hb ltac:(lia) Hj)).
  rewrite update2_table by done. f_equal. apply table_ext.
  intros i' j' _ _. case_decide as H; [|done].
  rewrite decide_True by done. done.
Qed.

(** Multiplication of doubles is commutative. *)
Lemma float_mul_comm (x y : float) : (x * y = y * x)%float.
Proof.
  apply Prim2SF_inj. rewrite !mul_spec. unfold SF64mul, SFmul.
  destruct (Prim2SF x) as [sx|sx| |sx mx ex], (Prim2SF y) as [sy|sy| |sy my ey];
    try reflexivity; rewrite ?(xorb_comm sx sy); try reflexivity.
  now rewrite Pos.mul_comm, Z.add_comm.
Qed.

(** ** Algebraic relations *)

(** C7.  For matrices [A] ([m] by [n]) and [B] ([n] by [p]) with at least
    one row and one column each, [transpose(matrix_multiply(A, B))] and
    [matrix_multiply(transpose(B), transpose(A))] both return, and return
    the same matrix, element for element the same double. *)
Theorem transpose_of_product a b m n p :
  shape a m n -> shape b n p -> 1 <= m -> 1 <= n -> 1 <= p ->
  exists c,
    and_then (matrix.matrix_multiply a b) matrix.transpose = Ok c
    /\ and_then (matrix.transpose b) (fun bt =>
         and_then (matrix.transpose a) (fun at' =>
           matrix.matrix_multiply bt at')) = Ok c.
Proof.
  intros Ha Hb Hm Hn Hp.
  exists (table p m (fun j i => product_entry a b n i j)). split.
  - rewrite (matrix_multiply_table a b m n p) by done. simpl.
    rewrite (transpose_table _ m p) by (done || apply shape_table).
    f_equal. apply table_ext. intros j i Hj Hi. now rewrite entry_table.
  - rewrite (transpose_table b n p), (transpose_table a m n) by done. simpl.
    rewrite (matrix_multiply_table _ _ p n m) by (done || apply shape_table).
    f_equal. apply table_ext. intros j i Hj Hi. unfold product_entry.
    apply sum_upto_ext. intros k Hk. rewrite !entry_table by done.
    apply float_mul_comm.
Qed.

Lemma transpose_of_product_witness :
  exists c,
    and_then (matrix.matrix_multiply [[1; 2; 3]; [4; 5; 6]]%float
                                     [[1; 2]; [3; 4]; [5; 6]]%float) matrix.transpose = Ok c
    /\ and_then (matrix.transpose [[1; 2]; [3; 4]; [5; 6]]%float) (fun bt =>
         and_then (matrix.transpose [[1; 2; 3]; [4; 5; 6]]%float) (fun at' =>
           matrix.matrix_multiply bt at')) = Ok c.
Proof.
  apply (transpose_of_product _ _ 2 3 2); try lia;
    (split; [reflexivity | repeat constructor]).
Defined.

(** C8, as the code has it.  For matrices [A] and [B] of the same shape,
    [subtract(add(A, B), B)] returns the matrix of that shape whose elements
    are [(A[i][j] + B[i][j]) - B[i][j]] in double arithmetic; it returns [A]
    if and only if every one of these is the double [A[i][j]]. *)
Theorem add_then_subtract a b r c :
  shape a r c -> shape b r c -> 1 <= r ->
  and_then (matrix.add a b) (fun s => matrix.subtract s b)
  = Ok (table r c (fun i j => (entry a i j + entry b i j - entry b i j)%float))
  /\ (and_then (matrix.add a b) (fun s => matrix.subtract s b) = Ok a <->
      forall i j, i < r -> j < c ->
        (entry a i j + entry b i j - entry b i j)%float = entry a i j).
Proof.
  intros Ha Hb Hr.
  assert (and_then (matrix.add a b) (fun s => matrix.subtract s b)
          = Ok (table r c (fun i j => (entry a i j + entry b i j - entry b i j)%float)))
    as Hrun.
  { rewrite (add_table a b r c) by done. simpl.
    rewrite (subtract_table _ b r c) by (done || apply shape_table).
    f_equal. apply table_ext. intros i j Hi Hj. now rewrite entry_table. }
  split; [done|]. rewrite Hrun. split.
  - intros [= Hsame] i j Hi Hj.
    pose proof (entry_table r c
                  (fun i j => (entry a i j + entry b i j - entry b i j)%float)
                  i j Hi Hj) as Hentry.
    rewrite Hsame in Hentry. symmetry. exact Hentry.
  - intros Hexact. f_equal.
    etrans; [|symmetry; apply (table_entry a r c Ha)]. now apply table_ext.
Qed.

Lemma add_then_subtract_witness :
  and_then (matrix.add [[1; 2]; [3; 4]]%float [[5; 6]; [7; 8]]%float)
           (fun s => matrix.subtract s [[5; 6]; [7; 8]]%float)
  = Ok [[1; 2]; [3; 4]]%float.
Proof.
  apply (proj2 (proj2 (add_then_subtract [[1; 2]; [3; 4]]%float
                         [[5; 6]; [7; 8]]%float 2 2
                         ltac:(split; [reflexivity | repeat constructor])
                         ltac:(split; [reflexivity | repeat constructor])
                         ltac:(lia)))).
  intros [|[|i]] [|[|j]] Hi Hj; try lia; vm_compute; reflexivity.
Defined.

(** The sum is rounded: [1 + 2^53] is [2^53], and [0.1 + 0.2 - 0.2] is not
    [0.1]. *)
Lemma add_then_subtract_inexact :
  and_then (matrix.add [[1%float]] [[9007199254740992%float]])
           (fun s => matrix.subtract s [[9007199254740992%float]])
  = Ok [[0%float]]
  /\ and_then (matrix.add [[0.1%float]] [[0.2%float]])
              (fun s => matrix.subtract s [[0.2%float]])
     = Ok [[0.10000000000000003%float]]
  /\ [[0%float]] <> [[1%float]]
  /\ [[0.10000000000000003%float]] <> [[0.1%float]].
Proof.
  repeat split; try (vm_compute; reflexivity); intros [=].
Qed.

(** ** The arguments of the elimination routines *)

(** *** Vectors of a known size *)

Section Sized.
Context {R : Type} (U : Prop).

Lemma load2_sized r c i j (E : R -> Grid -> Prop) (T : Grid -> Prop) :
  i < r -> j < c ->
  hoare U (fun t => U \/ shape t r c) (load2 i j)
    (fun _ t => U \/ shape t r c) E T.
Proof.
  intros Hi Hj t [HU|Ht]; unfold load2.
  - destruct (t !! i) as [row|]; [|done]. destruct (row !! j); [|done]. now left.
  - destruct (shape_entry t r c i j Ht Hi Hj) as (row & -> & ->). now right.
Qed.

Lemma shape_insert (t : Grid) r c i row :
  shape t r c -> length row = c -> shape (<[i := row]> t) r c.
Proof.
  intros [Hlen Hrows] Hrow. split; [now rewrite length_insert|].
  now apply Forall_insert.
Qed.

Lemma store2_sized r c i j x (E : R -> Grid -> Prop) (T : Grid -> Prop) :
  i < r -> j < c ->
  hoare U (fun t => U \/ shape t r c) (store2 i j x)
    (fun _ t => U \/ shape t r c) E T.
Proof.
  intros Hi Hj t [HU|Ht]; unfold store2.
  - destruct (t !! i) as [row|]; [|done]. case_decide; [|done]. now left.
  - destruct (shape_lookup t r c i Ht Hi) as (row & -> & Hrow).
    rewrite decide_True by lia. right.
    apply shape_insert; [done|]. now rewrite length_insert.
Qed.

Lemma update2_sized r c i j f (E : R -> Grid -> Prop) (T : Grid -> Prop) :
  i < r -> j < c ->
  hoare U (fun t => U \/ shape t r c) (update2 i j f)
    (fun _ t => U \/ shape t r c) E T.
Proof.
  intros Hi Hj. eapply hoare_bind; [now apply load2_sized|].
  intros x. now apply store2_sized.
Qed.

Lemma load_sized n i (E : R -> Vector -> Prop) (T : Vector -> Prop) :
  i < n ->
  hoare U (fun v => U \/ length v = n) (load i)
    (fun _ v => U \/ length v = n) E T.
Proof.
  intros Hi v [HU|Hv]; unfold load.
  - destruct (v !! i); [|done]. now left.
  - destruct (lookup_lt_is_Some_2 v i) as [x ->]; [lia|]. now right.
Qed.

Lemma update_sized n i f (E : R -> Vector -> Prop) (T : Vector -> Prop) :
  i < n ->
  hoare U (fun v => U \/ length v = n) (update i f)
    (fun _ v => U \/ length v = n) E T.
Proof.
  intros Hi. eapply hoare_bind; [now apply load_sized|].
  intros x v [HU|Hv]; unfold store.
  - case_decide; [|done]. now left.
  - rewrite decide_True by lia. right. now rewrite length_insert.
Qed.

End Sized.

(** *** The variables of an elimination *)

Section Kept.
Context {A L R : Type} (U : Prop) (a0 : A) (JT : Grid -> Prop) (JL : L -> Prop).

Lemma kept_args (s : matrix.frame A L) : kept a0 JT JL s -> matrix.args s = a0.
Proof. now intros [? _]. Qed.

(** A statement on [temp] leaves the arguments and [out] as they are. *)
Lemma hoare_on_temp {X} (m : M Grid R X) :
  hoare U JT m (fun _ => JT) (fun _ _ => True) (fun _ => True) ->
  hoare U (kept a0 JT JL) (matrix.on_temp m) (fun _ => kept a0 JT JL)
    (fun _ s => matrix.args s = a0) (fun s => matrix.args s = a0).
Proof.
  intros Hm s (Hargs & Ht & Ho). specialize (Hm _ Ht).
  unfold matrix.on_temp, zoom. now destruct (m (matrix.temp s)).
Qed.

(** A statement on [result], or [det], leaves the arguments and [temp] as
    they are. *)
Lemma hoare_on_out {X} (m : M L R X) :
  hoare U JL m (fun _ => JL) (fun _ _ => True) (fun _ => True) ->
  hoare U (kept a0 JT JL) (matrix.on_out m) (fun _ => kept a0 JT JL)
    (fun _ s => matrix.args s = a0) (fun s => matrix.args s = a0).
Proof.
  intros Hm s (Hargs & Ht & Ho). specialize (Hm _ Ho).
  unfold matrix.on_out, zoom. now destruct (m (matrix.out s)).
Qed.

End Kept.

Ltac keep_step :=
  lazymatch goal with
  | |- hoare _ _ (for_ _ _ _) _ _ _ => apply hoare_for; intros ? ?
  | |- hoare _ _ (bind _ _) _ _ _ => eapply hoare_bind; [|intros ?]
  | |- hoare _ _ (matrix.on_temp _) _ _ _ => apply hoare_on_temp
  | |- hoare _ _ (matrix.on_out _) _ _ _ => apply hoare_on_out
  | |- hoare _ _ (load2 _ _) _ _ _ => apply load2_sized; lia
  | |- hoare _ _ (store2 _ _ _) _ _ _ => apply store2_sized; lia
  | |- hoare _ _ (update2 _ _ _) _ _ _ => apply update2_sized; lia
  | |- hoare _ _ (load _) _ _ _ => apply load_sized; lia
  | |- hoare _ _ (update _ _) _ _ _ => apply update_sized; lia
  | |- hoare _ _ (throw _) _ _ _ => apply hoare_throw, kept_args
  | |- hoare _ _ (return_ _) _ _ _ => apply hoare_return, kept_args
  | |- hoare _ _ (ret _) _ _ _ => apply hoare_ret; auto
  | |- hoare _ _ (modify _) _ _ _ => apply hoare_modify; auto
  | |- hoare _ _ (if ?b then _ else _) _ _ _ => destruct b
  end.

Ltac keep := repeat keep_step.

Section Eliminations.
Context (U : Prop).

Lemma inverse_step_kept a0 n i :
  i < n ->
  hoare U (kept a0 (square U n) (square U n)) (matrix.inverse_step n i)
    (fun _ => kept a0 (square U n) (square U n))
    (fun _ s => matrix.args s = a0) (fun s => matrix.args s = a0).
Proof. intros Hi. unfold matrix.inverse_step, square. keep. Qed.

Lemma determinant_step_kept a0 n i :
  i < n ->
  hoare U (kept a0 (square U n) (fun _ : float => True)) (matrix.determinant_step n i)
    (fun _ => kept a0 (square U n) (fun _ : float => True))
    (fun _ s => matrix.args s = a0) (fun s => matrix.args s = a0).
Proof. intros Hi. unfold matrix.determinant_step, square. keep. Qed.

Lemma solve_step_kept a0 n i :
  i < n ->
  hoare U (kept a0 (square U n) (sized U n)) (matrix.solve_step n i)
    (fun _ => kept a0 (square U n) (sized U n))
    (fun _ s => matrix.args s = a0) (fun s => matrix.args s = a0).
Proof. intros Hi. unfold matrix.solve_step, square, sized. keep. Qed.

Lemma shape_zeros n : shape (replicate n (replicate n 0%float)) n n.
Proof. rewrite replicate_table. apply shape_table. Qed.

(** A rectangular matrix with as many rows as its first row has elements is
    square. *)
Lemma square_of_shape a r c row0 :
  U \/ shape a r c -> a !! 0 = Some row0 -> length a = length row0 ->
  square U (length a) a.
Proof.
  intros [HU|Ha] Hrow0 Hsq; [now left|right].
  destruct (shape_lookup a r c 0 Ha) as (row & Hrow & Hlen).
  { destruct Ha as [<- _]. apply lookup_lt_Some in Hrow0. lia. }
  destruct Ha as [Hr Hrows]. split; [done|].
  replace (length a) with c; [done|]. congruence.
Qed.

Lemma inverse_setup_kept a r c :
  U \/ shape a r c ->
  hoare U (fun s => s = matrix.inverse_entry a) matrix.inverse_setup
    (fun n => kept a (square U n) (square U n))
    (fun _ s => matrix.args s = a) (fun s => matrix.args s = a).
Proof.
  intros Hw s ->. unfold matrix.inverse_setup.
  rewrite bind_gets. simpl matrix.args.
  destruct a as [|row0 rest] eqn:Ea; [done|]. rewrite <- Ea in *.
  assert (a !! 0 = Some row0) as Hrow0 by now subst a.
  unfold orelse. replace (empty a) with false by now subst a.
  rewrite bind_assoc, (bind_normal _ _ _ _ _ (at_lookup a 0 row0 _ Hrow0)), bind_ret.
  destruct (nat_neq (length a) (length row0)) eqn:Hsq; [done|].
  apply negb_false_iff, Nat.eqb_eq in Hsq.
  pose proof (square_of_shape a r c row0 Hw Hrow0 Hsq) as Ha.
  cbv zeta. set (n := length a) in *.
  change (bind (matrix.on_out (put ?z)) ?k (matrix.inverse_entry a))
    with (k tt (matrix.Frame a [] z)). cbv beta.
  change (bind (matrix.on_temp (put a)) ?k (matrix.Frame a [] ?z))
    with (k tt (matrix.Frame a a z)). cbv beta.
  assert (hoare U (kept a (square U n) (square U n))
            (for_ (R:=matrix.Matrix) 0 n (fun i => matrix.on_out (store2 i i 1%float)) ;;
             ret n)
            (fun n' => kept a (square U n') (square U n'))
            (fun _ s => matrix.args s = a) (fun s => matrix.args s = a)) as Htail.
  { unfold square. keep. }
  apply (Htail (matrix.Frame a a _)). repeat split; [done|]. right. apply shape_zeros.
Qed.

Lemma determinant_setup_kept a r c :
  U \/ shape a r c ->
  hoare U (fun s => s = matrix.determinant_entry a) matrix.determinant_setup
    (fun n => kept a (square U n) (fun _ => True))
    (fun _ s => matrix.args s = a) (fun s => matrix.args s = a).
Proof.
  intros Hw s ->. unfold matrix.determinant_setup.
  rewrite bind_gets. simpl matrix.args.
  destruct a as [|row0 rest] eqn:Ea; [done|]. rewrite <- Ea in *.
  assert (a !! 0 = Some row0) as Hrow0 by now subst a.
  unfold orelse. replace (empty a) with false by now subst a.
  rewrite bind_assoc, (bind_normal _ _ _ _ _ (at_lookup a 0 row0 _ Hrow0)), bind_ret.
  destruct (nat_neq (length a) (length row0)) eqn:Hsq; [done|].
  apply negb_false_iff, Nat.eqb_eq in Hsq.
  pose proof (square_of_shape a r c row0 Hw Hrow0 Hsq) as Ha.
  now repeat split.
Qed.

Lemma solve_setup_kept a b r c :
  U \/ shape a r c ->
  hoare U (fun s => s = matrix.solve_entry a b) matrix.solve_setup
    (fun n => kept (a, b) (square U n) (sized U n))
    (fun _ s => matrix.args s = (a, b)) (fun s => matrix.args s = (a, b)).
Proof.
  intros Hw s ->. unfold matrix.solve_setup.
  rewrite bind_gets. simpl matrix.args. cbv zeta. simpl fst. simpl snd.
  destruct a as [|row0 rest] eqn:Ea; [done|]. rewrite <- Ea in *.
  assert (a !! 0 = Some row0) as Hrow0 by now subst a.
  unfold orelse. replace (empty a) with false by now subst a.
  rewrite bind_assoc, (bind_normal _ _ _ _ _ (at_lookup a 0 row0 _ Hrow0)).
  destruct (nat_neq (length a) (length row0)) eqn:Hsq; [done|].
  apply negb_false_iff, Nat.eqb_eq in Hsq. rewrite bind_ret.
  destruct (nat_neq (length a) (length b)) eqn:Hb; [done|].
  apply negb_false_iff, Nat.eqb_eq in Hb.
  pose proof (square_of_shape a r c row0 Hw Hrow0 Hsq) as Ha.
  repeat split; [done|]. now right.
Qed.

(** *** The three routines *)

Lemma inverse_body_kept a r c :
  U \/ shape a r c ->
  hoare U (fun s => s = matrix.inverse_entry a) matrix.inverse_body
    (fun _ s => matrix.args s = a)
    (fun _ s => matrix.args s = a) (fun s => matrix.args s = a).
Proof.
  intros Hw. unfold matrix.inverse_body.
  eapply hoare_bind; [now apply (inverse_setup_kept a r c)|]. intros n.
  eapply hoare_bind;
    [apply hoare_for; intros i Hi; apply inverse_step_kept; lia|].
  intros u; cbv beta.
  apply (hoare_bind _ _ _ _ (fun _ => kept a (square U n) (square U n))).
  - now apply hoare_gets.
  - intros result. apply hoare_return, kept_args.
Qed.

Lemma determinant_body_kept a r c :
  U \/ shape a r c ->
  hoare U (fun s => s = matrix.determinant_entry a) matrix.determinant_body
    (fun _ s => matrix.args s = a)
    (fun _ s => matrix.args s = a) (fun s => matrix.args s = a).
Proof.
  intros Hw. unfold matrix.determinant_body.
  eapply hoare_bind; [now apply (determinant_setup_kept a r c)|]. intros n.
  eapply hoare_bind;
    [apply hoare_for; intros i Hi; apply determinant_step_kept; lia|].
  intros u; cbv beta.
  apply (hoare_bind _ _ _ _ (fun _ => kept a (square U n) (fun _ => True))).
  - now apply hoare_gets.
  - intros det. apply hoare_return, kept_args.
Qed.

Lemma solve_body_kept a b r c :
  U \/ shape a r c ->
  hoare U (fun s => s = matrix.solve_entry a b) matrix.solve_body
    (fun _ s => matrix.args s = (a, b))
    (fun _ s => matrix.args s = (a, b)) (fun s => matrix.args s = (a, b)).
Proof.
  intros Hw. unfold matrix.solve_body.
  eapply hoare_bind; [now apply (solve_setup_kept a b r c)|]. intros n.
  eapply hoare_bind;
    [apply hoare_for; intros i Hi; apply solve_step_kept; lia|].
  intros u; cbv beta.
  apply (hoare_bind _ _ _ _ (fun _ => kept (a, b) (square U n) (sized U n))).
  - now apply hoare_gets.
  - intros result. apply hoare_return, kept_args.
Qed.

End Eliminations.

Lemma final_args_of_hoare {A L R X} (U : Prop) (m : M (matrix.frame A L) R X) s0 a0 :
  hoare U (fun s => s = s0) m (fun _ s => matrix.args s = a0)
    (fun _ s => matrix.args s = a0) (fun s => matrix.args s = a0) ->
  (forall x, final_args (m s0) = Some x -> x = a0)
  /\ (~ U -> final_args (m s0) = Some a0).
Proof.
  intros Hm. specialize (Hm s0 eq_refl).
  destruct (m s0); simpl; split;
    try (intros ? [= <-]; done); try (intros _; now f_equal); done.
Qed.

(** C9.  [inverse], [determinant] and [solve] leave what their reference
    parameters are bound to as it was: whenever a call completes, by [return]
    or by [throw], the caller's matrix (and, for [solve], the caller's
    right-hand side) is the one it passed; every write of the eliminations
    goes to [temp] or to [result].  For a rectangular matrix the calls do
    complete: no element is read or written out of range. *)
Theorem arguments_unchanged (a : Grid) (b : Vector) :
  (forall x,
     final_args (matrix.inverse_body (matrix.inverse_entry a)) = Some x -> x = a)
  /\ (forall x,
        final_args (matrix.determinant_body (matrix.determinant_entry a)) = Some x ->
        x = a)
  /\ (forall x,
        final_args (matrix.solve_body (matrix.solve_entry a b)) = Some x ->
        x = (a, b))
  /\ (forall r c, shape a r c ->
        final_args (matrix.inverse_body (matrix.inverse_entry a)) = Some a
        /\ final_args (matrix.determinant_body (matrix.determinant_entry a)) = Some a
        /\ final_args (matrix.solve_body (matrix.solve_entry a b)) = Some (a, b)).
Proof.
  repeat split.
  - apply (final_args_of_hoare True), (inverse_body_kept True a 0 0). now left.
  - apply (final_args_of_hoare True), (determinant_body_kept True a 0 0). now left.
  - apply (final_args_of_hoare True), (solve_body_kept True a b 0 0). now left.
  - apply (final_args_of_hoare False); [|tauto].
    apply (inverse_body_kept False a r c). now right.
  - apply (final_args_of_hoare False); [|tauto].
    apply (determinant_body_kept False a r c). now right.
  - apply (final_args_of_hoare False); [|tauto].
    apply (solve_body_kept False a b r c). now right.
Qed.

(** A call that returns and a call that throws, both with the arguments
    unchanged. *)
Lemma arguments_unchanged_witness :
  (final_args (matrix.inverse_body (matrix.inverse_entry [[1; 2]; [2; 4]]%float))
   = Some [[1; 2]; [2; 4]]%float
   /\ final_args (matrix.determinant_body (matrix.determinant_entry [[1; 2]; [2; 4]]%float))
      = Some [[1; 2]; [2; 4]]%float
   /\ final_args (matrix.solve_body (matrix.solve_entry [[1; 2]; [2; 4]]%float [1; 1]%float))
      = Some ([[1; 2]; [2; 4]]%float, [1; 1]%float))
  /\ matrix.inverse [[1; 2]; [2; 4]]%float = Throw (runtime_error "Matrix is singular")
  /\ matrix.determinant [[1; 2]; [2; 4]]%float = Ok 0%float.
Proof.
  split; [|split; vm_compute; reflexivity].
  apply (proj2 (proj2 (proj2
           (arguments_unchanged [[1; 2]; [2; 4]]%float [1; 1]%float))) 2 2).
  split; [reflexivity | repeat constructor].
Defined.

(** ** The recursion of the cofactor determinant *)

(** [getMinor] writes the elements of [minor] only: the matrix it returns has
    the dimensions it was constructed with. *)
Lemma getMinor_rows this row col m :
  matrix_ops.getMinor this row col = Ok m ->
  matrix_ops.rows m = matrix_ops.rows this - 1.
Proof.
  pose (Inv := fun s : matrix_ops.minor_vars =>
               matrix_ops.rows (matrix_ops.minor s) = matrix_ops.rows this - 1).
  assert (hoare True (fun _ => True) (matrix_ops.getMinor_body this row col)
            (fun _ _ => True)
            (fun v _ => matrix_ops.rows v = matrix_ops.rows this - 1)
            (fun _ => True)) as Hbody.
  { assert (forall f, (forall s, matrix_ops.minor (f s) = matrix_ops.minor s) ->
              hoare (R:=matrix_ops.Matrix) True Inv (modify f) (fun _ => Inv)
                (fun _ _ => False) (fun _ => True)) as Hmodify.
    { intros f Hf. apply hoare_modify. intros s Hs. unfold Inv. now rewrite Hf. }
    unfold matrix_ops.getMinor_body.
    apply (hoare_bind _ _ _ _ (fun _ => Inv)); [done|]. intros _.
    apply (hoare_bind _ _ _ _ (fun _ => Inv)).
    2:{ intros _. apply (hoare_bind _ _ _ _ (fun v s => v = matrix_ops.minor s /\ Inv s)).
        - now apply hoare_gets.
        - intros v. apply hoare_return. now intros s [-> Hs]. }
    apply hoare_for. intros i _. destruct (Nat.eqb i row); [now apply hoare_ret|].
    apply (hoare_bind _ _ _ _ (fun _ => Inv)); [now apply Hmodify|]. intros _.
    apply (hoare_bind _ _ _ _ (fun _ => Inv)); [|intros u; now apply Hmodify].
    apply hoare_for. intros j _. destruct (Nat.eqb j col); [now apply hoare_ret|].
    apply (hoare_bind _ _ _ _ (fun _ => Inv)).
    { intros s Hs. unfold matrix_ops.elem, at2, at_, bind.
      destruct (_ !! i) as [rw|]; [|done]. simpl. now destruct (rw !! j). }
    intros x.
    apply (hoare_bind _ _ _ _ (fun _ => Inv)); [now apply hoare_gets|]. intros r.
    apply (hoare_bind _ _ _ _ (fun _ => Inv)); [now apply hoare_gets|]. intros c.
    apply (hoare_bind _ _ _ _ (fun _ => Inv)); [|intros u; now apply Hmodify].
    intros s Hs. unfold matrix_ops.on_minor, matrix_ops.on_data, zoom, store2.
    destruct (_ !! r) as [rw|]; [|done]. now case_decide. }
  unfold matrix_ops.getMinor, call.
  specialize (Hbody (matrix_ops.MinorVars (matrix_ops.Matrix_zero 0 0) 0 0) Logic.I).
  destruct (matrix_ops.getMinor_body _ _ _ _); try discriminate.
  now intros [= <-].
Qed.

(** [determinant] uses the recursive call on the minors of a square matrix
    only. *)
Lemma determinant_body_ext rec1 rec2 this s :
  (forall j m, j < matrix_ops.cols this ->
     matrix_ops.rows this = matrix_ops.cols this ->
     matrix_ops.getMinor this 0 j = Ok m -> rec1 m = rec2 m) ->
  matrix_ops.determinant_body rec1 this s = matrix_ops.determinant_body rec2 this s.
Proof.
  intros Hrec. unfold matrix_ops.determinant_body.
  destruct (nat_neq _ _) eqn:Hsquare; [done|].
  apply negb_false_iff, Nat.eqb_eq in Hsquare.
  repeat (destruct (Nat.eqb _ _); [done|]).
  rewrite !bind_put. unfold bind at 1 6.
  rewrite (for_ext _ _ _
             (fun j => m <- eval (matrix_ops.getMinor this 0 j) ;;
                       x <- matrix_ops.elem this 0 j ;;
                       d <- eval (rec2 m) ;;
                       modify (fun det => (det + matrix_ops.sign j * x * d)%float)));
    [done|].
  intros j s' Hj. unfold bind at 1 5.
  destruct (matrix_ops.getMinor this 0 j) as [m| |] eqn:Hm; simpl; try done.
  now rewrite (Hrec j m ltac:(lia) Hsquare Hm).
Qed.

(** Every depth of at least [rows] gives the same value: the bound
    [rows] of [determinant] is never what ends the recursion. *)
Lemma determinant_rec_depth d d' this :
  matrix_ops.rows this <= d -> matrix_ops.rows this <= d' ->
  matrix_ops.determinant_rec d this = matrix_ops.determinant_rec d' this.
Proof.
  revert d' this. induction d as [|d IH]; intros d' this Hd Hd'.
  - destruct d' as [|d']; [done|]. simpl. unfold call.
    rewrite (determinant_body_ext (fun _ => UB) (matrix_ops.determinant_rec d') this);
      [done|]. intros; lia.
  - destruct d' as [|d']; simpl; unfold call.
    + rewrite (determinant_body_ext (matrix_ops.determinant_rec d) (fun _ => UB) this);
        [done|]. intros; lia.
    + rewrite (determinant_body_ext _ (matrix_ops.determinant_rec d') this); [done|].
      intros j m _ _ Hm. apply getMinor_rows in Hm. apply IH; lia.
Qed.

Lemma determinant_depth_enough d this :
  matrix_ops.rows this <= d ->
  matrix_ops.determinant_rec d this = matrix_ops.determinant this.
Proof. intros Hd. now apply determinant_rec_depth. Qed.

(** * More of the code *)

(** ** [transpose] *)

(** X1.  [transpose] of a matrix of [r >= 1] rows of [c] elements returns the
    matrix of [c] rows of [r] elements whose element [(j, i)] is element
    [(i, j)] of the argument. *)
Theorem transpose_computes a r c :
  shape a r c -> 1 <= r ->
  exists t, matrix.transpose a = Ok t /\ shape t c r
            /\ forall i j, i < r -> j < c -> entry t j i = entry a i j.
Proof.
  intros Ha Hr. exists (table c r (fun j i => entry a i j)).
  split; [now apply transpose_table|]. split; [apply shape_table|].
  intros i j Hi Hj. now rewrite entry_table.
Qed.

Lemma transpose_computes_witness :
  exists t, matrix.transpose [[1; 2; 3]; [4; 5; 6]]%float = Ok t /\ shape t 3 2
            /\ forall i j, i < 2 -> j < 3 ->
                 entry t j i = entry [[1; 2; 3]; [4; 5; 6]]%float i j.
Proof.
  apply (transpose_computes _ 2 3); [|lia].
  split; [reflexivity | repeat constructor].
Defined.

(** X2.  The transpose of the transpose of a matrix with at least one row and
    at least one column is the matrix itself.  Of a matrix whose rows are
    empty the transpose is the empty matrix, which [transpose] then
    rejects. *)
Theorem transpose_twice a r c :
  shape a r c -> 1 <= r ->
  (1 <= c -> and_then (matrix.transpose a) matrix.transpose = Ok a)
  /\ (c = 0 -> and_then (matrix.transpose a) matrix.transpose
               = Throw (invalid_argument "Matrix cannot be empty")).
Proof.
  intros Ha Hr. rewrite (transpose_table a r c) by done. simpl. split.
  - intros Hc. rewrite (transpose_table _ c r) by (done || apply shape_table).
    f_equal. etrans; [|symmetry; apply (table_entry a r c Ha)].
    apply table_ext. intros i j Hi Hj. now rewrite entry_table.
  - now intros ->.
Qed.

Lemma transpose_twice_witness :
  and_then (matrix.transpose [[1; 2; 3]; [4; 5; 6]]%float) matrix.transpose
  = Ok [[1; 2; 3]; [4; 5; 6]]%float
  /\ and_then (matrix.transpose [[]; []]) matrix.transpose
     = Throw (invalid_argument "Matrix cannot be empty").
Proof.
  split.
  - apply (proj1 (transpose_twice [[1; 2; 3]; [4; 5; 6]]%float 2 3
                    ltac:(split; [reflexivity | repeat constructor]) ltac:(lia))). lia.
  - apply (proj2 (transpose_twice [[]; []] 2 0
                    ltac:(split; [reflexivity | repeat constructor]) ltac:(lia))).
    reflexivity.
Defined.

(** Addition of doubles is commutative. *)
Lemma float_add_comm (x y : float) : (x + y = y + x)%float.
Proof.
  apply Prim2SF_inj. rewrite !add_spec. unfold SF64add, SFadd.
  destruct (Prim2SF x) as [[]|[]| |sx mx ex], (Prim2SF y) as [[]|[]| |sy my ey];
    try reflexivity.
  cbv zeta. now rewrite Z.min_comm, Z.add_comm.
Qed.

(** ** [matrix_multiply] *)

(** X3.  [matrix_multiply] of an [m] by [n] and an [n] by [p] matrix, [m] and
    [n] at least 1, returns the [m] by [p] matrix whose element [(i, j)] is
    the sum of the products [a[i][k] * b[k][j]], added from the left to
    [0.0] in the order of [k]. *)
Theorem matrix_multiply_computes a b m n p :
  shape a m n -> shape b n p -> 1 <= m -> 1 <= n ->
  exists c, matrix.matrix_multiply a b = Ok c /\ shape c m p
            /\ forall i j, i < m -> j < p ->
                 entry c i j
                 = sum_upto (fun k => (entry a i k * entry b k j)%float) n.
Proof.
  intros Ha Hb Hm Hn. exists (table m p (product_entry a b n)).
  split; [now apply matrix_multiply_table|]. split; [apply shape_table|].
  intros i j Hi Hj. now rewrite entry_table.
Qed.

Lemma matrix_multiply_computes_witness :
  exists c, matrix.matrix_multiply [[1; 2; 3]; [4; 5; 6]]%float
                                   [[1; 2]; [3; 4]; [5; 6]]%float = Ok c
            /\ shape c 2 2
            /\ forall i j, i < 2 -> j < 2 ->
                 entry c i j
                 = sum_upto (fun k => (entry [[1; 2; 3]; [4; 5; 6]] i k
                                       * entry [[1; 2]; [3; 4]; [5; 6]] k j)%float) 3.
Proof.
  apply (matrix_multiply_computes _ _ 2 3 2); try lia;
    (split; [reflexivity | repeat constructor]).
Defined.

(** X4.  [matrix_multiply] throws [invalid_argument] when an operand has no
    row or when the rows of [a] do not have as many elements as [b] has
    rows. *)
Theorem matrix_multiply_rejects a b m n n' p :
  shape a m n -> shape b n' p ->
  m = 0 \/ n' = 0 \/ n <> n' ->
  matrix.matrix_multiply a b
  = Throw (invalid_argument "Invalid dimensions for matrix multiplication").
Proof.
  intros Ha Hb Hbad. unfold matrix.matrix_multiply, call, matrix.matrix_multiply_body.
  destruct a as [|a0 a']; [done|]. destruct b as [|b0 b']; [done|].
  simpl orelse. rewrite bind_assoc.
  rewrite (bind_normal _ _ _ _ _ (at_lookup (a0 :: a') 0 a0 _ eq_refl)), bind_ret.
  rewrite nat_neq_true; [done|].
  destruct Ha as [Hm Ha], Hb as [Hn' Hb].
  apply Forall_cons in Ha as [Ha0 _]. simpl in *. lia.
Qed.

Lemma matrix_multiply_rejects_witness :
  matrix.matrix_multiply [[1; 2; 3]; [4; 5; 6]]%float [[1; 2]; [3; 4]]%float
  = Throw (invalid_argument "Invalid dimensions for matrix multiplication").
Proof.
  apply (matrix_multiply_rejects _ _ 2 3 2 2);
    [split; [reflexivity | repeat constructor]..|]. right. right. lia.
Defined.

(** ** [add] and [subtract] *)

(** X5.  [add] and [subtract] of two matrices of the same shape return the
    matrix of that shape of the sums, respectively the differences, of the
    elements. *)
Theorem add_and_subtract_compute a b r c :
  shape a r c -> shape b r c -> 1 <= r ->
  (exists s, matrix.add a b = Ok s /\ shape s r c
             /\ forall i j, i < r -> j < c ->
                  entry s i j = (entry a i j + entry b i j)%float)
  /\ (exists d, matrix.subtract a b = Ok d /\ shape d r c
             /\ forall i j, i < r -> j < c ->
                  entry d i j = (entry a i j - entry b i j)%float).
Proof.
  intros Ha Hb Hr. split.
  - exists (table r c (fun i j => (entry a i j + entry b i j)%float)).
    split; [now apply add_table|]. split; [apply shape_table|].
    intros i j Hi Hj. now rewrite entry_table.
  - exists (table r c (fun i j => (entry a i j - entry b i j)%float)).
    split; [now apply subtract_table|]. split; [apply shape_table|].
    intros i j Hi Hj. now rewrite entry_table.
Qed.

Lemma add_and_subtract_compute_witness :
  (exists s, matrix.add [[1; 2]; [3; 4]]%float [[5; 6]; [7; 8]]%float = Ok s
             /\ shape s 2 2
             /\ forall i j, i < 2 -> j < 2 ->
                  entry s i j = (entry [[1; 2]; [3; 4]] i j
                                 + entry [[5; 6]; [7; 8]] i j)%float)
  /\ (exists d, matrix.subtract [[1; 2]; [3; 4]]%float [[5; 6]; [7; 8]]%float = Ok d
             /\ shape d 2 2
             /\ forall i j, i < 2 -> j < 2 ->
                  entry d i j = (entry [[1; 2]; [3; 4]] i j
                                 - entry [[5; 6]; [7; 8]] i j)%float).
Proof.
  apply (add_and_subtract_compute _ _ 2 2); try lia;
    (split; [reflexivity | repeat constructor]).
Defined.

Lemma shapes_differ_true {S R} a b r c r' c' (s : S) :
  shape a r c -> shape b r' c' ->
  r <> r' \/ r = 0 \/ c <> c' ->
  matrix.shapes_differ (R:=R) a b s = Normal true s.
Proof.
  intros [Hr Ha] [Hr' Hb] Hbad. unfold matrix.shapes_differ, orelse.
  destruct (nat_neq (length a) (length b)) eqn:Hlen; [done|].
  apply negb_false_iff, Nat.eqb_eq in Hlen.
  destruct a as [|a0 a']; [done|]. destruct b as [|b0 b']; [done|]. cbn [empty orb].
  rewrite (bind_normal _ _ _ _ _ (at_lookup (a0 :: a') 0 a0 _ eq_refl)).
  rewrite (bind_normal _ _ _ _ _ (at_lookup (b0 :: b') 0 b0 _ eq_refl)).
  unfold ret. rewrite nat_neq_true; [done|].
  apply Forall_cons in Ha as [Ha0 _]. apply Forall_cons in Hb as [Hb0 _].
  simpl in *. lia.
Qed.

(** X6.  [add] and [subtract] throw [invalid_argument], each with its own
    message, when the operands have different numbers of rows, no row, or
    rows of different lengths. *)
Theorem add_and_subtract_reject a b r c r' c' :
  shape a r c -> shape b r' c' ->
  r <> r' \/ r = 0 \/ c <> c' ->
  matrix.add a b = Throw (invalid_argument "Invalid dimensions for addition")
  /\ matrix.subtract a b
     = Throw (invalid_argument "Invalid dimensions for subtraction").
Proof.
  intros Ha Hb Hbad.
  unfold matrix.add, matrix.subtract, call, matrix.add_body, matrix.subtract_body.
  now rewrite !(bind_normal _ _ _ _ _ (shapes_differ_true a b r c r' c' _ Ha Hb Hbad)).
Qed.

Lemma add_and_subtract_reject_witness :
  matrix.add [[1; 2]; [3; 4]]%float [[5; 6; 7]; [8; 9; 10]]%float
  = Throw (invalid_argument "Invalid dimensions for addition")
  /\ matrix.subtract [[1; 2]; [3; 4]]%float [[5; 6; 7]; [8; 9; 10]]%float
     = Throw (invalid_argument "Invalid dimensions for subtraction").
Proof.
  apply (add_and_subtract_reject _ _ 2 2 2 3);
    [split; [reflexivity | repeat constructor]..|]. right. right. lia.
Defined.

(** X7.  [add a b] and [add b a] return the same matrix, bit for bit: the sum
    of two doubles does not depend on their order. *)
Theorem add_commutes a b r c :
  shape a r c -> shape b r c -> 1 <= r ->
  exists s, matrix.add a b = Ok s /\ matrix.add b a = Ok s.
Proof.
  intros Ha Hb Hr.
  exists (table r c (fun i j => (entry a i j + entry b i j)%float)).
  split; [now apply add_table|].
  rewrite (add_table b a r c) by done. f_equal. apply table_ext.
  intros i j _ _. apply float_add_comm.
Qed.

Lemma add_commutes_witness :
  exists s, matrix.add [[1; 2]; [3; 4]]%float [[5; 6]; [7; 8]]%float = Ok s
            /\ matrix.add [[5; 6]; [7; 8]]%float [[1; 2]; [3; 4]]%float = Ok s.
Proof.
  apply (add_commutes _ _ 2 2); try lia;
    (split; [reflexivity | repeat constructor]).
Defined.

(** ** [scalar_multiply] *)

Lemma scalar_multiply_table a scalar r c :
  shape a r c ->
  matrix.scalar_multiply a scalar
  = Ok (table r c (fun i j => (entry a i j * scalar)%float)).
Proof.
  intros Ha. unfold matrix.scalar_multiply, call, matrix.scalar_multiply_body.
  rewrite bind_put.
  assert (for_ (R:=matrix.Matrix) 0 (length a) (fun i =>
            a0 <- at_ a 0 ;;
            for_ 0 (length a0) (fun j => update2 i j (fun x => (x * scalar)%float))) a
          = Normal tt (table r c (fun i j => (entry a i j * scalar)%float))) as Hloop.
  { rewrite (proj1 Ha).
    rewrite (for_ext _ _ _ (fun i =>
               for_ 0 c (fun j => update2 i j (fun x => (x * scalar)%float)))).
    2:{ intros i s' Hi.
        destruct (shape_first a r c Ha ltac:(lia)) as (a0 & Ha0 & Hlen).
        now rewrite (bind_normal _ _ _ _ _ (at_lookup a 0 a0 _ Ha0)), Hlen. }
    assert (Hpos := positions_loop (R:=matrix.Matrix) (table r c) r c (table_ext r c)
                      (fun i j => (entry a i j * scalar)%float) (entry a)
                      (fun i j => update2 i j (fun x => (x * scalar)%float))).
    rewrite <- (table_entry a r c Ha) in Hpos. apply Hpos.
    intros i j Hi Hj. rewrite update2_table by done. f_equal. apply table_ext.
    intros i' j' _ _. unfold stage. rewrite visited_next.
    case_decide as H; [|done]. destruct H as [-> ->]. now rewrite visited_self. }
  now rewrite (bind_normal _ _ _ _ _ Hloop).
Qed.

(** X8.  [scalar_multiply] tests nothing and returns the matrix of the shape of
    its argument whose elements are those of the argument times [scalar],
    also for a matrix with no row. *)
Theorem scalar_multiply_computes a scalar r c :
  shape a r c ->
  exists m, matrix.scalar_multiply a scalar = Ok m /\ shape m r c
            /\ forall i j, i < r -> j < c ->
                 entry m i j = (entry a i j * scalar)%float.
Proof.
  intros Ha. exists (table r c (fun i j => (entry a i j * scalar)%float)).
  split; [now apply scalar_multiply_table|]. split; [apply shape_table|].
  intros i j Hi Hj. now rewrite entry_table.
Qed.

Lemma scalar_multiply_computes_witness :
  exists m, matrix.scalar_multiply [[1; 2]; [3; 4]]%float 2%float = Ok m
            /\ shape m 2 2
            /\ forall i j, i < 2 -> j < 2 ->
                 entry m i j = (entry [[1; 2]; [3; 4]] i j * 2)%float.
Proof.
  apply (scalar_multiply_computes _ _ 2 2).
  split; [reflexivity | repeat constructor].
Defined.

(** X9.  Scaling and transposing commute: the transpose of the scaled matrix is
    the scaled transpose. *)
Theorem scalar_multiply_transpose a scalar r c :
  shape a r c -> 1 <= r ->
  exists m,
    and_then (matrix.scalar_multiply a scalar) matrix.transpose = Ok m
    /\ and_then (matrix.transpose a) (fun t => matrix.scalar_multiply t scalar) = Ok m.
Proof.
  intros Ha Hr. exists (table c r (fun j i => (entry a i j * scalar)%float)). split.
  - rewrite (scalar_multiply_table a scalar r c) by done. simpl.
    rewrite (transpose_table _ r c) by (done || apply shape_table).
    f_equal. apply table_ext. intros j i Hj Hi. now rewrite entry_table.
  - rewrite (transpose_table a r c) by done. simpl.
    rewrite (scalar_multiply_table _ scalar c r) by apply shape_table.
    f_equal. apply table_ext. intros j i Hj Hi. now rewrite entry_table.
Qed.

Lemma scalar_multiply_transpose_witness :
  exists m,
    and_then (matrix.scalar_multiply [[1; 2; 3]; [4; 5; 6]]%float 2%float)
             matrix.transpose = Ok m
    /\ and_then (matrix.transpose [[1; 2; 3]; [4; 5; 6]]%float)
                (fun t => matrix.scalar_multiply t 2%float) = Ok m.
Proof.
  apply (scalar_multiply_transpose _ _ 2 3); [|lia].
  split; [reflexivity | repeat constructor].
Defined.

(** ** Cross products *)

(** X10.  [cross_product] of [matrix.cpp] and [crossProduct] of [matrix_ops.cpp]
    return the same vector
    [(a1*b2 - a2*b1, a2*b0 - a0*b2, a0*b1 - a1*b0)] for vectors of three
    elements, and throw [invalid_argument], each with its own message, for
    all others. *)
Theorem cross_products (a b : Vector) :
  (length a = 3 -> length b = 3 ->
     matrix.cross_product a b = Ok (cross_of a b)
     /\ matrix_ops.crossProduct a b = Ok (cross_of a b))
  /\ (length a <> 3 \/ length b <> 3 ->
        matrix.cross_product a b
        = Throw (invalid_argument "Cross product requires 3D vectors")
        /\ matrix_ops.crossProduct a b
           = Throw (invalid_argument "Cross product only defined for 3D vectors")).
Proof.
  split.
  - intros Ha Hb.
    destruct a as [|a0 [|a1 [|a2 [|]]]]; try discriminate.
    destruct b as [|b0 [|b1 [|b2 [|]]]]; try discriminate.
    now split.
  - intros Hbad.
    unfold matrix.cross_product, matrix_ops.crossProduct, call,
      matrix.cross_product_body, matrix_ops.crossProduct_body.
    replace (nat_neq (length a) 3 || nat_neq (length b) 3) with true; [done|].
    symmetry. apply orb_true_iff. destruct Hbad; [left|right]; now apply nat_neq_true.
Qed.

Lemma cross_products_witness :
  (matrix.cross_product [1; 0; 0]%float [0; 1; 0]%float = Ok [0; 0; 1]%float
   /\ matrix_ops.crossProduct [1; 0; 0]%float [0; 1; 0]%float = Ok [0; 0; 1]%float)
  /\ (matrix.cross_product [1; 0]%float [0; 1; 0]%float
      = Throw (invalid_argument "Cross product requires 3D vectors")
      /\ matrix_ops.crossProduct [1; 0]%float [0; 1; 0]%float
         = Throw (invalid_argument "Cross product only defined for 3D vectors")).
Proof.
  split.
  - apply (proj1 (cross_products [1; 0; 0]%float [0; 1; 0]%float)); reflexivity.
  - apply (proj2 (cross_products [1; 0]%float [0; 1; 0]%float)). left. simpl. lia.
Defined.

(** ** Dot products and [matrix_multiply] *)

Lemma sum_of_products_comm a b :
  length a = length b -> sum_of_products a b = sum_of_products b a.
Proof.
  intros Hlen. unfold sum_of_products. rewrite <- Hlen.
  apply sum_upto_ext. intros k _. apply float_mul_comm.
Qed.

(** X11.  [dot_product] of [matrix.cpp] and [dotProduct] of [matrix_ops.cpp] do
    not depend on the order of their arguments: the value, or the
    exception, is the same bit for bit. *)
Theorem dot_products_commute (a b : Vector) :
  matrix.dot_product a b = matrix.dot_product b a /\
  matrix_ops.dotProduct a b = matrix_ops.dotProduct b a.
Proof.
  unfold matrix.dot_product, matrix_ops.dotProduct, call,
    matrix.dot_product_body, matrix_ops.dotProduct_body.
  destruct (decide (length a = length b)) as [Hlen|Hlen].
  - rewrite !nat_neq_false by done. rewrite !bind_put.
    rewrite !(bind_normal _ _ _ _ _ (products_loop a b Hlen)).
    rewrite !(bind_normal _ _ _ _ _ (products_loop b a (eq_sym Hlen))).
    unfold bind, get, return_. now rewrite (sum_of_products_comm a b Hlen).
  - now rewrite !nat_neq_true by done.
Qed.

(** X12.  Element [(i, j)] of the matrix that [matrix_multiply] returns is the
    number that [dot_product] returns for row [i] of [a] and row [j] of the
    transpose of [b], bit for bit. *)
Theorem product_of_dot_products a b m n p i j :
  shape a m n -> shape b n p -> 1 <= m -> 1 <= n -> i < m -> j < p ->
  exists c t row col,
    matrix.matrix_multiply a b = Ok c /\ matrix.transpose b = Ok t /\
    a !! i = Some row /\ t !! j = Some col /\
    matrix.dot_product row col = Ok (entry c i j).
Proof.
  intros Ha Hb Hm Hn Hi Hj.
  destruct (shape_lookup a m n i Ha Hi) as (row & Hrow & Hlen).
  exists (table m p (product_entry a b n)), (table p n (fun j i => entry b i j)),
    row, ((fun k => entry b k j) <$> seq 0 n).
  split; [now apply matrix_multiply_table|].
  split; [now apply transpose_table|].
  split; [done|]. split; [now apply lookup_table|].
  rewrite entry_table by done.
  unfold matrix.dot_product, call, matrix.dot_product_body.
  assert (Hcol : length row = length ((fun k => entry b k j) <$> seq 0 n))
    by now rewrite length_fmap, length_seq.
  rewrite nat_neq_false by done. rewrite bind_put.
  rewrite (bind_normal _ _ _ _ _ (products_loop _ _ Hcol)).
  unfold bind, get, return_. f_equal. unfold sum_of_products, product_entry. rewrite Hlen.
  apply sum_upto_ext. intros k Hk. rewrite lookup_row by done.
  unfold entry. now rewrite Hrow.
Qed.

Lemma product_of_dot_products_witness :
  exists c t row col,
    matrix.matrix_multiply [[1; 2; 3]; [4; 5; 6]]%float
      [[1; 2]; [3; 4]; [5; 6]]%float = Ok c /\
    matrix.transpose [[1; 2]; [3; 4]; [5; 6]]%float = Ok t /\
    [[1; 2; 3]; [4; 5; 6]]%float !! 1 = Some row /\ t !! 0 = Some col /\
    matrix.dot_product row col = Ok (entry c 1 0).
Proof.
  apply (product_of_dot_products [[1; 2; 3]; [4; 5; 6]]%float
           [[1; 2]; [3; 4]; [5; 6]]%float 2 3 2 1 0); try lia;
    (split; [reflexivity | repeat constructor]).
Defined.

(** ** Eliminations on the elements *)

Ltac pointwise :=
  intros;
  unfold upd, scale_row, eliminate_column, both_halves, beside_identity,
    scale_row_from, eliminate_column_from, solve_pass, determinant_pass,
    gauss_jordan_pass, beside_vector in *;
  repeat case_decide; try done; try lia;
  try (destruct_and?; subst; first [done | lia | (exfalso; lia) | (exfalso; tauto)]).

(** *** [inverse] of [matrix.cpp] *)

Section InverseVars.
Context (a0 : Grid) (n : nat).

Lemma inverse_vars_ext A B :
  (forall k c, k < n -> c < 2 * n -> A k c = B k c) ->
  inverse_vars_of a0 n A = inverse_vars_of a0 n B.
Proof.
  intros HAB. unfold inverse_vars_of. f_equal; apply table_ext; intros k j Hk Hj;
    apply HAB; lia.
Qed.

Lemma temp_load A k j :
  k < n -> j < n ->
  matrix.on_temp (R:=Grid) (load2 k j) (inverse_vars_of a0 n A)
  = Normal (A k j) (inverse_vars_of a0 n A).
Proof.
  intros Hk Hj. unfold matrix.on_temp, zoom, inverse_vars_of. simpl.
  now rewrite load2_table.
Qed.

Lemma out_load A k j :
  k < n -> j < n ->
  matrix.on_out (R:=Grid) (load2 k j) (inverse_vars_of a0 n A)
  = Normal (A k (j + n)) (inverse_vars_of a0 n A).
Proof.
  intros Hk Hj. unfold matrix.on_out, zoom, inverse_vars_of. simpl.
  now rewrite load2_table.
Qed.

Lemma temp_update A k j f :
  k < n -> j < n ->
  matrix.on_temp (R:=Grid) (update2 k j f) (inverse_vars_of a0 n A)
  = Normal tt (inverse_vars_of a0 n (upd A k j (f (A k j)))).
Proof.
  intros Hk Hj. unfold matrix.on_temp, zoom, inverse_vars_of. simpl.
  rewrite update2_table by done. simpl. f_equal. f_equal.
  apply table_ext. pointwise.
Qed.

Lemma out_update A k j f :
  k < n -> j < n ->
  matrix.on_out (R:=Grid) (update2 k j f) (inverse_vars_of a0 n A)
  = Normal tt (inverse_vars_of a0 n (upd A k (j + n) (f (A k (j + n))))).
Proof.
  intros Hk Hj. unfold matrix.on_out, zoom, inverse_vars_of. simpl.
  rewrite update2_table by done. simpl. f_equal. f_equal; apply table_ext; pointwise.
Qed.

Lemma out_store A k j x :
  k < n -> j < n ->
  matrix.on_out (R:=Grid) (store2 k j x) (inverse_vars_of a0 n A)
  = Normal tt (inverse_vars_of a0 n (upd A k (j + n) x)).
Proof.
  intros Hk Hj. unfold matrix.on_out, zoom, inverse_vars_of. simpl.
  rewrite store2_table by done. simpl. f_equal. f_equal; apply table_ext; pointwise.
Qed.

(** The loop that divides row [i] of [temp] and of [result] by the pivot. *)
Lemma scale_loop A i p :
  i < n ->
  for_ (R:=Grid) 0 n (fun j =>
    matrix.on_temp (update2 i j (fun t => (t / p)%float)) ;;
    matrix.on_out (update2 i j (fun r => (r / p)%float))) (inverse_vars_of a0 n A)
  = Normal tt (inverse_vars_of a0 n (scale_row i p A)).
Proof.
  intros Hi.
  pose (F := fun j => inverse_vars_of a0 n (fun k c =>
                if decide (k = i /\ both_halves n j c) then (A k c / p)%float
                else A k c)).
  replace (inverse_vars_of a0 n A) with (F 0) by (apply inverse_vars_ext; pointwise).
  replace (inverse_vars_of a0 n (scale_row i p A)) with (F n)
    by (apply inverse_vars_ext; pointwise).
  apply (for_run F); [lia|]. intros j Hj. unfold F.
  rewrite (bind_normal _ _ _ _ _ (temp_update _ i j _ Hi ltac:(lia))).
  rewrite out_update by lia. f_equal. apply inverse_vars_ext. pointwise.
Qed.

(** The loop that clears column [i] in the other rows. *)
Lemma eliminate_loop A i :
  i < n ->
  for_ (R:=Grid) 0 n (fun k =>
    if nat_neq k i
    then
      factor <- matrix.on_temp (load2 k i) ;;
      for_ 0 n (fun j =>
        tij <- matrix.on_temp (load2 i j) ;;
        matrix.on_temp (update2 k j (fun t => (t - factor * tij)%float)) ;;
        rij <- matrix.on_out (load2 i j) ;;
        matrix.on_out (update2 k j (fun r => (r - factor * rij)%float)))
    else ret tt) (inverse_vars_of a0 n A)
  = Normal tt (inverse_vars_of a0 n (eliminate_column i A)).
Proof.
  intros Hi.
  pose (F := fun k => inverse_vars_of a0 n (fun k' c =>
                if decide (k' < k) then eliminate_column i A k' c else A k' c)).
  replace (inverse_vars_of a0 n A) with (F 0) by (apply inverse_vars_ext; pointwise).
  replace (inverse_vars_of a0 n (eliminate_column i A)) with (F n)
    by (apply inverse_vars_ext; pointwise).
  apply (for_run F); [lia|]. intros k Hk. unfold F.
  destruct (decide (k = i)) as [->|Hne].
  - rewrite nat_neq_false by done. unfold ret. f_equal.
    apply inverse_vars_ext. pointwise.
  - rewrite nat_neq_true by done.
    rewrite (bind_normal _ _ _ _ _ (temp_load _ k i ltac:(lia) Hi)).
    set (B := fun k' c => if decide (k' < k) then eliminate_column i A k' c
                          else A k' c).
    pose (G := fun j => inverse_vars_of a0 n (fun k' c =>
                  if decide (k' = k /\ both_halves n j c)
                  then eliminate_column i A k' c else B k' c)).
    replace (inverse_vars_of a0 n B) with (G 0) by (apply inverse_vars_ext; pointwise).
    replace (inverse_vars_of a0 n (fun k' c =>
               if decide (k' < Datatypes.S k) then eliminate_column i A k' c
               else A k' c)) with (G n)
      by (apply inverse_vars_ext; subst B; pointwise).
    apply (for_run G); [lia|]. intros j Hj. unfold G.
    rewrite (bind_normal _ _ _ _ _ (temp_load _ i j Hi ltac:(lia))).
    rewrite (bind_normal _ _ _ _ _ (temp_update _ k j _ ltac:(lia) ltac:(lia))).
    rewrite (bind_normal _ _ _ _ _ (out_load _ i j Hi ltac:(lia))).
    rewrite out_update by lia. f_equal. apply inverse_vars_ext.
    subst B. pointwise.
Qed.

(** Iteration [i] on a pivot that passes the test. *)
Lemma inverse_step_pass A i :
  i < n -> below_tolerance (A i i) = false ->
  matrix.inverse_step n i (inverse_vars_of a0 n A)
  = Normal tt (inverse_vars_of a0 n (gauss_jordan_pass i A)).
Proof.
  intros Hi Hp. unfold matrix.inverse_step.
  rewrite (bind_normal _ _ _ _ _ (temp_load _ i i Hi Hi)). rewrite Hp.
  rewrite (bind_normal _ _ _ _ _ (scale_loop _ i _ Hi)).
  now apply eliminate_loop.
Qed.

(** Iteration [i] on a pivot below the tolerance. *)
Lemma inverse_step_small A i :
  i < n -> below_tolerance (A i i) = true ->
  matrix.inverse_step n i (inverse_vars_of a0 n A)
  = Thrown (runtime_error "Matrix is singular") (inverse_vars_of a0 n A).
Proof.
  intros Hi Hp. unfold matrix.inverse_step.
  rewrite (bind_normal _ _ _ _ _ (temp_load _ i i Hi Hi)). now rewrite Hp.
Qed.

(** The first [i] iterations. *)
Lemma inverse_steps A i :
  i <= n ->
  match passes gauss_jordan_pass i A with
  | Some A' =>
      for_ 0 i (matrix.inverse_step n) (inverse_vars_of a0 n A)
      = Normal tt (inverse_vars_of a0 n A')
  | None =>
      exists s, for_ 0 i (matrix.inverse_step n) (inverse_vars_of a0 n A)
                = Thrown (runtime_error "Matrix is singular") s
  end.
Proof.
  induction i as [|i IH]; intros Hi; simpl; [done|].
  specialize (IH ltac:(lia)). rewrite (for_split 0 i (Datatypes.S i)) by lia.
  destruct (passes gauss_jordan_pass i A) as [A'|].
  - rewrite (bind_normal _ _ _ _ _ IH). rewrite for_first by lia.
    destruct (below_tolerance (A' i i)) eqn:Hp.
    + eexists. unfold bind. now rewrite inverse_step_small.
    + rewrite (bind_normal _ _ _ _ _ (inverse_step_pass _ i ltac:(lia) Hp)).
      unfold for_. now replace (Datatypes.S i - Datatypes.S i) with 0 by lia.
  - destruct IH as [s Hs]. exists s. unfold bind. now rewrite Hs.
Qed.
End InverseVars.

(** The setup of [inverse] on a square matrix. *)
Lemma inverse_setup_square a n :
  shape a n n -> 1 <= n ->
  matrix.inverse_setup (matrix.inverse_entry a)
  = Normal n (inverse_vars_of a n (beside_identity n a)).
Proof.
  intros Ha Hn. unfold matrix.inverse_setup, matrix.inverse_entry.
  rewrite bind_gets. cbn [matrix.args].
  unfold orelse. rewrite (shape_nonempty a n n) by done.
  destruct (shape_first a n n Ha Hn) as (a0 & Ha0 & Hla).
  unfold bind at 1. unfold bind at 1. rewrite (at_lookup a 0 a0 _ Ha0).
  unfold ret at 1. rewrite Hla, (proj1 Ha), nat_neq_false by done.
  unfold bind at 1. unfold matrix.on_out at 1, zoom, put. cbn [matrix.out matrix.args matrix.temp].
  unfold bind at 1. unfold matrix.on_temp at 1, zoom. cbn [matrix.out matrix.args matrix.temp].
  pose (F := fun i => inverse_vars_of a n (fun k c =>
                if decide (c < n) then entry a k c
                else if decide (c - n = k /\ k < i) then 1%float else 0%float)).
  assert (Hrun : for_ (R:=Grid) 0 n (fun i => matrix.on_out (store2 i i 1%float)) (F 0)
                 = Normal tt (F n)).
  { apply (for_run F); [lia|]. intros i Hi. unfold F.
    rewrite out_store by lia. f_equal. apply inverse_vars_ext. pointwise. }
  replace (matrix.Frame a a (replicate n (replicate n 0%float)))
    with (F 0).
  2:{ unfold F, inverse_vars_of. f_equal.
      - etrans; [|symmetry; apply (table_entry _ n n Ha)]. apply table_ext. pointwise.
      - rewrite replicate_table. apply table_ext. pointwise. }
  rewrite (bind_normal _ _ _ _ _ Hrun). unfold ret. f_equal.
  apply inverse_vars_ext. pointwise.
Qed.

(** [inverse] of [matrix.cpp] on a square matrix, in terms of the
    elimination on the elements. *)
Lemma inverse_elements a n :
  shape a n n -> 1 <= n ->
  matrix.inverse a =
  match passes gauss_jordan_pass n (beside_identity n a) with
  | Some A => Ok (right_half n A)
  | None => Throw (runtime_error "Matrix is singular")
  end.
Proof.
  intros Ha Hn. unfold matrix.inverse, matrix.inverse_body, call.
  rewrite (bind_normal _ _ _ _ _ (inverse_setup_square a n Ha Hn)).
  pose proof (inverse_steps a n (beside_identity n a) n ltac:(lia)) as Hsteps.
  destruct (passes gauss_jordan_pass n (beside_identity n a)) as [A|].
  - rewrite (bind_normal _ _ _ _ _ Hsteps). now rewrite bind_gets.
  - destruct Hsteps as [s Hs]. unfold bind. now rewrite Hs.
Qed.

(** The pivot that iteration [i] of [inverse] reads. *)
Lemma inverse_pivot_elements a n i :
  shape a n n -> i < n ->
  matrix.inverse_pivot a i =
  match passes gauss_jordan_pass i (beside_identity n a) with
  | Some A => Some (A i i)
  | None => None
  end.
Proof.
  intros Ha Hi. unfold matrix.inverse_pivot.
  rewrite decide_True by (now rewrite (proj1 Ha)).
  rewrite (bind_normal _ _ _ _ _ (inverse_setup_square a n Ha ltac:(lia))).
  pose proof (inverse_steps a n (beside_identity n a) i ltac:(lia)) as Hsteps.
  destruct (passes gauss_jordan_pass i (beside_identity n a)) as [A|].
  - rewrite (bind_normal _ _ _ _ _ Hsteps). now rewrite temp_load.
  - destruct Hsteps as [s Hs]. unfold bind. now rewrite Hs.
Qed.

Lemma passes_le pass i j A :
  i <= j -> passes pass i A = None -> passes pass j A = None.
Proof.
  intros Hij Hi. induction Hij as [|j Hij IH]; [done|]. simpl. now rewrite IH.
Qed.

(** The elimination stops exactly when an iteration reads a small pivot. *)
Lemma passes_None pass n A0 :
  passes pass n A0 = None <->
  exists i A, i < n /\ passes pass i A0 = Some A /\
              below_tolerance (A i i) = true.
Proof.
  split.
  - induction n as [|n IH]; simpl; [done|].
    destruct (passes pass n A0) as [A|] eqn:Hn.
    + destruct (below_tolerance (A n n)) eqn:Hp; [|done].
      intros _. exists n, A. auto.
    + intros _. destruct (IH eq_refl) as (i & A & Hi & HA & Hp).
      exists i, A. auto with lia.
  - intros (i & A & Hi & HA & Hp).
    apply (passes_le pass (Datatypes.S i)); [lia|]. simpl. now rewrite HA, Hp.
Qed.

Lemma inverse_meets_small_pivot a n :
  shape a n n ->
  meets_small_pivot (matrix.inverse_pivot a) <->
  passes gauss_jordan_pass n (beside_identity n a) = None.
Proof.
  intros Ha. rewrite passes_None. split.
  - intros (i & p & Hp & Hsmall).
    assert (Hi : i < n).
    { unfold matrix.inverse_pivot in Hp. case_decide; [|done]. now rewrite <- (proj1 Ha). }
    rewrite (inverse_pivot_elements a n i Ha Hi) in Hp.
    destruct (passes gauss_jordan_pass i (beside_identity n a)) as [A|] eqn:HA; [|done].
    exists i, A. injection Hp as Hp. subst p. done.
  - intros (i & A & Hi & HA & Hp). exists i, (A i i).
    now rewrite (inverse_pivot_elements a n i Ha Hi), HA.
Qed.


(** *** The elimination of [Matrix::inverse] *)

Section Augmented.
Context (n : nat) (inv0 : matrix_ops.Matrix).

Lemma augmented_ext A B :
  (forall k c, k < n -> c < 2 * n -> A k c = B k c) ->
  augmented_of n inv0 A = augmented_of n inv0 B.
Proof.
  intros HAB. unfold augmented_of. do 2 f_equal. now apply table_ext.
Qed.

Lemma augmented_load A k c :
  k < n -> c < 2 * n ->
  matrix_ops.on_augmented (R:=matrix_ops.Matrix) (load2 k c) (augmented_of n inv0 A)
  = Normal (A k c) (augmented_of n inv0 A).
Proof.
  intros Hk Hc. unfold matrix_ops.on_augmented, matrix_ops.on_data, zoom, augmented_of.
  simpl. now rewrite load2_table.
Qed.

Lemma augmented_update A k c f :
  k < n -> c < 2 * n ->
  matrix_ops.on_augmented (R:=matrix_ops.Matrix) (update2 k c f) (augmented_of n inv0 A)
  = Normal tt (augmented_of n inv0 (upd A k c (f (A k c)))).
Proof.
  intros Hk Hc. unfold matrix_ops.on_augmented, matrix_ops.on_data, zoom, augmented_of.
  simpl. now rewrite update2_table.
Qed.

Lemma augmented_store A k c x :
  k < n -> c < 2 * n ->
  matrix_ops.on_augmented (R:=matrix_ops.Matrix) (store2 k c x) (augmented_of n inv0 A)
  = Normal tt (augmented_of n inv0 (upd A k c x)).
Proof.
  intros Hk Hc. unfold matrix_ops.on_augmented, matrix_ops.on_data, zoom, augmented_of.
  simpl. now rewrite store2_table.
Qed.

Context (this : matrix_ops.Matrix).
Context (Hrows : matrix_ops.rows this = n) (Hcols : matrix_ops.cols this = n).

Lemma gauss_jordan_step_pass A i :
  i < n -> below_tolerance (A i i) = false ->
  matrix_ops.gauss_jordan_step this i (augmented_of n inv0 A)
  = Normal tt (augmented_of n inv0 (gauss_jordan_pass i A)).
Proof using Hrows Hcols.
  intros Hi Hp. unfold matrix_ops.gauss_jordan_step. rewrite Hrows, Hcols.
  rewrite (bind_normal _ _ _ _ _ (augmented_load _ i i Hi ltac:(lia))). rewrite Hp.
  set (p := A i i).
  pose (F := fun j => augmented_of n inv0 (fun k c =>
                if decide (k = i /\ c < j) then (A k c / p)%float else A k c)).
  assert (Hscale : for_ (R:=matrix_ops.Matrix) 0 (2 * n) (fun j =>
            matrix_ops.on_augmented (update2 i j (fun x => (x / p)%float))) (F 0)
          = Normal tt (F (2 * n))).
  { apply (for_run F); [lia|]. intros j Hj. unfold F.
    rewrite augmented_update by lia. f_equal. apply augmented_ext. pointwise. }
  replace (augmented_of n inv0 A) with (F 0) by (apply augmented_ext; pointwise).
  rewrite (bind_normal _ _ _ _ _ Hscale).
  replace (F (2 * n)) with (augmented_of n inv0 (scale_row i p A))
    by (apply augmented_ext; pointwise).
  clear F Hscale. unfold gauss_jordan_pass. fold p.
  generalize (scale_row i p A). clear A Hp p. intros A.
  pose (F := fun k => augmented_of n inv0 (fun k' c =>
                if decide (k' < k) then eliminate_column i A k' c else A k' c)).
  replace (augmented_of n inv0 A) with (F 0) by (apply augmented_ext; pointwise).
  replace (augmented_of n inv0 (eliminate_column i A)) with (F n)
    by (apply augmented_ext; pointwise).
  apply (for_run F); [lia|]. intros k Hk. unfold F.
  destruct (decide (k = i)) as [->|Hne].
  - rewrite nat_neq_false by done. unfold ret. f_equal.
    apply augmented_ext. pointwise.
  - rewrite nat_neq_true by done.
    rewrite (bind_normal _ _ _ _ _ (augmented_load _ k i ltac:(lia) ltac:(lia))).
    set (B := fun k' c => if decide (k' < k) then eliminate_column i A k' c
                          else A k' c).
    pose (G := fun j => augmented_of n inv0 (fun k' c =>
                  if decide (k' = k /\ c < j)
                  then eliminate_column i A k' c else B k' c)).
    replace (augmented_of n inv0 B) with (G 0) by (apply augmented_ext; pointwise).
    replace (augmented_of n inv0 (fun k' c =>
               if decide (k' < Datatypes.S k) then eliminate_column i A k' c
               else A k' c)) with (G (2 * n))
      by (apply augmented_ext; subst B; pointwise).
    apply (for_run G); [lia|]. intros j Hj. unfold G.
    rewrite (bind_normal _ _ _ _ _ (augmented_load _ i j Hi ltac:(lia))).
    rewrite augmented_update by lia. f_equal. apply augmented_ext.
    subst B. pointwise.
Qed.

Lemma gauss_jordan_step_small A i :
  i < n -> below_tolerance (A i i) = true ->
  matrix_ops.gauss_jordan_step this i (augmented_of n inv0 A)
  = Thrown (invalid_argument "Matrix is singular") (augmented_of n inv0 A).
Proof using Hrows Hcols.
  intros Hi Hp. unfold matrix_ops.gauss_jordan_step.
  rewrite (bind_normal _ _ _ _ _ (augmented_load _ i i Hi ltac:(lia))). now rewrite Hp.
Qed.

Lemma gauss_jordan_steps A i :
  i <= n ->
  match passes gauss_jordan_pass i A with
  | Some A' =>
      for_ 0 i (matrix_ops.gauss_jordan_step this) (augmented_of n inv0 A)
      = Normal tt (augmented_of n inv0 A')
  | None =>
      exists s, for_ 0 i (matrix_ops.gauss_jordan_step this) (augmented_of n inv0 A)
                = Thrown (invalid_argument "Matrix is singular") s
  end.
Proof using Hrows Hcols.
  induction i as [|i IH]; intros Hi; simpl; [done|].
  specialize (IH ltac:(lia)). rewrite (for_split 0 i (Datatypes.S i)) by lia.
  destruct (passes gauss_jordan_pass i A) as [A'|].
  - rewrite (bind_normal _ _ _ _ _ IH). rewrite for_first by lia.
    destruct (below_tolerance (A' i i)) eqn:Hp.
    + eexists. unfold bind. now rewrite gauss_jordan_step_small.
    + rewrite (bind_normal _ _ _ _ _ (gauss_jordan_step_pass _ i ltac:(lia) Hp)).
      unfold for_. now replace (Datatypes.S i - Datatypes.S i) with 0 by lia.
  - destruct IH as [s Hs]. exists s. unfold bind. now rewrite Hs.
Qed.

Context (Hdata : shape (matrix_ops.data this) n n).

Lemma augment_elements inv1 :
  matrix_ops.augment this
    (matrix_ops.InverseVars inv1 inv0)
  = Normal tt (augmented_of n inv0 (beside_identity n (matrix_ops.data this))).
Proof using Hrows Hcols Hdata.
  unfold matrix_ops.augment. rewrite Hrows, Hcols.
  unfold bind at 1, modify at 1. cbn [matrix_ops.inv].
  unfold matrix_ops.Matrix_zero. rewrite replicate_table.
  set (a := matrix_ops.data this) in *.
  pose (F := fun i => augmented_of n inv0 (fun k c =>
                if decide (k < i) then beside_identity n a k c else 0%float)).
  change (matrix_ops.InverseVars _ inv0) with (F 0).
  replace (augmented_of n inv0 (beside_identity n a)) with (F n)
    by (apply augmented_ext; pointwise).
  apply (for_run F); [lia|]. intros i Hi. unfold F.
  pose (G := fun j => augmented_of n inv0 (fun k c =>
                if decide (k < i \/ (k = i /\ both_halves n j c))
                then beside_identity n a k c else 0%float)).
  replace (augmented_of n inv0 (fun k c =>
             if decide (k < i) then beside_identity n a k c else 0%float))
    with (G 0) by (apply augmented_ext; pointwise).
  replace (augmented_of n inv0 (fun k c =>
             if decide (k < Datatypes.S i) then beside_identity n a k c else 0%float))
    with (G n) by (apply augmented_ext; pointwise).
  apply (for_run G); [lia|]. intros j Hj. unfold G.
  unfold matrix_ops.elem. fold a.
  rewrite (bind_normal _ _ _ _ _ (at2_entry a n n i j _ Hdata ltac:(lia) ltac:(lia))).
  rewrite (bind_normal _ _ _ _ _ (augmented_store _ i j _ ltac:(lia) ltac:(lia))).
  rewrite augmented_store by lia. f_equal. apply augmented_ext.
  intros k c Hk Hc. unfold upd, beside_identity, both_halves.
  destruct (Nat.eqb_spec i j); repeat case_decide; try done; try lia;
    try (destruct_and?; subst; first [done | lia | (exfalso; lia)]).
Qed.

Lemma extract_elements A :
  matrix_ops.extract this (augmented_of n inv0 A)
  = Normal tt (matrix_ops.InverseVars
                 (matrix_ops.mkMatrix (table n (2 * n) A) n (2 * n))
                 (matrix_ops.mkMatrix (right_half n A) n n)).
Proof using Hrows Hcols.
  unfold matrix_ops.extract. rewrite Hrows, Hcols.
  unfold bind at 1, modify at 1. unfold augmented_of at 1. cbn [matrix_ops.augmented].
  unfold matrix_ops.Matrix_zero. rewrite replicate_table.
  pose (layout := fun f : nat -> nat -> float =>
          matrix_ops.InverseVars
            (matrix_ops.mkMatrix (table n (2 * n) A) n (2 * n))
            (matrix_ops.mkMatrix (table n n f) n n)).
  apply (positions_loop (R:=matrix_ops.Matrix) layout n n
           ltac:(intros f g Hfg; unfold layout; do 2 f_equal; apply table_ext; auto)
           (fun k j => A k (j + n)) (fun _ _ => 0%float)).
  intros i j Hi Hj. unfold layout.
  set (f := stage i j _ _).
  unfold bind, matrix_ops.on_augmented, matrix_ops.on_inv, matrix_ops.on_data, zoom, compose.
  cbn [matrix_ops.inv matrix_ops.data matrix_ops.augmented matrix_ops.rows matrix_ops.cols].
  rewrite load2_table by lia.
  cbn [matrix_ops.inv matrix_ops.data matrix_ops.augmented matrix_ops.rows matrix_ops.cols].
  rewrite store2_table by lia. subst f.
  do 3 f_equal. apply table_ext. intros i' j' _ _. unfold stage.
  rewrite visited_next.
  case_decide as H; [|done]. now destruct H as [-> ->].
Qed.
End Augmented.

(** [Matrix::inverse] from the declaration of [augmented] on, in terms of the
    elimination on the elements. *)
Lemma gauss_jordan_elements this n :
  matrix_ops.rows this = n -> matrix_ops.cols this = n ->
  shape (matrix_ops.data this) n n ->
  call (matrix_ops.gauss_jordan this) matrix_ops.inverse_entry =
  match passes gauss_jordan_pass n (beside_identity n (matrix_ops.data this)) with
  | Some A => Ok (matrix_ops.mkMatrix (right_half n A) n n)
  | None => Throw (invalid_argument "Matrix is singular")
  end.
Proof.
  intros Hrows Hcols Hdata. unfold matrix_ops.gauss_jordan, call, matrix_ops.inverse_entry.
  rewrite (bind_normal _ _ _ _ _ (augment_elements n _ this Hrows Hcols Hdata _)).
  pose proof (gauss_jordan_steps n (matrix_ops.Matrix_zero 0 0) this Hrows Hcols
                (beside_identity n (matrix_ops.data this)) n ltac:(lia)) as Hsteps.
  rewrite Hrows.
  destruct (passes gauss_jordan_pass n (beside_identity n (matrix_ops.data this))) as [A|].
  - rewrite (bind_normal _ _ _ _ _ Hsteps).
    rewrite (bind_normal _ _ _ _ _ (extract_elements n _ this Hrows Hcols A)).
    now rewrite bind_gets.
  - destruct Hsteps as [s Hs]. unfold bind. now rewrite Hs.
Qed.

(** *** [solve] *)

(** *** Reads and writes of a vector *)

Section RowAccess.
Context {R : Type}.

Lemma length_row_of n g : length (row_of n g) = n.
Proof. unfold row_of. now rewrite length_fmap, length_seq. Qed.

Lemma row_of_ext n f g : (forall k, k < n -> f k = g k) -> row_of n f = row_of n g.
Proof.
  intros Hfg. unfold row_of. apply list_eq. intros k. rewrite !list_lookup_fmap.
  destruct (seq 0 n !! k) as [k'|] eqn:Hk; [|done]. simpl.
  apply lookup_seq in Hk as [-> Hk]. f_equal. now apply Hfg.
Qed.

Lemma row_of_element b n : length b = n -> b = row_of n (element b).
Proof.
  intros Hb. apply list_eq. intros k. unfold row_of, element.
  destruct (decide (k < n)) as [Hk|Hk].
  - rewrite lookup_row by done.
    destruct (lookup_lt_is_Some_2 b k) as [x Hx]; [lia|]. now rewrite Hx.
  - rewrite !lookup_ge_None_2; [done| |]; rewrite ?length_fmap, ?length_seq; lia.
Qed.

Lemma load_row_of n g k :
  k < n -> load (R:=R) k (row_of n g) = Normal (g k) (row_of n g).
Proof. intros Hk. unfold load, row_of. now rewrite lookup_row. Qed.

Lemma store_row_of n g k x :
  k < n ->
  store (R:=R) k x (row_of n g)
  = Normal tt (row_of n (fun k' => if decide (k' = k) then x else g k')).
Proof.
  intros Hk. unfold store. rewrite decide_True by (now rewrite length_row_of).
  f_equal. unfold row_of. apply list_eq. intros k'.
  destruct (decide (k' < n)) as [Hk'|Hk'].
  - rewrite lookup_row by done. destruct (decide (k' = k)) as [->|Hne].
    + now rewrite list_lookup_insert_eq by (now rewrite length_fmap, length_seq).
    + now rewrite list_lookup_insert_ne, lookup_row by done.
  - rewrite !lookup_ge_None_2; [done| |];
      rewrite ?length_insert, ?length_fmap, ?length_seq; lia.
Qed.

Lemma update_row_of n g k f :
  k < n ->
  update (R:=R) k f (row_of n g)
  = Normal tt (row_of n (fun k' => if decide (k' = k) then f (g k) else g k')).
Proof.
  intros Hk. unfold update.
  rewrite (bind_normal _ _ _ _ _ (load_row_of n g k Hk)). now apply store_row_of.
Qed.
End RowAccess.

Section SolveVars.
Context (a0 : Grid) (b0 : Vector) (n : nat).

Lemma solve_vars_ext A B :
  (forall k c, k < n -> c <= n -> A k c = B k c) ->
  solve_vars_of a0 b0 n A = solve_vars_of a0 b0 n B.
Proof.
  intros HAB. unfold solve_vars_of. f_equal.
  - apply table_ext. intros k j Hk Hj. apply HAB; lia.
  - apply row_of_ext. intros k Hk. apply HAB; lia.
Qed.

Lemma solve_temp_load A k j :
  k < n -> j < n ->
  matrix.on_temp (R:=Vector) (load2 k j) (solve_vars_of a0 b0 n A)
  = Normal (A k j) (solve_vars_of a0 b0 n A).
Proof.
  intros Hk Hj. unfold matrix.on_temp, zoom, solve_vars_of. simpl.
  now rewrite load2_table.
Qed.

Lemma solve_temp_update A k j f :
  k < n -> j < n ->
  matrix.on_temp (R:=Vector) (update2 k j f) (solve_vars_of a0 b0 n A)
  = Normal tt (solve_vars_of a0 b0 n (upd A k j (f (A k j)))).
Proof.
  intros Hk Hj. unfold matrix.on_temp, zoom, solve_vars_of. simpl.
  rewrite update2_table by done. simpl. f_equal. f_equal.
  apply row_of_ext. pointwise.
Qed.

Lemma solve_out_load A k :
  k < n ->
  matrix.on_out (R:=Vector) (load k) (solve_vars_of a0 b0 n A)
  = Normal (A k n) (solve_vars_of a0 b0 n A).
Proof.
  intros Hk. unfold matrix.on_out, zoom, solve_vars_of. simpl.
  now rewrite load_row_of.
Qed.

Lemma solve_out_update A k f :
  k < n ->
  matrix.on_out (R:=Vector) (update k f) (solve_vars_of a0 b0 n A)
  = Normal tt (solve_vars_of a0 b0 n (upd A k n (f (A k n)))).
Proof.
  intros Hk. unfold matrix.on_out, zoom, solve_vars_of. simpl.
  rewrite update_row_of by done. simpl. f_equal. f_equal.
  - apply table_ext. pointwise.
  - apply row_of_ext. pointwise.
Qed.

(** Iteration [i] on a pivot that passes the test. *)
Lemma solve_step_pass A i :
  i < n -> below_tolerance (A i i) = false ->
  matrix.solve_step n i (solve_vars_of a0 b0 n A)
  = Normal tt (solve_vars_of a0 b0 n (solve_pass i A)).
Proof.
  intros Hi Hp. unfold matrix.solve_step.
  rewrite (bind_normal _ _ _ _ _ (solve_temp_load _ i i Hi Hi)). rewrite Hp.
  set (p := A i i).
  pose (F := fun j => solve_vars_of a0 b0 n (fun k c =>
                if decide (k = i /\ i <= c < j) then (A k c / p)%float else A k c)).
  assert (Hscale : for_ (R:=Vector) i n (fun j =>
            matrix.on_temp (update2 i j (fun t => (t / p)%float))) (F i)
          = Normal tt (F n)).
  { apply (for_run F); [lia|]. intros j Hj. unfold F.
    rewrite solve_temp_update by lia. f_equal. apply solve_vars_ext. pointwise. }
  replace (solve_vars_of a0 b0 n A) with (F i) by (apply solve_vars_ext; pointwise).
  rewrite (bind_normal _ _ _ _ _ Hscale). unfold F.
  rewrite (bind_normal _ _ _ _ _ (solve_out_update _ i _ Hi)).
  match goal with
  | |- _ (solve_vars_of a0 b0 n ?A') = _ =>
      replace (solve_vars_of a0 b0 n A')
        with (solve_vars_of a0 b0 n (scale_row_from i p A))
        by (apply solve_vars_ext; pointwise)
  end.
  clear F Hscale. unfold solve_pass. fold p.
  generalize (scale_row_from i p A). clear A Hp p. intros A.
  pose (F := fun k => solve_vars_of a0 b0 n (fun k' c =>
                if decide (k' < k) then eliminate_column_from i A k' c else A k' c)).
  replace (solve_vars_of a0 b0 n A) with (F 0) by (apply solve_vars_ext; pointwise).
  replace (solve_vars_of a0 b0 n (eliminate_column_from i A)) with (F n)
    by (apply solve_vars_ext; pointwise).
  apply (for_run F); [lia|]. intros k Hk. unfold F.
  destruct (decide (k = i)) as [->|Hne].
  - rewrite nat_neq_false by done. unfold ret. f_equal.
    apply solve_vars_ext. pointwise.
  - rewrite nat_neq_true by done.
    rewrite (bind_normal _ _ _ _ _ (solve_temp_load _ k i ltac:(lia) Hi)).
    set (B := fun k' c => if decide (k' < k) then eliminate_column_from i A k' c
                          else A k' c).
    pose (G := fun j => solve_vars_of a0 b0 n (fun k' c =>
                  if decide (k' = k /\ i <= c < j)
                  then eliminate_column_from i A k' c else B k' c)).
    assert (Hinner : for_ (R:=Vector) i n (fun j =>
              tij <- matrix.on_temp (load2 i j) ;;
              matrix.on_temp (update2 k j (fun t => (t - B k i * tij)%float))) (G i)
            = Normal tt (G n)).
    { apply (for_run G); [lia|]. intros j Hj. unfold G.
      rewrite (bind_normal _ _ _ _ _ (solve_temp_load _ i j Hi ltac:(lia))).
      rewrite solve_temp_update by lia. f_equal. apply solve_vars_ext.
      subst B. pointwise. }
    replace (solve_vars_of a0 b0 n B) with (G i) by (apply solve_vars_ext; pointwise).
    rewrite (bind_normal _ _ _ _ _ Hinner). unfold G.
    rewrite (bind_normal _ _ _ _ _ (solve_out_load _ i Hi)).
    rewrite solve_out_update by lia. f_equal. apply solve_vars_ext.
    subst B. pointwise.
Qed.

(** Iteration [i] on a pivot below the tolerance. *)
Lemma solve_step_small A i :
  i < n -> below_tolerance (A i i) = true ->
  matrix.solve_step n i (solve_vars_of a0 b0 n A)
  = Thrown (runtime_error "Matrix is singular") (solve_vars_of a0 b0 n A).
Proof.
  intros Hi Hp. unfold matrix.solve_step.
  rewrite (bind_normal _ _ _ _ _ (solve_temp_load _ i i Hi Hi)). now rewrite Hp.
Qed.

(** The first [i] iterations. *)
Lemma solve_steps A i :
  i <= n ->
  match passes solve_pass i A with
  | Some A' =>
      for_ 0 i (matrix.solve_step n) (solve_vars_of a0 b0 n A)
      = Normal tt (solve_vars_of a0 b0 n A')
  | None =>
      exists s, for_ 0 i (matrix.solve_step n) (solve_vars_of a0 b0 n A)
                = Thrown (runtime_error "Matrix is singular") s
  end.
Proof.
  induction i as [|i IH]; intros Hi; simpl; [done|].
  specialize (IH ltac:(lia)). rewrite (for_split 0 i (Datatypes.S i)) by lia.
  destruct (passes solve_pass i A) as [A'|].
  - rewrite (bind_normal _ _ _ _ _ IH). rewrite for_first by lia.
    destruct (below_tolerance (A' i i)) eqn:Hp.
    + eexists. unfold bind. now rewrite solve_step_small.
    + rewrite (bind_normal _ _ _ _ _ (solve_step_pass _ i ltac:(lia) Hp)).
      unfold for_. now replace (Datatypes.S i - Datatypes.S i) with 0 by lia.
  - destruct IH as [s Hs]. exists s. unfold bind. now rewrite Hs.
Qed.
End SolveVars.

(** The setup of [solve] on a square matrix and a right-hand side of its
    size. *)
Lemma solve_setup_square a b n :
  shape a n n -> length b = n -> 1 <= n ->
  matrix.solve_setup (matrix.solve_entry a b)
  = Normal n (solve_vars_of a b n (beside_vector n a b)).
Proof.
  intros Ha Hb Hn. unfold matrix.solve_setup, matrix.solve_entry.
  rewrite bind_gets. cbn [matrix.args fst snd].
  unfold orelse. rewrite (shape_nonempty a n n) by done.
  destruct (shape_first a n n Ha Hn) as (a0 & Ha0 & Hla).
  unfold bind at 1. unfold bind at 1. rewrite (at_lookup a 0 a0 _ Ha0).
  rewrite Hla, (proj1 Ha), Hb, nat_neq_false by done. unfold ret at 1.
  unfold bind, matrix.on_temp, matrix.on_out, zoom, put, ret.
  cbn [matrix.out matrix.args matrix.temp]. f_equal.
  unfold solve_vars_of. f_equal.
  - etrans; [apply (table_entry _ n n Ha)|]. apply table_ext. pointwise.
  - etrans; [apply (row_of_element b n Hb)|]. apply row_of_ext. pointwise.
Qed.

(** [solve] on a square matrix, in terms of the elimination on the
    elements. *)
Lemma solve_elements a b n :
  shape a n n -> length b = n -> 1 <= n ->
  matrix.solve a b =
  match passes solve_pass n (beside_vector n a b) with
  | Some A => Ok (row_of n (fun k => A k n))
  | None => Throw (runtime_error "Matrix is singular")
  end.
Proof.
  intros Ha Hb Hn. unfold matrix.solve, matrix.solve_body, call.
  rewrite (bind_normal _ _ _ _ _ (solve_setup_square a b n Ha Hb Hn)).
  pose proof (solve_steps a b n (beside_vector n a b) n ltac:(lia)) as Hsteps.
  destruct (passes solve_pass n (beside_vector n a b)) as [A|].
  - rewrite (bind_normal _ _ _ _ _ Hsteps). now rewrite bind_gets.
  - destruct Hsteps as [s Hs]. unfold bind. now rewrite Hs.
Qed.

(** Two eliminations whose elements stay related read the same pivots. *)
Lemma passes_related (Rel : nat -> (nat -> nat -> float) -> (nat -> nat -> float) -> Prop)
    pass1 pass2 n A0 B0 :
  Rel 0 A0 B0 ->
  (forall i A B, i < n -> Rel i A B -> A i i = B i i) ->
  (forall i A B, i < n -> Rel i A B ->
     Rel (Datatypes.S i) (pass1 i A) (pass2 i B)) ->
  forall i, i <= n ->
    match passes pass1 i A0, passes pass2 i B0 with
    | Some A, Some B => Rel i A B
    | None, None => True
    | _, _ => False
    end.
Proof.
  intros H0 Hpivot Hpass. induction i as [|i IH]; intros Hi; simpl; [done|].
  specialize (IH ltac:(lia)).
  destruct (passes pass1 i A0) as [A|], (passes pass2 i B0) as [B|]; try done.
  rewrite <- (Hpivot i A B) by (done || lia).
  destruct (below_tolerance (A i i)); [done|]. apply Hpass; [lia|done].
Qed.

Lemma solve_follows_pass n i A B :
  i < n -> solve_follows n i A B ->
  solve_follows n (Datatypes.S i) (gauss_jordan_pass i A) (solve_pass i B).
Proof.
  intros Hi HAB k c Hk Hc.
  unfold gauss_jordan_pass, solve_pass, eliminate_column, eliminate_column_from,
    scale_row, scale_row_from.
  rewrite !(HAB k c), !(HAB i c), !(HAB k i), !(HAB i i) by lia.
  repeat case_decide; try done; try lia;
    try (destruct_and?; subst; first [done | lia | (exfalso; lia) | (exfalso; tauto)]).
Qed.

Lemma solve_follows_column_pass n j i A B :
  i < n -> solve_follows_column n j i A B ->
  solve_follows_column n j (Datatypes.S i) (gauss_jordan_pass i A) (solve_pass i B).
Proof.
  intros Hi [HAB Hcol]. split; [now apply solve_follows_pass|]. intros k Hk.
  unfold gauss_jordan_pass, solve_pass, eliminate_column, eliminate_column_from,
    scale_row, scale_row_from.
  rewrite !(Hcol k), !(Hcol i), !(HAB k i), !(HAB i i) by lia.
  repeat case_decide; try done; try lia;
    try (destruct_and?; subst; first [done | lia | (exfalso; lia) | (exfalso; tauto)]).
Qed.

(** X13.  [solve] and [inverse] read the same pivots: on a square matrix, and
    for every right-hand side of its size, [solve] throws for a singular
    matrix exactly when [inverse] does, and returns a vector exactly when
    [inverse] returns a matrix. *)
Theorem solve_when_inverse a b n :
  shape a n n -> length b = n -> 1 <= n ->
  (matrix.solve a b = Throw (runtime_error "Matrix is singular") <->
   matrix.inverse a = Throw (runtime_error "Matrix is singular")) /\
  ((exists x, matrix.solve a b = Ok x /\ length x = n) <->
   (exists r, matrix.inverse a = Ok r /\ shape r n n)).
Proof.
  intros Ha Hb Hn.
  rewrite (solve_elements a b n Ha Hb Hn), (inverse_elements a n Ha Hn).
  pose proof (passes_related (solve_follows n) gauss_jordan_pass solve_pass n
                (beside_identity n a) (beside_vector n a b)) as Hrel.
  lapply Hrel; [clear Hrel; intros Hrel|].
  2:{ intros k c Hk Hc. unfold beside_identity, beside_vector.
      now rewrite !decide_True by lia. }
  specialize (Hrel ltac:(intros i A B Hi HAB; apply HAB; lia)
                   ltac:(intros i A B; apply solve_follows_pass) n ltac:(lia)).
  destruct (passes gauss_jordan_pass n _) as [A|], (passes solve_pass n _) as [B|];
    try done.
  - split; [done|]. split; intros _; eexists; (split; [done|]).
    + apply shape_table.
    + apply length_row_of.
  - split; [done|]. split; intros (x & Hx & _); done.
Qed.

Lemma solve_when_inverse_witness :
  (matrix.solve [[1; 2]; [3; 4]]%float [5; 6]%float
   = Throw (runtime_error "Matrix is singular") <->
   matrix.inverse [[1; 2]; [3; 4]]%float = Throw (runtime_error "Matrix is singular")) /\
  ((exists x, matrix.solve [[1; 2]; [3; 4]]%float [5; 6]%float = Ok x /\ length x = 2) <->
   (exists r, matrix.inverse [[1; 2]; [3; 4]]%float = Ok r /\ shape r 2 2)).
Proof.
  apply (solve_when_inverse [[1; 2]; [3; 4]]%float [5; 6]%float 2);
    [split; [reflexivity | repeat constructor] | reflexivity | lia].
Defined.

(** X14.  [solve] for column [j] of the identity returns column [j] of the matrix
    that [inverse] returns, bit for bit. *)
Theorem solve_unit_vector a n j r :
  shape a n n -> 1 <= n -> j < n ->
  matrix.inverse a = Ok r ->
  matrix.solve a (unit_vector n j) = Ok (column n r j).
Proof.
  intros Ha Hn Hj.
  rewrite (solve_elements a (unit_vector n j) n Ha (length_row_of _ _) Hn),
    (inverse_elements a n Ha Hn).
  pose proof (passes_related (solve_follows_column n j) gauss_jordan_pass solve_pass n
                (beside_identity n a) (beside_vector n a (unit_vector n j))) as Hrel.
  lapply Hrel; [clear Hrel; intros Hrel|].
  2:{ split.
      - intros k c Hk Hc. unfold beside_identity, beside_vector.
        now rewrite !decide_True by lia.
      - intros k Hk. unfold beside_identity, beside_vector, unit_vector, element, row_of.
        rewrite !decide_False by lia. rewrite lookup_row by done. simpl.
        repeat case_decide; done || lia. }
  specialize (Hrel ltac:(intros i A B Hi [HAB _]; apply HAB; lia)
                   ltac:(intros i A B; apply solve_follows_column_pass) n ltac:(lia)).
  destruct (passes gauss_jordan_pass n _) as [A|], (passes solve_pass n _) as [B|];
    try done.
  intros [= <-]. f_equal. unfold column. apply row_of_ext. intros k Hk.
  unfold right_half. rewrite entry_table by done. symmetry. now apply Hrel.
Qed.

Lemma solve_unit_vector_witness :
  matrix.solve [[1; 2]; [3; 4]]%float (unit_vector 2 1)
  = Ok (column 2 [[-2; 1]; [1.5; -0.5]]%float 1).
Proof.
  apply (solve_unit_vector [[1; 2]; [3; 4]]%float 2 1);
    [split; [reflexivity | repeat constructor] | lia | lia | vm_compute; reflexivity].
Defined.

(** *** [determinant] of [matrix.cpp] *)

Section DeterminantVars.
Context (a0 : Grid) (n : nat).

Lemma determinant_vars_ext A B det :
  (forall k c, k < n -> c < n -> A k c = B k c) ->
  determinant_vars_of a0 n A det = determinant_vars_of a0 n B det.
Proof. intros HAB. unfold determinant_vars_of. f_equal. now apply table_ext. Qed.

Lemma determinant_temp_load A det k j :
  k < n -> j < n ->
  matrix.on_temp (R:=float) (load2 k j) (determinant_vars_of a0 n A det)
  = Normal (A k j) (determinant_vars_of a0 n A det).
Proof.
  intros Hk Hj. unfold matrix.on_temp, zoom, determinant_vars_of. simpl.
  now rewrite load2_table.
Qed.

Lemma determinant_temp_update A det k j f :
  k < n -> j < n ->
  matrix.on_temp (R:=float) (update2 k j f) (determinant_vars_of a0 n A det)
  = Normal tt (determinant_vars_of a0 n (upd A k j (f (A k j))) det).
Proof.
  intros Hk Hj. unfold matrix.on_temp, zoom, determinant_vars_of. simpl.
  now rewrite update2_table.
Qed.

(** Iteration [i] on a pivot that passes the test. *)
Lemma determinant_step_pass A det i :
  i < n -> below_tolerance (A i i) = false ->
  matrix.determinant_step n i (determinant_vars_of a0 n A det)
  = Normal tt (determinant_vars_of a0 n (determinant_pass i A) (det * A i i)%float).
Proof.
  intros Hi Hp. unfold matrix.determinant_step.
  rewrite (bind_normal _ _ _ _ _ (determinant_temp_load _ _ i i Hi Hi)). rewrite Hp.
  set (p := A i i).
  pose (F := fun k => determinant_vars_of a0 n (fun k' c =>
                if decide (i < k' < k /\ i <= c) then determinant_pass i A k' c
                else A k' c) det).
  assert (Hloop : for_ (R:=float) (i + 1) n (fun k =>
            tki <- matrix.on_temp (load2 k i) ;;
            let factor := (tki / p)%float in
            for_ i n (fun j =>
              tij <- matrix.on_temp (load2 i j) ;;
              matrix.on_temp (update2 k j (fun t => (t - factor * tij)%float))))
            (F (i + 1))
          = Normal tt (F n)).
  { apply (for_run F); [lia|]. intros k Hk. unfold F.
    rewrite (bind_normal _ _ _ _ _ (determinant_temp_load _ _ k i ltac:(lia) Hi)).
    rewrite decide_False by lia. cbv zeta.
    set (B := fun k' c => if decide (i < k' < k /\ i <= c)
                          then determinant_pass i A k' c else A k' c).
    pose (G := fun j => determinant_vars_of a0 n (fun k' c =>
                  if decide (k' = k /\ i <= c < j)
                  then determinant_pass i A k' c else B k' c) det).
    replace (determinant_vars_of a0 n B det) with (G i)
      by (apply determinant_vars_ext; pointwise).
    replace (determinant_vars_of a0 n (fun k' c =>
               if decide (i < k' < Datatypes.S k /\ i <= c)
               then determinant_pass i A k' c else A k' c) det) with (G n)
      by (apply determinant_vars_ext; subst B; pointwise).
    apply (for_run G); [lia|]. intros j Hj. unfold G.
    rewrite (bind_normal _ _ _ _ _ (determinant_temp_load _ _ i j Hi ltac:(lia))).
    rewrite determinant_temp_update by lia. f_equal. apply determinant_vars_ext.
    subst B p. pointwise. }
  replace (determinant_vars_of a0 n A det) with (F (i + 1))
    by (apply determinant_vars_ext; pointwise).
  rewrite (bind_normal _ _ _ _ _ Hloop).
  unfold matrix.on_out, zoom, modify, F, determinant_vars_of. simpl. do 2 f_equal.
  apply table_ext. pointwise.
Qed.

(** Iteration [i] on a pivot below the tolerance. *)
Lemma determinant_step_small A det i :
  i < n -> below_tolerance (A i i) = true ->
  matrix.determinant_step n i (determinant_vars_of a0 n A det)
  = Returned 0%float (determinant_vars_of a0 n A det).
Proof.
  intros Hi Hp. unfold matrix.determinant_step.
  rewrite (bind_normal _ _ _ _ _ (determinant_temp_load _ _ i i Hi Hi)). now rewrite Hp.
Qed.

(** The first [i] iterations. *)
Lemma determinant_steps A i :
  i <= n ->
  match passes determinant_pass i A with
  | Some A' =>
      for_ 0 i (matrix.determinant_step n) (determinant_vars_of a0 n A 1%float)
      = Normal tt (determinant_vars_of a0 n A'
                     (mul_upto 1%float i (pivot_of determinant_pass A)))
  | None =>
      exists s, for_ 0 i (matrix.determinant_step n) (determinant_vars_of a0 n A 1%float)
                = Returned 0%float s
  end.
Proof.
  induction i as [|i IH]; intros Hi; simpl; [done|].
  specialize (IH ltac:(lia)). rewrite (for_split 0 i (Datatypes.S i)) by lia.
  destruct (passes determinant_pass i A) as [A'|] eqn:HA.
  - rewrite (bind_normal _ _ _ _ _ IH). rewrite for_first by lia.
    destruct (below_tolerance (A' i i)) eqn:Hp.
    + eexists. unfold bind. now rewrite determinant_step_small.
    + rewrite (bind_normal _ _ _ _ _ (determinant_step_pass _ _ i ltac:(lia) Hp)).
      replace (pivot_of determinant_pass A i) with (A' i i)
        by (unfold pivot_of; now rewrite HA).
      unfold for_. now replace (Datatypes.S i - Datatypes.S i) with 0 by lia.
  - destruct IH as [s Hs]. exists s. unfold bind. now rewrite Hs.
Qed.
End DeterminantVars.

(** The setup of [determinant] on a square matrix. *)
Lemma determinant_setup_square a n :
  shape a n n -> 1 <= n ->
  matrix.determinant_setup (matrix.determinant_entry a)
  = Normal n (determinant_vars_of a n (entry a) 1%float).
Proof.
  intros Ha Hn. unfold matrix.determinant_setup, matrix.determinant_entry.
  rewrite bind_gets. cbn [matrix.args].
  unfold orelse. rewrite (shape_nonempty a n n) by done.
  destruct (shape_first a n n Ha Hn) as (a0 & Ha0 & Hla).
  unfold bind at 1. unfold bind at 1. rewrite (at_lookup a 0 a0 _ Ha0).
  unfold ret at 1. rewrite Hla, (proj1 Ha), nat_neq_false by done.
  unfold bind, matrix.on_temp, matrix.on_out, zoom, put, ret.
  cbn [matrix.out matrix.args matrix.temp]. f_equal.
  unfold determinant_vars_of. f_equal. apply (table_entry _ n n Ha).
Qed.

(** [determinant] of [matrix.cpp] on a square matrix, in terms of the
    elimination on the elements. *)
Lemma determinant_elements a n :
  shape a n n -> 1 <= n ->
  matrix.determinant a =
  match passes determinant_pass n (entry a) with
  | Some _ => Ok (mul_upto 1%float n (pivot_of determinant_pass (entry a)))
  | None => Ok 0%float
  end.
Proof.
  intros Ha Hn. unfold matrix.determinant, matrix.determinant_body, call.
  rewrite (bind_normal _ _ _ _ _ (determinant_setup_square a n Ha Hn)).
  pose proof (determinant_steps a n (entry a) n ltac:(lia)) as Hsteps.
  destruct (passes determinant_pass n (entry a)) as [A|].
  - rewrite (bind_normal _ _ _ _ _ Hsteps). now rewrite bind_gets.
  - destruct Hsteps as [s Hs]. unfold bind. now rewrite Hs.
Qed.

(** The pivot that iteration [i] of [determinant] reads. *)
Lemma determinant_pivot_elements a n i :
  shape a n n -> i < n ->
  matrix.determinant_pivot a i =
  match passes determinant_pass i (entry a) with
  | Some A => Some (A i i)
  | None => None
  end.
Proof.
  intros Ha Hi. unfold matrix.determinant_pivot.
  rewrite decide_True by (now rewrite (proj1 Ha)).
  rewrite (bind_normal _ _ _ _ _ (determinant_setup_square a n Ha ltac:(lia))).
  pose proof (determinant_steps a n (entry a) i ltac:(lia)) as Hsteps.
  destruct (passes determinant_pass i (entry a)) as [A|].
  - rewrite (bind_normal _ _ _ _ _ Hsteps). now rewrite determinant_temp_load.
  - destruct Hsteps as [s Hs]. unfold bind. now rewrite Hs.
Qed.

Lemma determinant_meets_small_pivot a n :
  shape a n n ->
  meets_small_pivot (matrix.determinant_pivot a) <->
  passes determinant_pass n (entry a) = None.
Proof.
  intros Ha. rewrite passes_None. split.
  - intros (i & p & Hp & Hsmall).
    assert (Hi : i < n).
    { unfold matrix.determinant_pivot in Hp. case_decide; [|done].
      now rewrite <- (proj1 Ha). }
    rewrite (determinant_pivot_elements a n i Ha Hi) in Hp.
    destruct (passes determinant_pass i (entry a)) as [A|] eqn:HA; [|done].
    exists i, A. injection Hp as Hp. subst p. done.
  - intros (i & A & Hi & HA & Hp). exists i, (A i i).
    now rewrite (determinant_pivot_elements a n i Ha Hi), HA.
Qed.

Lemma mul_upto_ext x n f g :
  (forall j, j < n -> f j = g j) -> mul_upto x n f = mul_upto x n g.
Proof.
  induction n as [|n IH]; intros Hfg; simpl; [done|].
  rewrite IH, Hfg by auto with lia. done.
Qed.

(** X15.  [determinant] of [matrix.cpp] returns a number for every square matrix;
    when no pivot of its elimination is below the tolerance the number is
    the product of the pivots, multiplied from the left to [1.0] in the
    order of the rows. *)
Theorem determinant_of_square a n :
  shape a n n -> 1 <= n ->
  (exists d, matrix.determinant a = Ok d) /\
  (~ meets_small_pivot (matrix.determinant_pivot a) ->
   exists p, (forall i, i < n -> matrix.determinant_pivot a i = Some (p i)) /\
             matrix.determinant a = Ok (mul_upto 1%float n p)).
Proof.
  intros Ha Hn. rewrite (determinant_elements a n Ha Hn). split.
  - destruct (passes determinant_pass n (entry a)); eauto.
  - intros Hno. exists (pivot_of determinant_pass (entry a)).
    assert (Hall : forall i, i <= n -> passes determinant_pass i (entry a) <> None).
    { intros i Hi Hnone. apply Hno. apply passes_None in Hnone as (k & A & Hk & HA & Hp).
      exists k, (A k k). now rewrite (determinant_pivot_elements a n k Ha ltac:(lia)), HA. }
    split.
    + intros i Hi. rewrite (determinant_pivot_elements a n i Ha Hi). unfold pivot_of.
      specialize (Hall i ltac:(lia)).
      now destruct (passes determinant_pass i (entry a)).
    + specialize (Hall n ltac:(lia)).
      now destruct (passes determinant_pass n (entry a)).
Qed.

Lemma determinant_of_square_witness :
  exists p,
    (forall i, i < 2 -> matrix.determinant_pivot [[1; 2]; [3; 4]]%float i = Some (p i)) /\
    matrix.determinant [[1; 2]; [3; 4]]%float = Ok (mul_upto 1%float 2 p).
Proof.
  apply (proj2 (determinant_of_square [[1; 2]; [3; 4]]%float 2
                  ltac:(split; [reflexivity | repeat constructor]) ltac:(lia))).
  intros H.
  apply (determinant_meets_small_pivot [[1; 2]; [3; 4]]%float 2
           ltac:(split; [reflexivity | repeat constructor])) in H.
  vm_compute in H. discriminate H.
Defined.

(** *** Outcomes of the elimination routines *)

Lemma shape_empty a c : shape a 0 c -> a = [].
Proof. intros [Hlen _]. now destruct a. Qed.

(** X16.  [inverse] and [determinant] throw [invalid_argument] for a matrix that
    has no row or is not square; [solve] throws [invalid_argument] for
    these and for a right-hand side whose size is not the number of rows. *)
Theorem dimensions_required a b r c :
  shape a r c ->
  (r = 0 \/ r <> c ->
   matrix.inverse a = Throw (invalid_argument "Matrix must be square and non-empty") /\
   matrix.determinant a
   = Throw (invalid_argument "Matrix must be square and non-empty")) /\
  (r = 0 \/ r <> c \/ length b <> r ->
   matrix.solve a b = Throw (invalid_argument "Invalid dimensions for equation solving")).
Proof.
  intros Ha. destruct (decide (r = 0)) as [->|Hr].
  - apply shape_empty in Ha as ->. split; intros _; [split|]; reflexivity.
  - destruct (shape_first a r c Ha ltac:(lia)) as (a0 & Ha0 & Hla).
    pose proof (shape_nonempty a r c Ha ltac:(lia)) as Hne.
    split.
    + intros [?|Hrc]; [done|].
      assert (Hinv : matrix.inverse_setup (matrix.inverse_entry a)
                = Thrown (invalid_argument "Matrix must be square and non-empty")
                    (matrix.inverse_entry a)).
      { unfold matrix.inverse_setup. rewrite bind_gets. cbn [matrix.args matrix.inverse_entry].
        unfold orelse. rewrite Hne. unfold bind. rewrite (at_lookup a 0 a0 _ Ha0).
        unfold ret. now rewrite Hla, (proj1 Ha), nat_neq_true. }
      assert (Hdet : matrix.determinant_setup (matrix.determinant_entry a)
                = Thrown (invalid_argument "Matrix must be square and non-empty")
                    (matrix.determinant_entry a)).
      { unfold matrix.determinant_setup. rewrite bind_gets.
        cbn [matrix.args matrix.determinant_entry].
        unfold orelse. rewrite Hne. unfold bind. rewrite (at_lookup a 0 a0 _ Ha0).
        unfold ret. now rewrite Hla, (proj1 Ha), nat_neq_true. }
      unfold matrix.inverse, matrix.inverse_body, matrix.determinant,
        matrix.determinant_body, call, bind. now rewrite Hinv, Hdet.
    + intros Hbad.
      assert (Hsolve : matrix.solve_setup (matrix.solve_entry a b)
                = Thrown (invalid_argument "Invalid dimensions for equation solving")
                    (matrix.solve_entry a b)).
      { unfold matrix.solve_setup. rewrite bind_gets.
        cbn [matrix.args matrix.solve_entry fst snd].
        unfold orelse. rewrite Hne. unfold bind. rewrite (at_lookup a 0 a0 _ Ha0).
        rewrite Hla, (proj1 Ha).
        destruct (decide (r = c)) as [<-|Hrc].
        - rewrite nat_neq_false by done. unfold ret.
          rewrite nat_neq_true by (intros Heq; destruct Hbad as [?|[?|?]]; done).
          done.
        - now rewrite nat_neq_true. }
      unfold matrix.solve, matrix.solve_body, call, bind. now rewrite Hsolve.
Qed.

Lemma dimensions_required_witness :
  (matrix.inverse [[1; 2; 3]; [4; 5; 6]]%float
   = Throw (invalid_argument "Matrix must be square and non-empty") /\
   matrix.determinant [[1; 2; 3]; [4; 5; 6]]%float
   = Throw (invalid_argument "Matrix must be square and non-empty")) /\
  matrix.solve [[1; 2]; [3; 4]]%float [5; 6; 7]%float
  = Throw (invalid_argument "Invalid dimensions for equation solving").
Proof.
  split.
  - apply (proj1 (dimensions_required [[1; 2; 3]; [4; 5; 6]]%float [] 2 3
                    ltac:(split; [reflexivity | repeat constructor]))).
    right. lia.
  - apply (proj2 (dimensions_required [[1; 2]; [3; 4]]%float [5; 6; 7]%float 2 2
                    ltac:(split; [reflexivity | repeat constructor]))).
    right. right. simpl. lia.
Defined.

(** X17.  On a square matrix [inverse] has two outcomes only: it returns a matrix
    of the size of its argument, or it throws
    [runtime_error("Matrix is singular")]; it throws exactly when its
    elimination reads a pivot below the tolerance.  No access is out of
    range. *)
Theorem inverse_of_square a n :
  shape a n n -> 1 <= n ->
  (matrix.inverse a = Throw (runtime_error "Matrix is singular") <->
   meets_small_pivot (matrix.inverse_pivot a)) /\
  ((exists r, matrix.inverse a = Ok r /\ shape r n n) <->
   ~ meets_small_pivot (matrix.inverse_pivot a)).
Proof.
  intros Ha Hn. rewrite (inverse_meets_small_pivot a n Ha).
  rewrite (inverse_elements a n Ha Hn).
  destruct (passes gauss_jordan_pass n (beside_identity n a)) as [A|].
  - split; [done|]. split; [done|]. intros _. eexists. split; [done|]. apply shape_table.
  - split; [done|]. split; [|done]. now intros (r & Hr & _).
Qed.

Lemma inverse_of_square_witness :
  (exists r, matrix.inverse [[1; 2]; [3; 4]]%float = Ok r /\ shape r 2 2) /\
  matrix.inverse [[1; 2]; [2; 4]]%float = Throw (runtime_error "Matrix is singular").
Proof.
  split.
  - apply (proj2 (proj2 (inverse_of_square [[1; 2]; [3; 4]]%float 2
                           ltac:(split; [reflexivity | repeat constructor])
                           ltac:(lia)))).
    intros H.
    apply (inverse_meets_small_pivot [[1; 2]; [3; 4]]%float 2
             ltac:(split; [reflexivity | repeat constructor])) in H.
    vm_compute in H. discriminate H.
  - apply (proj2 (proj1 (inverse_of_square [[1; 2]; [2; 4]]%float 2
                           ltac:(split; [reflexivity | repeat constructor])
                           ltac:(lia)))).
    exists 1, 0%float. split; vm_compute; reflexivity.
Defined.

(** X18.  The matrix that [inverse] returns is the right half of [A | I] after
    [n] iterations of Gauss-Jordan elimination without row interchange:
    iteration [i] divides row [i] by the pivot [A i i] and then subtracts
    from every other row [k] the product of [A k i] and row [i]. *)
Theorem inverse_computes a n r :
  shape a n n -> 1 <= n -> matrix.inverse a = Ok r ->
  exists A, passes gauss_jordan_pass n (beside_identity n a) = Some A /\
            shape r n n /\
            forall k j, k < n -> j < n -> entry r k j = A k (j + n).
Proof.
  intros Ha Hn. rewrite (inverse_elements a n Ha Hn).
  destruct (passes gauss_jordan_pass n (beside_identity n a)) as [A|]; [|done].
  intros [= <-]. exists A. split; [done|]. split; [apply shape_table|].
  intros k j Hk Hj. unfold right_half. now rewrite entry_table.
Qed.

Lemma inverse_computes_witness :
  exists A,
    passes gauss_jordan_pass 2 (beside_identity 2 [[1; 2]; [3; 4]]%float) = Some A /\
    shape [[-2; 1]; [1.5; -0.5]]%float 2 2 /\
    forall k j, k < 2 -> j < 2 ->
      entry [[-2; 1]; [1.5; -0.5]]%float k j = A k (j + 2).
Proof.
  apply (inverse_computes [[1; 2]; [3; 4]]%float 2);
    [split; [reflexivity | repeat constructor] | lia | vm_compute; reflexivity].
Defined.

(** X19.  The vector that [solve] returns is the last column of [A | b] after
    [n] iterations of the same elimination, each of which works on the
    columns from the pivot's on. *)
Theorem solve_computes a b n x :
  shape a n n -> length b = n -> 1 <= n -> matrix.solve a b = Ok x ->
  exists A, passes solve_pass n (beside_vector n a b) = Some A /\
            length x = n /\
            forall k, k < n -> element x k = A k n.
Proof.
  intros Ha Hb Hn. rewrite (solve_elements a b n Ha Hb Hn).
  destruct (passes solve_pass n (beside_vector n a b)) as [A|]; [|done].
  intros [= <-]. exists A. split; [done|]. split; [apply length_row_of|].
  intros k Hk. unfold element, row_of. now rewrite lookup_row.
Qed.

Lemma solve_computes_witness :
  exists A,
    passes solve_pass 2 (beside_vector 2 [[1; 2]; [3; 4]]%float [5; 6]%float) = Some A /\
    length [-4; 4.5]%float = 2 /\
    forall k, k < 2 -> element [-4; 4.5]%float k = A k 2.
Proof.
  apply (solve_computes [[1; 2]; [3; 4]]%float [5; 6]%float 2);
    [split; [reflexivity | repeat constructor] | reflexivity | lia
    | vm_compute; reflexivity].
Defined.

(** ** Minors and the cofactor determinant *)

Ltac indices :=
  intros;
  unfold skip, others_below, minor_of in *;
  repeat case_decide; try done; try lia;
  try (destruct_or?; destruct_and?; subst; first [done | lia | (exfalso; lia)]).

Lemma minor_vars_ext r c f g mi mi' mj mj' :
  (forall i j, i < r - 1 -> j < c - 1 -> f i j = g i j) -> mi = mi' -> mj = mj' ->
  minor_vars_of r c f mi mj = minor_vars_of r c g mi' mj'.
Proof.
  intros Hfg -> ->. unfold minor_vars_of. do 2 f_equal. now apply table_ext.
Qed.

(** [getMinor] on a row and a column of a well-formed matrix. *)
Lemma getMinor_elements this row col :
  well_formed this -> row < matrix_ops.rows this -> col < matrix_ops.cols this ->
  matrix_ops.getMinor this row col
  = Ok (matrix_ops.mkMatrix
          (table (matrix_ops.rows this - 1) (matrix_ops.cols this - 1)
             (minor_of (entry (matrix_ops.data this)) row col))
          (matrix_ops.rows this - 1) (matrix_ops.cols this - 1)).
Proof.
  unfold well_formed.
  set (r := matrix_ops.rows this). set (c := matrix_ops.cols this).
  set (a := matrix_ops.data this). intros Ha Hrow Hcol.
  set (final := minor_of (entry a) row col).
  unfold matrix_ops.getMinor, call, matrix_ops.getMinor_body. fold r c.
  rewrite bind_put. unfold matrix_ops.Matrix_zero. rewrite replicate_table.
  pose (F := fun i => minor_vars_of r c (fun i' j' =>
                if decide (i' < others_below row i) then final i' j' else 0%float)
              (others_below row i)
              (if decide (others_below row i = 0) then 0 else c - 1)).
  assert (Hloop : for_ (R:=matrix_ops.Matrix) 0 r (fun i =>
            if Nat.eqb i row then ret tt
            else
              modify (matrix_ops.set_mj 0) ;;
              for_ 0 c (fun j =>
                if Nat.eqb j col then ret tt
                else
                  x <- matrix_ops.elem this i j ;;
                  r <- gets matrix_ops.mi ;;
                  c <- gets matrix_ops.mj ;;
                  matrix_ops.on_minor (matrix_ops.on_data (store2 r c x)) ;;
                  modify (fun s => matrix_ops.set_mj (matrix_ops.mj s + 1) s)) ;;
              modify (fun s => matrix_ops.set_mi (matrix_ops.mi s + 1) s)) (F 0)
          = Normal tt (F r)).
  { apply (for_run F); [lia|]. intros i Hi.
    destruct (Nat.eqb_spec i row) as [->|Hne].
    - unfold ret, F. f_equal. apply minor_vars_ext; indices.
    - unfold bind at 1, modify at 1.
      pose (G := fun j => minor_vars_of r c (fun i' j' =>
                    if decide (i' < others_below row i \/
                               (i' = others_below row i /\ j' < others_below col j))
                    then final i' j' else 0%float)
                  (others_below row i) (others_below col j)).
      assert (Hinner : for_ (R:=matrix_ops.Matrix) 0 c (fun j =>
                if Nat.eqb j col then ret tt
                else
                  x <- matrix_ops.elem this i j ;;
                  r <- gets matrix_ops.mi ;;
                  c <- gets matrix_ops.mj ;;
                  matrix_ops.on_minor (matrix_ops.on_data (store2 r c x)) ;;
                  modify (fun s => matrix_ops.set_mj (matrix_ops.mj s + 1) s)) (G 0)
              = Normal tt (G c)).
      { apply (for_run G); [lia|]. intros j Hj.
        destruct (Nat.eqb_spec j col) as [->|Hne'].
        - unfold ret, G. f_equal. apply minor_vars_ext; indices.
        - unfold matrix_ops.elem. fold a.
          rewrite (bind_normal _ _ _ _ _ (at2_entry a r c i j _ Ha ltac:(lia) ltac:(lia))).
          rewrite !bind_gets. unfold G at 1 2 3, minor_vars_of. cbn [matrix_ops.mi matrix_ops.mj].
          unfold bind, matrix_ops.on_minor, matrix_ops.on_data, zoom.
          cbn [matrix_ops.minor matrix_ops.data matrix_ops.rows matrix_ops.cols
               matrix_ops.mi matrix_ops.mj].
          rewrite store2_table by indices. unfold modify, matrix_ops.set_mj.
          cbn [matrix_ops.minor matrix_ops.data matrix_ops.rows matrix_ops.cols
               matrix_ops.mi matrix_ops.mj].
          f_equal. apply minor_vars_ext; [|done|indices].
          intros i' j' Hi' Hj'. subst final. unfold minor_of.
          unfold skip, others_below in *.
          repeat case_decide; destruct_or?; destruct_and?; subst;
            try done; try lia; try (f_equal; lia). }
      replace (matrix_ops.set_mj 0 (F i)) with (G 0)
        by (unfold F, G, matrix_ops.set_mj; apply minor_vars_ext; indices).
      rewrite (bind_normal _ _ _ _ _ Hinner). unfold modify. f_equal.
      unfold G, F, matrix_ops.set_mi, minor_vars_of.
      cbn [matrix_ops.minor matrix_ops.mi matrix_ops.mj].
      apply minor_vars_ext; indices. }
  replace (matrix_ops.MinorVars _ 0 0) with (F 0)
    by (unfold F; apply minor_vars_ext; indices).
  rewrite (bind_normal _ _ _ _ _ Hloop). rewrite bind_gets. unfold return_, F.
  cbn [minor_vars_of matrix_ops.minor]. do 2 f_equal. apply table_ext. indices.
Qed.

Lemma add_upto_ext x n f g :
  (forall j, j < n -> f j = g j) -> add_upto x n f = add_upto x n g.
Proof.
  induction n as [|n IH]; intros Hfg; simpl; [done|].
  rewrite IH, Hfg by auto with lia. done.
Qed.

Lemma cofactor_expansion_step n a :
  3 <= n ->
  cofactor_expansion n a
  = add_upto 0%float n (fun j =>
      (matrix_ops.sign j * a 0%nat j
       * cofactor_expansion (n - 1)%nat (minor_of a 0%nat j))%float).
Proof.
  intros Hn. destruct n as [|[|[|n]]]; try lia. reflexivity.
Qed.

Lemma cofactor_expansion_ext n a b :
  (forall i j, i < n -> j < n -> a i j = b i j) ->
  cofactor_expansion n a = cofactor_expansion n b.
Proof.
  revert a b. induction n as [|n IH]; intros a b Hab; [done|].
  destruct n as [|[|n]].
  - simpl. apply Hab; lia.
  - simpl. rewrite !Hab by lia. done.
  - rewrite !cofactor_expansion_step by lia. apply add_upto_ext. intros j Hj.
    rewrite Hab by lia. f_equal.
    replace (Datatypes.S (Datatypes.S (Datatypes.S n)) - 1)
      with (Datatypes.S (Datatypes.S n)) by lia.
    apply IH. intros i' j' Hi' Hj'. unfold minor_of, skip. apply Hab; case_decide; lia.
Qed.

(** The cofactor determinant of a well-formed square matrix, at every depth
    that is at least [rows]. *)
Lemma determinant_rec_elements n : forall this d,
  matrix_ops.rows this = n -> matrix_ops.cols this = n ->
  shape (matrix_ops.data this) n n -> n <= d ->
  matrix_ops.determinant_rec d this
  = Ok (cofactor_expansion n (entry (matrix_ops.data this))).
Proof.
  induction n as [|n IH]; intros this d Hrows Hcols Ha Hd.
  - destruct d; simpl; unfold call, matrix_ops.determinant_body;
      rewrite Hrows, Hcols; reflexivity.
  - assert (Hstep : forall rec,
              (forall j, j < Datatypes.S n -> 3 <= Datatypes.S n ->
                 rec (matrix_ops.mkMatrix
                        (table n n (minor_of (entry (matrix_ops.data this)) 0 j)) n n)
                 = Ok (cofactor_expansion n
                         (minor_of (entry (matrix_ops.data this)) 0 j))) ->
              call (matrix_ops.determinant_body rec this) 0%float
              = Ok (cofactor_expansion (Datatypes.S n) (entry (matrix_ops.data this)))).
    { intros rec Hrec. unfold call, matrix_ops.determinant_body. rewrite Hrows, Hcols.
      rewrite nat_neq_false by done. unfold matrix_ops.elem.
      set (a := matrix_ops.data this) in *.
      destruct n as [|[|n]].
      - simpl. unfold bind. now rewrite (at2_entry a 1 1 0 0 _ Ha) by lia.
      - simpl. unfold bind.
        rewrite (at2_entry a 2 2 0 0 _ Ha), (at2_entry a 2 2 1 1 _ Ha),
          (at2_entry a 2 2 0 1 _ Ha), (at2_entry a 2 2 1 0 _ Ha) by lia. done.
      - set (m := Datatypes.S (Datatypes.S (Datatypes.S n))) in *.
        replace (Nat.eqb m 1) with false by (symmetry; apply Nat.eqb_neq; lia).
        replace (Nat.eqb m 2) with false by (symmetry; apply Nat.eqb_neq; lia).
        rewrite bind_put.
        pose (F := fun j => add_upto 0%float j (fun j =>
                 (matrix_ops.sign j * entry a 0%nat j
                  * cofactor_expansion (m - 1)%nat (minor_of (entry a) 0%nat j))%float)).
        assert (Hloop : for_ (R:=float) 0 m (fun j =>
                  mn <- eval (matrix_ops.getMinor this 0 j) ;;
                  x <- at2 a 0 j ;;
                  d <- eval (rec mn) ;;
                  modify (fun det => (det + matrix_ops.sign j * x * d)%float)) (F 0)
                = Normal tt (F m)).
        { apply (for_run F); [lia|]. intros j Hj.
          rewrite getMinor_elements by (unfold well_formed; rewrite ?Hrows, ?Hcols; done || lia).
          rewrite Hrows, Hcols. unfold eval at 1. rewrite bind_ret.
          rewrite (bind_normal _ _ _ _ _ (at2_entry a m m 0 j _ Ha ltac:(lia) ltac:(lia))).
          fold a. replace (m - 1) with (Datatypes.S (Datatypes.S n)) by lia.
          rewrite Hrec by lia. unfold eval. rewrite bind_ret. reflexivity. }
        change 0%float with (F 0) at 1.
        rewrite (bind_normal _ _ _ _ _ Hloop). rewrite cofactor_expansion_step by lia.
        reflexivity. }
    assert (Hminor : forall d' j, n <= d' -> j < Datatypes.S n ->
              matrix_ops.determinant_rec d'
                (matrix_ops.mkMatrix
                   (table n n (minor_of (entry (matrix_ops.data this)) 0 j)) n n)
              = Ok (cofactor_expansion n (minor_of (entry (matrix_ops.data this)) 0 j))).
    { intros d' j Hd' Hj. rewrite (IH _ d') by (done || apply shape_table).
      f_equal. apply cofactor_expansion_ext. intros i' j' Hi' Hj'.
      now apply entry_table. }
    destruct d as [|d]; [lia|]. simpl. apply Hstep. intros j Hj _.
    apply Hminor; lia.
Qed.

(** ** [Matrix::multiply] *)

(** [Matrix::multiply] on well-formed operands. *)
Lemma multiply_table this other m n p :
  matrix_ops.rows this = m -> matrix_ops.cols this = n ->
  matrix_ops.rows other = n -> matrix_ops.cols other = p ->
  shape (matrix_ops.data this) m n -> shape (matrix_ops.data other) n p ->
  matrix_ops.multiply this other
  = Ok (matrix_ops.mkMatrix
          (table m p (product_entry (matrix_ops.data this) (matrix_ops.data other) n))
          m p).
Proof.
  intros Hm Hn Hn' Hp Ha Hb.
  unfold matrix_ops.multiply, call, matrix_ops.multiply_body.
  rewrite Hm, Hn, Hn', Hp. rewrite nat_neq_false by done. rewrite bind_put.
  unfold matrix_ops.Matrix_zero. rewrite replicate_table.
  set (a := matrix_ops.data this) in *. set (b := matrix_ops.data other) in *.
  pose (layout := fun f : nat -> nat -> float => matrix_ops.mkMatrix (table m p f) m p).
  assert (Hloop := positions_loop (R:=matrix_ops.Matrix) layout m p
            ltac:(intros f g Hfg; unfold layout; f_equal; apply table_ext; auto)
            (product_entry a b n) (fun _ _ => 0%float)
            (fun i j => for_ 0 n (fun k =>
               aik <- matrix_ops.elem this i k ;; bkj <- matrix_ops.elem other k j ;;
               matrix_ops.on_data (update2 i j (fun r => (r + aik * bkj)%float))))).
  lapply Hloop; [intros Hrun; unfold layout in Hrun;
                 now rewrite (bind_normal _ _ _ _ _ Hrun)|].
  intros i j Hi Hj. unfold layout.
  pose (F := fun k => matrix_ops.mkMatrix (table m p (fun i' j' =>
                if decide (i' = i /\ j' = j) then product_entry a b k i j
                else stage i j (product_entry a b n) (fun _ _ => 0%float) i' j')) m p).
  replace (matrix_ops.mkMatrix (table m p (stage i j _ _)) m p) with (F 0).
  2:{ unfold F. f_equal. apply table_ext. intros i' j' _ _. case_decide as H; [|done].
      destruct H as [-> ->]. unfold stage. now rewrite visited_self. }
  replace (matrix_ops.mkMatrix (table m p (stage i (S j) _ _)) m p) with (F n).
  2:{ unfold F. f_equal. apply table_ext. intros i' j' _ _. unfold stage.
      rewrite visited_next. case_decide as H; [destruct H as [-> ->]|]; done. }
  apply (for_run F); [lia|]. intros k Hk. unfold F, matrix_ops.elem. fold a b.
  rewrite (bind_normal _ _ _ _ _ (at2_entry a m n i k _ Ha Hi ltac:(lia))).
  rewrite (bind_normal _ _ _ _ _ (at2_entry b n p k j _ Hb ltac:(lia) Hj)).
  unfold matrix_ops.on_data, zoom.
  cbn [matrix_ops.data matrix_ops.rows matrix_ops.cols].
  rewrite update2_table by done. f_equal. f_equal. apply table_ext.
  intros i' j' _ _. case_decide as H; [|done].
  rewrite decide_True by done. done.
Qed.

(** X20.  [Matrix::multiply] of well-formed operands whose inner dimensions agree
    returns the well-formed matrix of the left-to-right sums of products,
    whose data is the matrix that [matrix_multiply] of [matrix.cpp] returns;
    when the inner dimensions differ it throws [invalid_argument]. *)
Theorem multiply_of_well_formed this other :
  well_formed this -> well_formed other ->
  (matrix_ops.cols this = matrix_ops.rows other ->
   exists r,
     matrix_ops.multiply this other = Ok r /\ well_formed r /\
     matrix_ops.rows r = matrix_ops.rows this /\
     matrix_ops.cols r = matrix_ops.cols other /\
     (forall i j, i < matrix_ops.rows this -> j < matrix_ops.cols other ->
        entry (matrix_ops.data r) i j
        = product_entry (matrix_ops.data this) (matrix_ops.data other)
            (matrix_ops.cols this) i j) /\
     (1 <= matrix_ops.rows this -> 1 <= matrix_ops.cols this ->
      matrix.matrix_multiply (matrix_ops.data this) (matrix_ops.data other)
      = Ok (matrix_ops.data r))) /\
  (matrix_ops.cols this <> matrix_ops.rows other ->
   matrix_ops.multiply this other
   = Throw (invalid_argument "Matrix dimensions don't match for multiplication")).
Proof.
  unfold well_formed. intros Ha Hb. split.
  - intros Hinner. rewrite <- Hinner in Hb.
    eexists. split.
    { apply (multiply_table this other (matrix_ops.rows this) (matrix_ops.cols this)
               (matrix_ops.cols other)); done. }
    cbn [matrix_ops.data matrix_ops.rows matrix_ops.cols].
    split; [apply shape_table|]. split; [done|]. split; [done|]. split.
    + intros i j Hi Hj. now apply entry_table.
    + intros Hm Hn. now apply matrix_multiply_table.
  - intros Hne. unfold matrix_ops.multiply, call, matrix_ops.multiply_body.
    now rewrite nat_neq_true.
Qed.

Lemma multiply_of_well_formed_witness :
  exists r,
    matrix_ops.multiply (matrix_ops.mkMatrix [[1; 2]; [3; 4]]%float 2 2)
      (matrix_ops.mkMatrix [[5; 6]; [7; 8]]%float 2 2) = Ok r /\
    matrix_ops.data r = [[19; 22]; [43; 50]]%float.
Proof.
  destruct (proj1 (multiply_of_well_formed
                     (matrix_ops.mkMatrix [[1; 2]; [3; 4]]%float 2 2)
                     (matrix_ops.mkMatrix [[5; 6]; [7; 8]]%float 2 2)
                     ltac:(split; [reflexivity | repeat constructor])
                     ltac:(split; [reflexivity | repeat constructor]))
             eq_refl) as (r & Hr & _ & _ & _ & _ & Hdata).
  exists r. split; [exact Hr|].
  specialize (Hdata ltac:(simpl; lia) ltac:(simpl; lia)).
  vm_compute in Hdata. injection Hdata as Hdata. symmetry. exact Hdata.
Defined.

(** ** The class [Matrix] on well-formed matrices *)

(** X21.  [getMinor] for a row and a column of a well-formed matrix returns the
    well-formed matrix, one row and one column smaller, of the elements
    outside that row and that column, in their order. *)
Theorem getMinor_of_well_formed this row col :
  well_formed this -> row < matrix_ops.rows this -> col < matrix_ops.cols this ->
  exists m,
    matrix_ops.getMinor this row col = Ok m /\ well_formed m /\
    matrix_ops.rows m = matrix_ops.rows this - 1 /\
    matrix_ops.cols m = matrix_ops.cols this - 1 /\
    forall i j, i < matrix_ops.rows this - 1 -> j < matrix_ops.cols this - 1 ->
      entry (matrix_ops.data m) i j
      = entry (matrix_ops.data this)
          (if decide (i < row) then i else i + 1)
          (if decide (j < col) then j else j + 1).
Proof.
  intros Hthis Hrow Hcol. eexists. split; [now apply getMinor_elements|].
  cbn [matrix_ops.data matrix_ops.rows matrix_ops.cols].
  split; [apply shape_table|]. split; [done|]. split; [done|].
  intros i j Hi Hj. now rewrite entry_table.
Qed.

Lemma getMinor_of_well_formed_witness :
  exists m,
    matrix_ops.getMinor
      (matrix_ops.mkMatrix [[1; 2; 3]; [4; 5; 6]; [7; 8; 9]]%float 3 3) 0 1 = Ok m /\
    well_formed m /\ matrix_ops.rows m = 2 /\ matrix_ops.cols m = 2 /\
    forall i j, i < 2 -> j < 2 ->
      entry (matrix_ops.data m) i j
      = entry [[1; 2; 3]; [4; 5; 6]; [7; 8; 9]]%float
          (if decide (i < 0) then i else i + 1)
          (if decide (j < 1) then j else j + 1).
Proof.
  apply (getMinor_of_well_formed
           (matrix_ops.mkMatrix [[1; 2; 3]; [4; 5; 6]; [7; 8; 9]]%float 3 3) 0 1);
    [split; [reflexivity | repeat constructor] | simpl; lia | simpl; lia].
Defined.

(** X22.  [Matrix::determinant] of a well-formed square matrix returns the
    expansion along the first row, its minors expanded the same way down to
    size 2; of a matrix that is not square it throws [invalid_argument].
    No access is out of range, and the recursion ends. *)
Theorem determinant_of_well_formed this n :
  well_formed this -> matrix_ops.rows this = n ->
  (matrix_ops.cols this = n ->
   matrix_ops.determinant this
   = Ok (cofactor_expansion n (entry (matrix_ops.data this)))) /\
  (matrix_ops.cols this <> n ->
   matrix_ops.determinant this
   = Throw (invalid_argument "Matrix must be square for determinant")).
Proof.
  intros Hthis Hrows. split.
  - intros Hcols. unfold matrix_ops.determinant.
    apply determinant_rec_elements; try done; [|lia].
    unfold well_formed in Hthis. now rewrite Hrows, Hcols in Hthis.
  - intros Hcols. unfold matrix_ops.determinant.
    destruct (matrix_ops.rows this) eqn:Hr; simpl;
      unfold call, matrix_ops.determinant_body;
      rewrite Hr, nat_neq_true by lia; reflexivity.
Qed.

Lemma determinant_of_well_formed_witness :
  matrix_ops.determinant
    (matrix_ops.mkMatrix [[2; 0; 1]; [1; 3; 2]; [1; 1; 1]]%float 3 3)
  = Ok (cofactor_expansion 3 (entry [[2; 0; 1]; [1; 3; 2]; [1; 1; 1]]%float)) /\
  matrix_ops.determinant (matrix_ops.mkMatrix [[1; 2; 3]; [4; 5; 6]]%float 2 3)
  = Throw (invalid_argument "Matrix must be square for determinant").
Proof.
  split.
  - apply (proj1 (determinant_of_well_formed
                    (matrix_ops.mkMatrix [[2; 0; 1]; [1; 3; 2]; [1; 1; 1]]%float 3 3) 3
                    ltac:(split; [reflexivity | repeat constructor]) eq_refl)).
    reflexivity.
  - apply (proj2 (determinant_of_well_formed
                    (matrix_ops.mkMatrix [[1; 2; 3]; [4; 5; 6]]%float 2 3) 2
                    ltac:(split; [reflexivity | repeat constructor]) eq_refl)).
    simpl. lia.
Defined.

(** The determinant of a 3 by 3 matrix. *)
Theorem determinant_3_by_3 (a b c d e f g h i : float) :
  matrix_ops.determinant (matrix_ops.mkMatrix [[a; b; c]; [d; e; f]; [g; h; i]] 3 3)
  = Ok (0 + 1 * a * (e * i - f * h) + -1 * b * (d * i - f * g)
        + 1 * c * (d * h - e * g))%float.
Proof. reflexivity. Qed.

(** The pivot that iteration [i] of the Gauss-Jordan loop reads. *)
Lemma gauss_jordan_pivot_elements this n i :
  matrix_ops.rows this = n -> matrix_ops.cols this = n ->
  shape (matrix_ops.data this) n n -> i < n ->
  matrix_ops.gauss_jordan_pivot this i =
  match passes gauss_jordan_pass i (beside_identity n (matrix_ops.data this)) with
  | Some A => Some (A i i)
  | None => None
  end.
Proof.
  intros Hrows Hcols Ha Hi. unfold matrix_ops.gauss_jordan_pivot, matrix_ops.inverse_entry.
  rewrite decide_True by lia.
  rewrite (bind_normal _ _ _ _ _ (augment_elements n _ this Hrows Hcols Ha _)).
  pose proof (gauss_jordan_steps n (matrix_ops.Matrix_zero 0 0) this Hrows Hcols
                (beside_identity n (matrix_ops.data this)) i ltac:(lia)) as Hsteps.
  destruct (passes gauss_jordan_pass i _) as [A|].
  - rewrite (bind_normal _ _ _ _ _ Hsteps). now rewrite augmented_load by lia.
  - destruct Hsteps as [s Hs]. unfold bind. now rewrite Hs.
Qed.

Lemma gauss_jordan_meets_small_pivot this n :
  matrix_ops.rows this = n -> matrix_ops.cols this = n ->
  shape (matrix_ops.data this) n n ->
  meets_small_pivot (matrix_ops.gauss_jordan_pivot this) <->
  passes gauss_jordan_pass n (beside_identity n (matrix_ops.data this)) = None.
Proof.
  intros Hrows Hcols Ha. rewrite passes_None. split.
  - intros (i & p & Hp & Hsmall).
    assert (Hi : i < n).
    { unfold matrix_ops.gauss_jordan_pivot in Hp. case_decide; [lia|done]. }
    rewrite (gauss_jordan_pivot_elements this n i Hrows Hcols Ha Hi) in Hp.
    destruct (passes gauss_jordan_pass i _) as [A|] eqn:HA; [|done].
    exists i, A. injection Hp as Hp. subst p. done.
  - intros (i & A & Hi & HA & Hp). exists i, (A i i).
    now rewrite (gauss_jordan_pivot_elements this n i Hrows Hcols Ha Hi), HA.
Qed.

(** [Matrix::inverse] after its test of the shape. *)
Lemma inverse_gate this n :
  well_formed this -> matrix_ops.rows this = n -> matrix_ops.cols this = n ->
  matrix_ops.inverse this =
  if below_tolerance (cofactor_expansion n (entry (matrix_ops.data this)))
  then Throw (invalid_argument "Matrix is singular (determinant = 0)")
  else call (matrix_ops.gauss_jordan this) matrix_ops.inverse_entry.
Proof.
  intros Hthis Hrows Hcols. unfold matrix_ops.inverse at 1, matrix_ops.inverse_body.
  rewrite nat_neq_false by lia.
  unfold matrix_ops.determinant. unfold well_formed in Hthis.
  rewrite Hrows, Hcols in Hthis.
  rewrite (determinant_rec_elements n this (matrix_ops.rows this)) by (done || lia).
  unfold call, eval. rewrite bind_ret. now destruct (below_tolerance _).
Qed.

(** X23.  [Matrix::inverse] of a well-formed square matrix: its determinant test
    reads a number; when that is below the tolerance, or when the
    elimination reads a pivot below the tolerance, the function throws
    [invalid_argument]; otherwise it returns a well-formed matrix of the
    same size. *)
Theorem inverse_of_well_formed this n :
  well_formed this -> matrix_ops.rows this = n -> matrix_ops.cols this = n ->
  exists d,
    matrix_ops.determinant this = Ok d /\
    (below_tolerance d = true ->
     matrix_ops.inverse this
     = Throw (invalid_argument "Matrix is singular (determinant = 0)")) /\
    (below_tolerance d = false ->
     meets_small_pivot (matrix_ops.gauss_jordan_pivot this) ->
     matrix_ops.inverse this = Throw (invalid_argument "Matrix is singular")) /\
    (below_tolerance d = false ->
     ~ meets_small_pivot (matrix_ops.gauss_jordan_pivot this) ->
     exists r, matrix_ops.inverse this = Ok r /\ well_formed r /\
               matrix_ops.rows r = n /\ matrix_ops.cols r = n).
Proof.
  intros Hthis Hrows Hcols.
  assert (Ha : shape (matrix_ops.data this) n n).
  { unfold well_formed in Hthis. now rewrite Hrows, Hcols in Hthis. }
  exists (cofactor_expansion n (entry (matrix_ops.data this))). split.
  { unfold matrix_ops.determinant. apply determinant_rec_elements; done || lia. }
  rewrite (inverse_gate this n Hthis Hrows Hcols).
  rewrite (gauss_jordan_meets_small_pivot this n Hrows Hcols Ha).
  rewrite (gauss_jordan_elements this n Hrows Hcols Ha).
  split; [now intros ->|]. split; intros ->.
  - now intros ->.
  - destruct (passes gauss_jordan_pass n _) as [A|]; [|done]. intros _.
    eexists. split; [done|]. split; [apply shape_table|]. done.
Qed.

Lemma inverse_of_well_formed_witness :
  exists r,
    matrix_ops.inverse (matrix_ops.mkMatrix [[1; 2]; [3; 4]]%float 2 2) = Ok r /\
    well_formed r /\ matrix_ops.rows r = 2 /\ matrix_ops.cols r = 2.
Proof.
  destruct (inverse_of_well_formed (matrix_ops.mkMatrix [[1; 2]; [3; 4]]%float 2 2) 2
              ltac:(split; [reflexivity | repeat constructor]) eq_refl eq_refl)
    as (d & Hd & _ & _ & Hok).
  apply Hok.
  - vm_compute in Hd. injection Hd as <-. vm_compute. reflexivity.
  - intros H.
    apply (gauss_jordan_meets_small_pivot
             (matrix_ops.mkMatrix [[1; 2]; [3; 4]]%float 2 2) 2 eq_refl eq_refl
             ltac:(split; [reflexivity | repeat constructor])) in H.
    vm_compute in H. discriminate H.
Defined.

(** X24.  The matrix that [Matrix::inverse] returns is the one [inverse] of
    [matrix.cpp] returns on the same data, bit for bit; where [inverse] of
    [matrix.cpp] returns, [Matrix::inverse] returns the same matrix or fails
    its determinant test, and where [inverse] of [matrix.cpp] throws,
    [Matrix::inverse] throws. *)
Theorem inverses_agree this n :
  well_formed this -> matrix_ops.rows this = n -> matrix_ops.cols this = n ->
  1 <= n ->
  (forall r, matrix_ops.inverse this = Ok r ->
     matrix.inverse (matrix_ops.data this) = Ok (matrix_ops.data r)) /\
  (forall x, matrix.inverse (matrix_ops.data this) = Ok x ->
     matrix_ops.inverse this = Ok (matrix_ops.mkMatrix x n n) \/
     matrix_ops.inverse this
     = Throw (invalid_argument "Matrix is singular (determinant = 0)")) /\
  (matrix.inverse (matrix_ops.data this) = Throw (runtime_error "Matrix is singular") ->
     matrix_ops.inverse this = Throw (invalid_argument "Matrix is singular") \/
     matrix_ops.inverse this
     = Throw (invalid_argument "Matrix is singular (determinant = 0)")).
Proof.
  intros Hthis Hrows Hcols Hn.
  assert (Ha : shape (matrix_ops.data this) n n).
  { unfold well_formed in Hthis. now rewrite Hrows, Hcols in Hthis. }
  rewrite (inverse_gate this n Hthis Hrows Hcols).
  rewrite (gauss_jordan_elements this n Hrows Hcols Ha).
  rewrite (inverse_elements _ n Ha Hn).
  destruct (below_tolerance _); destruct (passes gauss_jordan_pass n _) as [A|];
    (split; [|split]); try done; try (intros; simplify_eq; auto; fail).
Qed.

Lemma inverses_agree_witness :
  matrix.inverse [[1; 2]; [3; 4]]%float = Ok [[-2; 1]; [1.5; -0.5]]%float.
Proof.
  apply (proj1 (inverses_agree (matrix_ops.mkMatrix [[1; 2]; [3; 4]]%float 2 2) 2
                  ltac:(split; [reflexivity | repeat constructor])
                  eq_refl eq_refl ltac:(lia))
           (matrix_ops.mkMatrix [[-2; 1]; [1.5; -0.5]]%float 2 2)).
  vm_compute. reflexivity.
Defined.
